(** * Transport puzzle: compiler, search program and solution codec

    A shallow embedding of the puzzle core of the LLM reasoning benchmark
    ([generateRandomConfig], [generateAllowedMoves], [generatePrologCode],
    [moveToSentence], [solveProblem], [checkUserSolution],
    [parseSolutionLines]) together with the properties proved about it.

    Conventions of the model.
    - A JavaScript string is the list of its UTF-16 code units ([jsstring]).
    - JavaScript and Prolog integers are values of [Z].  JavaScript numbers
      are doubles, so the model agrees with the source as long as every
      amount stays within [MAX_SAFE_INTEGER] (2^53 - 1); beyond it the
      source rounds, and prints [Infinity] into the query.  Statements
      about amounts decoded from candidate lines carry this bound as a
      hypothesis ([in_exact_range]).
    - A thrown [Error] is the [Throw] case of [result].
    - The generated Prolog text is represented by the facts it contains
      ([program]); every rule of the fixed rule text is a function into
      lists of answers, in the order and with the multiplicity in which
      depth-first SLD resolution produces them.  Resource limits of the
      embedded Prolog engine are not part of the model.  A goal [move/1]
      without any fact has no answer in the model, where the engine raises
      an existence error; statements that depend on the difference assume
      a move fact.
    - Unbounded loops and unbounded search carry a fuel argument and answer
      [None] when the fuel does not suffice. *)

From Stdlib Require Import List ZArith NArith Lia Bool Ascii Sorted.
From Stdlib Require String Decimal DecimalN DecimalPos.
Import String.StringSyntax.
Import ListNotations.
Local Open Scope Z_scope.

(** ** JavaScript strings *)

Module Js.

Definition jsstring := list N.

(** A string literal of the source, as code units. *)
Definition lit (s : String.string) : jsstring :=
  map N_of_ascii (String.list_ascii_of_string s).
Arguments lit s%_string_scope.

Fixpoint eqb (a b : jsstring) : bool :=
  match a, b with
  | [], [] => true
  | x :: a', y :: b' => N.eqb x y && eqb a' b'
  | _, _ => false
  end.

(** [\s] of a regular expression and the characters removed by [trim]:
    WhiteSpace and LineTerminator code units. *)
Definition is_space (c : N) : bool :=
  existsb (N.eqb c)
    [9; 10; 11; 12; 13; 32; 160; 5760; 8232; 8233; 8239; 8287; 12288; 65279]%N
  || ((8192 <=? c) && (c <=? 8202))%N.

(** [\d] of a regular expression: the ASCII digits. *)
Definition is_digit (c : N) : bool := ((48 <=? c) && (c <=? 57))%N.

Fixpoint drop_while (f : N -> bool) (s : jsstring) : jsstring :=
  match s with
  | [] => []
  | c :: t => if f c then drop_while f t else s
  end.

Fixpoint take_while (f : N -> bool) (s : jsstring) : jsstring :=
  match s with
  | [] => []
  | c :: t => if f c then c :: take_while f t else []
  end.

(** [String.prototype.trim]. *)
Definition trim (s : jsstring) : jsstring :=
  rev (drop_while is_space (rev (drop_while is_space s))).

Fixpoint prefixb (p s : jsstring) : bool :=
  match p, s with
  | [], _ => true
  | x :: p', y :: s' => N.eqb x y && prefixb p' s'
  | _ :: _, [] => false
  end.

(** [String.prototype.split] with a non-empty separator: scan from the
    left, cut at every occurrence, and resume after it.  [skip] counts the
    code units of the current occurrence that are still to be passed over,
    [cur] is the piece being collected, reversed. *)
Fixpoint split_go (sep : jsstring) (skip : nat) (cur : jsstring) (s : jsstring)
  : list jsstring :=
  match s with
  | [] => [rev cur]
  | c :: t =>
      match skip with
      | S k => split_go sep k cur t
      | O => if prefixb sep s
             then rev cur :: split_go sep (Nat.pred (length sep)) [] t
             else split_go sep O (c :: cur) t
      end
  end.

Definition split (sep s : jsstring) : list jsstring := split_go sep O [] s.

(** [Array.prototype.join]. *)
Fixpoint join (sep : jsstring) (l : list jsstring) : jsstring :=
  match l with
  | [] => []
  | [x] => x
  | x :: rest => x ++ sep ++ join sep rest
  end.

(** [Array.prototype.indexOf] on an array of strings: the first index
    holding the string, or -1. *)
Fixpoint indexOf (l : list jsstring) (x : jsstring) : Z :=
  match l with
  | [] => -1
  | y :: t => if eqb y x then 0
              else let i := indexOf t x in if i <? 0 then -1 else i + 1
  end.

(** [parseInt(ds, 10)] on a string of ASCII digits: the integer written,
    which is the number of the source up to [2^53 - 1]. *)
Definition parseInt (ds : jsstring) : Z :=
  Z.of_N (fold_left (fun acc c => (10 * acc + (c - 48))%N) ds 0%N).

Fixpoint uint_units (d : Decimal.uint) : jsstring :=
  match d with
  | Decimal.Nil => []
  | Decimal.D0 d => 48%N :: uint_units d
  | Decimal.D1 d => 49%N :: uint_units d
  | Decimal.D2 d => 50%N :: uint_units d
  | Decimal.D3 d => 51%N :: uint_units d
  | Decimal.D4 d => 52%N :: uint_units d
  | Decimal.D5 d => 53%N :: uint_units d
  | Decimal.D6 d => 54%N :: uint_units d
  | Decimal.D7 d => 55%N :: uint_units d
  | Decimal.D8 d => 56%N :: uint_units d
  | Decimal.D9 d => 57%N :: uint_units d
  end.

(** An integer number inside a template literal: its decimal digits,
    with a minus sign when negative. *)
Definition toString (z : Z) : jsstring :=
  match z with
  | Z0 => lit "0"
  | Zpos p => uint_units (Pos.to_uint p)
  | Zneg p => lit "-" ++ uint_units (Pos.to_uint p)
  end.

(** The regular expression [/^(\d+)\s+(\S+)$/]: the two captured groups
    when the whole string matches. *)
Definition match_segment (seg : jsstring) : option (jsstring * jsstring) :=
  let ds := take_while is_digit seg in
  let r1 := drop_while is_digit seg in
  let ws := take_while is_space r1 in
  let nm := drop_while is_space r1 in
  match ds, ws, nm with
  | _ :: _, _ :: _, _ :: _ =>
      if forallb (fun c => negb (is_space c)) nm then Some (ds, nm) else None
  | _, _, _ => None
  end.

End Js.

Import Js.

(** ** Results of code that may throw *)

Inductive error : Type :=
| MissingCross (line : jsstring)
| InvalidDirection (line : jsstring)
| CannotParseSegment (seg line : jsstring)
| UnknownSpecies (spName line : jsstring)
| TypeError.

Inductive result (A : Type) : Type :=
| Ok (a : A)
| Throw (e : error).
Arguments Ok {A} a.
Arguments Throw {A} e.

Definition rbind {A B} (r : result A) (k : A -> result B) : result B :=
  match r with
  | Ok a => k a
  | Throw e => Throw e
  end.

(** ** Puzzle configurations *)

Record Species := mkSpecies { name : jsstring; count : Z }.
Record Relationship := mkRel { predator : jsstring; prey : jsstring }.
Record Config := mkConfig {
  species : list Species;
  relationships : list Relationship;
  starshipCapacity : Z
}.

Definition speciesNames (config : Config) : list jsstring :=
  map name (species config).

(** ** Solution codec *)

Inductive direction := leftToRight | rightToLeft.

Record Step := mkStep { amounts : list Z; step_direction : direction }.

(** [amounts[idx] += count] on an array; [idx] is a valid index. *)
Fixpoint add_at (l : list Z) (idx : nat) (v : Z) : list Z :=
  match l, idx with
  | [], _ => []
  | x :: t, O => (x + v) :: t
  | x :: t, S i => x :: add_at t i v
  end.

(** The loop over the comma-separated segments of one line. *)
Fixpoint parseSegments (names : list jsstring) (line : jsstring)
    (segments : list jsstring) (amounts : list Z) : result (list Z) :=
  match segments with
  | [] => Ok amounts
  | segRaw :: rest =>
      let seg := trim segRaw in
      match match_segment seg with
      | None => Throw (CannotParseSegment seg line)
      | Some (digits, spName) =>
          let count := parseInt digits in
          let idx := indexOf names spName in
          if idx <? 0 then Throw (UnknownSpecies spName line)
          else parseSegments names line rest
                 (add_at amounts (Z.to_nat idx) count)
      end
  end.

(** The body of the loop of [parseSolutionLines] for one line. *)
Definition parseLine (names : list jsstring) (line : jsstring) : result Step :=
  match split (lit " cross ") line with
  | leftPart :: rightPart :: _ =>
      match rightPart with
      | [] => Throw (MissingCross line)
      | _ :: _ =>
          let directionStr := trim rightPart in
          if eqb directionStr (lit "left -> right") then
            rbind (parseSegments names line (split (lit ",") leftPart)
                     (repeat 0 (length names)))
                  (fun a => Ok (mkStep a leftToRight))
          else if eqb directionStr (lit "right -> left") then
            rbind (parseSegments names line (split (lit ",") leftPart)
                     (repeat 0 (length names)))
                  (fun a => Ok (mkStep a rightToLeft))
          else Throw (InvalidDirection line)
      end
  | _ => Throw (MissingCross line)
  end.

Fixpoint parseLines (names : list jsstring) (solutionLines : list jsstring)
  : result (list Step) :=
  match solutionLines with
  | [] => Ok []
  | line :: rest =>
      rbind (parseLine names line) (fun st =>
      rbind (parseLines names rest) (fun sts => Ok (st :: sts)))
  end.

Definition parseSolutionLines (config : Config) (solutionLines : list jsstring)
  : result (list Step) :=
  parseLines (speciesNames config) solutionLines.

(** ** The compiled program *)

(** The values of [i] in [for (let i = 0; i <= capacity; i++)]. *)
Definition upto (capacity : Z) : list Z :=
  map Z.of_nat (seq 0 (Z.to_nat (capacity + 1))).

(** [current.reduce((a, b) => a + b, 0)]. *)
Definition total (current : list Z) : Z := fold_left Z.add current 0.

(** [generateAllowedMoves]: [helper] pushes every value of [upto] at the
    current position and recurses; at the last position it keeps the vector
    when its total lies in [1, capacity].  [remaining] is [n - index]. *)

Fixpoint helper (capacity : Z) (remaining : nat) (current : list Z)
  : list (list Z) :=
  match remaining with
  | O => if (1 <=? total current) && (total current <=? capacity)
         then [current] else []
  | S r =>
      flat_map (fun i => helper capacity r (current ++ [i])) (upto capacity)
  end.

Definition generateAllowedMoves (n : nat) (capacity : Z) : list (list Z) :=
  helper capacity n [].

(** The text of one move fact: [move([${move.join(",")}]).] *)
Definition move_fact_text (move : list Z) : jsstring :=
  lit "move([" ++ join (lit ",") (map toString move) ++ lit "]).".

Inductive side := start | target.

(** The Prolog term [state(Counts, Side)]. *)
Inductive state := State (Counts : list Z) (Side : side).

(** The Prolog term [move(Move, OldState, NewState)]. *)
Record moveTerm := MoveTerm {
  mt_move : list Z;
  mt_old : state;
  mt_new : state
}.

(** The facts of a generated program and the goals of its [safe/1]
    clause: one pair of [nth0] indices per relationship, in order.  With
    no relationship the clause is the fact [safe(_)]. *)
Record program := mkProgram {
  move : list (list Z);
  init_counts : list Z;
  initial_state : state;
  final_state : state;
  safe_indices : list (Z * Z)
}.

Definition generatePrologCode (config : Config) : program :=
  let relationships := relationships config in
  let starshipCapacity :=
    if starshipCapacity config =? 0 then 2 else starshipCapacity config in
  let n := length (species config) in
  let speciesNames := speciesNames config in
  let initCounts := map count (species config) in
  let zeros := repeat 0 n in
  {| move := generateAllowedMoves n starshipCapacity;
     init_counts := initCounts;
     initial_state := State initCounts start;
     final_state := State zeros target;
     safe_indices :=
       map (fun rel => (indexOf speciesNames (predator rel),
                        indexOf speciesNames (prey rel))) relationships |}.

(** *** Answers of goals *)

Notation "x <- m ;; k" := (flat_map (fun x => k) m)
  (at level 61, m at next level, right associativity).

Definition guard (b : bool) : list unit := if b then [tt] else [].

Definition of_option {A} (o : option A) : list A :=
  match o with Some a => [a] | None => [] end.

(** [nth0/3] of the generated text (first clause cut, second guarded by
    [N > 0]). *)
Fixpoint nth0 (n : Z) (l : list Z) : option Z :=
  match l with
  | [] => None
  | H :: T => if n =? 0 then Some H
              else if n >? 0 then nth0 (n - 1) T else None
  end.

Fixpoint apply_move_subtract (Xs Ys : list Z) : option (list Z) :=
  match Xs, Ys with
  | [], [] => Some []
  | X :: Xs, Y :: Ys =>
      let z := X - Y in
      if z >=? 0 then option_map (cons z) (apply_move_subtract Xs Ys) else None
  | _, _ => None
  end.

Fixpoint apply_move_add (Xs Is Ys : list Z) : option (list Z) :=
  match Xs, Is, Ys with
  | [], [], [] => Some []
  | X :: Xs, i :: Is, Y :: Ys =>
      let Available := i - X in
      if Y <=? Available
      then option_map (cons (X + Y)) (apply_move_add Xs Is Ys) else None
  | _, _, _ => None
  end.

(** The body of [safe(state(Counts,_))]: nine goals per relationship. *)
Fixpoint safe_goals (Init Counts : list Z) (indices : list (Z * Z))
  : list unit :=
  match indices with
  | [] => [tt]
  | (predatorIndex, preyIndex) :: rest =>
      PredCount <- of_option (nth0 predatorIndex Counts) ;;
      PreyCount <- of_option (nth0 preyIndex Counts) ;;
      _ <- guard (PreyCount =? 0) ++ guard (PreyCount >=? PredCount) ;;
      InitPred <- of_option (nth0 predatorIndex Init) ;;
      InitPrey <- of_option (nth0 preyIndex Init) ;;
      let TargetPred := InitPred - PredCount in
      let TargetPrey := InitPrey - PreyCount in
      _ <- guard (TargetPrey =? 0) ++ guard (TargetPrey >=? TargetPred) ;;
      safe_goals Init Counts rest
  end.

Definition safe (p : program) (s : state) : list unit :=
  match safe_indices p with
  | [] => [tt]
  | indices =>
      let 'State Counts _ := s in safe_goals (init_counts p) Counts indices
  end.

Fixpoint list_eqb (a b : list Z) : bool :=
  match a, b with
  | [], [] => true
  | x :: a', y :: b' => (x =? y) && list_eqb a' b'
  | _, _ => false
  end.

Definition side_eqb (a b : side) : bool :=
  match a, b with
  | start, start | target, target => true
  | _, _ => false
  end.

Definition state_eqb (a b : state) : bool :=
  let 'State ca sa := a in
  let 'State cb sb := b in
  list_eqb ca cb && side_eqb sa sb.

(** The goal [move(Move)]: with [Move] unbound every fact answers in
    turn; with [Move] bound only the facts equal to it do.  (Without any
    fact the engine raises an existence error; here the goal fails.) *)
Definition move_goal (p : program) (Move : option (list Z)) : list (list Z) :=
  match Move with
  | None => move p
  | Some m => filter (list_eqb m) (move p)
  end.

Definition transition_with_move (p : program) (s : state)
    (Move : option (list Z)) : list (list Z * state) :=
  match s with
  | State Counts start =>
      Move <- move_goal p Move ;;
      NewCounts <- of_option (apply_move_subtract Counts Move) ;;
      _ <- safe p (State NewCounts target) ;;
      [(Move, State NewCounts target)]
  | State Counts target =>
      Move <- move_goal p Move ;;
      NewCounts <- of_option (apply_move_add Counts (init_counts p) Move) ;;
      _ <- safe p (State NewCounts start) ;;
      [(Move, State NewCounts start)]
  end.

Definition not_member (X : state) (l : list state) : bool :=
  forallb (fun H => negb (state_eqb X H)) l.

(** Answers of a goal called once per element, concatenated; [None] as
    soon as one call runs out of fuel. *)
Fixpoint gather {A B} (f : A -> option (list B)) (l : list A)
  : option (list B) :=
  match l with
  | [] => Some []
  | a :: t =>
      match f a, gather f t with
      | Some x, Some y => Some (x ++ y)
      | _, _ => None
      end
  end.

(** All answers of [path(State, Visited, Moves)], in order. *)
Fixpoint path (fuel : nat) (p : program) (s : state) (Visited : list state)
  : option (list (list moveTerm)) :=
  match fuel with
  | O => None
  | S fuel' =>
      option_map
        (app (if state_eqb s (final_state p) then [[]] else []))
        (gather
           (fun '(Move, NextState) =>
              if not_member NextState Visited
              then option_map (map (cons (MoveTerm Move s NextState)))
                     (path fuel' p NextState (NextState :: Visited))
              else Some [])
           (transition_with_move p s None))
  end.

Definition solve_solution (fuel : nat) (p : program)
  : option (list (list moveTerm)) :=
  path fuel p (initial_state p) [initial_state p].

(** The Prolog term [step(Move, Direction)] is a [Step]. *)
Fixpoint check_solution (p : program) (steps : list Step) (s : state)
  : list unit :=
  match steps with
  | [] => guard (state_eqb s (final_state p))
  | mkStep Move leftToRight :: Rest =>
      match s with
      | State Counts start =>
          t <- transition_with_move p (State Counts start) (Some Move) ;;
          match snd t with
          | State NewCounts target =>
              check_solution p Rest (State NewCounts target)
          | _ => []
          end
      | _ => []
      end
  | mkStep Move rightToLeft :: Rest =>
      match s with
      | State Counts target =>
          t <- transition_with_move p (State Counts target) (Some Move) ;;
          match snd t with
          | State NewCounts start =>
              check_solution p Rest (State NewCounts start)
          | _ => []
          end
      | _ => []
      end
  end.

(** ** Encoding solutions and the two entry points *)

Definition sideToText (sideAtom : side) : jsstring :=
  match sideAtom with start => lit "left" | target => lit "right" end.

Definition state_side (s : state) : side := let 'State _ sd := s in sd.

(** The template literal of one segment: count, a space, the name. *)
Definition segment_text (count : Z) (spName : jsstring) : jsstring :=
  toString count ++ lit " " ++ spName.

(** The loop of [moveToSentence] building [segments]; reading
    [species[i].name] past the end of [species] throws. *)
Fixpoint segments_of (amounts : list Z) (species : list Species)
  : result (list jsstring) :=
  match amounts with
  | [] => Ok []
  | count :: amounts' =>
      if count >? 0 then
        match species with
        | [] => Throw TypeError
        | sp :: species' =>
            rbind (segments_of amounts' species') (fun segs =>
            Ok (segment_text count (name sp) :: segs))
        end
      else segments_of amounts' (tl species)
  end.

Definition moveToSentence (m : moveTerm) (species : list Species)
  : result jsstring :=
  let direction :=
    sideToText (state_side (mt_old m)) ++ lit " -> "
      ++ sideToText (state_side (mt_new m)) in
  rbind (segments_of (mt_move m) species) (fun segments =>
  let crossingWhat := join (lit ", ") segments in
  Ok (crossingWhat ++ lit " " ++ lit "cross" ++ lit " " ++ direction)).

Fixpoint solutionToHumanReadableList (solutionTerm : list moveTerm)
    (species : list Species) : result (list jsstring) :=
  match solutionTerm with
  | [] => Ok []
  | head :: rest =>
      rbind (moveToSentence head species) (fun line =>
      rbind (solutionToHumanReadableList rest species) (fun steps =>
      Ok (line :: steps)))
  end.

Fixpoint rmap {A B} (f : A -> result B) (l : list A) : result (list B) :=
  match l with
  | [] => Ok []
  | a :: t => rbind (f a) (fun b => rbind (rmap f t) (fun bs => Ok (b :: bs)))
  end.

(** [solveProblem]: every answer of [solve_solution(Sol)], rendered.
    [None]: the search did not finish within the fuel. *)
Definition solveProblem (fuel : nat) (config : Config)
  : option (result (list (list jsstring))) :=
  let prologProgram := generatePrologCode config in
  option_map
    (rmap (fun solutionTerm =>
             solutionToHumanReadableList solutionTerm (species config)))
    (solve_solution fuel prologProgram).

(** [checkUserSolution]: the lines are decoded first, outside any
    handler; then the query [initial_state(Init), check_solution(Steps,
    Init)] is asked for one answer. *)
Definition checkUserSolution (prologProgram : program) (config : Config)
    (solutionLines : list jsstring) : result bool :=
  rbind (parseSolutionLines config solutionLines) (fun stepsArray =>
  let answers := check_solution prologProgram stepsArray
                   (initial_state prologProgram) in
  Ok (match answers with [] => false | _ :: _ => true end)).

(** The caller of [checkUserSolution] ([logTaskStatus]): the call sits in
    a [try] whose [catch] sets the verdict to [false]. *)
Definition solutionIsValid (prologProgram : program) (config : Config)
    (solution : list jsstring) : bool :=
  match checkUserSolution prologProgram config solution with
  | Ok b => b
  | Throw _ => false
  end.

(** ** The configuration generator *)

(** [Math.floor(Math.random() * k)] at the [t]-th call of [Math.random].
    The random source [rnd] is arbitrary; the index lies below [k], and
    is 0 when [k] is 0. *)
Definition random_index (rnd : nat -> nat) (t : nat) (k : nat) : nat :=
  match k with
  | O => O
  | S _ => Nat.modulo (rnd t) k
  end.

(** [randomName]: five letters of ["abcdefghijklmnopqrstuvwxyz"]. *)
Fixpoint randomName_loop (rnd : nat -> nat) (t : nat) (i : nat)
    (result : jsstring) : jsstring * nat :=
  match i with
  | O => (result, t)
  | S i' =>
      randomName_loop rnd (S t) i'
        (result ++ [N.of_nat (97 + random_index rnd t 26)])
  end.

Definition randomName (rnd : nat -> nat) (t : nat) : jsstring * nat :=
  randomName_loop rnd t 5 [].

Fixpoint species_loop (rnd : nat -> nat) (t : nat) (remaining : nat)
    (numIndividualsPerSpecies : Z) (species : list Species)
  : list Species * nat :=
  match remaining with
  | O => (species, t)
  | S r =>
      let '(nm, t') := randomName rnd t in
      species_loop rnd t' r numIndividualsPerSpecies
        (species ++ [mkSpecies nm numIndividualsPerSpecies])
  end.

(** The inner loop [while (preyIdx === predIdx)]: it draws again until
    the two indices differ and has no bound of its own. *)
Fixpoint resample (fuel : nat) (rnd : nat -> nat) (t : nat)
    (numSpecies predIdx preyIdx : nat) : option (nat * nat) :=
  if Nat.eqb preyIdx predIdx then
    match fuel with
    | O => None
    | S fuel' =>
        resample fuel' rnd (S t) numSpecies predIdx
          (random_index rnd t numSpecies)
    end
  else Some (preyIdx, t).

Definition pair_eqb (a b : nat * nat) : bool :=
  Nat.eqb (fst a) (fst b) && Nat.eqb (snd a) (snd b).

(** The loop [while (relationships.length < numRelationships && attempts
    < 1000)].  [usedPairs] holds the index pairs behind the keys of the
    source's [Set]. *)
Fixpoint relationships_loop (fuel : nat) (rnd : nat -> nat) (t : nat)
    (numSpecies : nat) (numRelationships : Z) (species : list Species)
    (relationships : list Relationship) (usedPairs : list (nat * nat))
    (attempts : Z) : option (list Relationship) :=
  if (Z.of_nat (length relationships) <? numRelationships) && (attempts <? 1000)
  then
    match fuel with
    | O => None
    | S fuel' =>
        let attempts := attempts + 1 in
        let predIdx := random_index rnd t numSpecies in
        let preyIdx := random_index rnd (S t) numSpecies in
        match resample fuel' rnd (S (S t)) numSpecies predIdx preyIdx with
        | None => None
        | Some (preyIdx, t') =>
            if existsb (pair_eqb (predIdx, preyIdx)) usedPairs
            then relationships_loop fuel' rnd t' numSpecies numRelationships
                   species relationships usedPairs attempts
            else relationships_loop fuel' rnd t' numSpecies numRelationships
                   species
                   (relationships ++
                      [mkRel (name (nth predIdx species (mkSpecies [] 0)))
                             (name (nth preyIdx species (mkSpecies [] 0)))])
                   ((predIdx, preyIdx) :: usedPairs) attempts
        end
    end
  else Some relationships.

(** [generateRandomConfig]; [None]: the run did not finish within the
    fuel. *)
Definition generateRandomConfig (fuel : nat) (rnd : nat -> nat)
    (numSpecies : nat) (numIndividualsPerSpecies : Z) (numRelationships : Z)
    (starshipCapacity : Z) : option Config :=
  let '(species, t) :=
    species_loop rnd O numSpecies numIndividualsPerSpecies [] in
  option_map
    (fun relationships => mkConfig species relationships starshipCapacity)
    (relationships_loop fuel rnd t numSpecies numRelationships species [] [] 0).

(** ** Notions used to state the properties *)

(** Lexicographic order on vectors, first position most significant. *)
Inductive lex_lt : list Z -> list Z -> Prop :=
| lex_head x y a b : x < y -> lex_lt (x :: a) (y :: b)
| lex_tail x a b : lex_lt a b -> lex_lt (x :: a) (x :: b).

(** A goal holds when it has at least one answer. *)
Definition holds {A} (answers : list A) : Prop := answers <> [].

(** The entry of a count vector that belongs to a species name. *)
Definition count_at (config : Config) (Counts : list Z) (nm : jsstring) : Z :=
  nth (Z.to_nat (indexOf (speciesNames config) nm)) Counts 0.

(** The "not outnumbered" condition of one location. *)
Definition not_outnumbered (preyCount predCount : Z) : Prop :=
  preyCount = 0 \/ preyCount >= predCount.

Fixpoint zip_with (f : Z -> Z -> Z) (a b : list Z) : list Z :=
  match a, b with
  | x :: a', y :: b' => f x y :: zip_with f a' b'
  | _, _ => []
  end.

(** What the nine goals of one relationship ask of the two locations. *)
Definition rel_ok (Init Counts : list Z) (ix : Z * Z) : Prop :=
  exists PredCount PreyCount InitPred InitPrey,
    nth0 (fst ix) Counts = Some PredCount /\
    nth0 (snd ix) Counts = Some PreyCount /\
    nth0 (fst ix) Init = Some InitPred /\
    nth0 (snd ix) Init = Some InitPrey /\
    not_outnumbered PreyCount PredCount /\
    not_outnumbered (InitPrey - PreyCount) (InitPred - PredCount).

(** A list of [move/3] terms that leads from a state to the final state
    through transitions, each starting where the previous one ended. *)
Inductive chain (p : program) : state -> list moveTerm -> Prop :=
| chain_nil s : s = final_state p -> chain p s []
| chain_cons s m s' rest :
    In (m, s') (transition_with_move p s None) ->
    chain p s' rest ->
    chain p s (MoveTerm m s s' :: rest).

(** Steps applied in order from a state, each a legal transition in its
    declared direction, with the states reached. *)
Inductive legal_run (p : program) : state -> list Step -> list state -> Prop :=
| run_nil s : legal_run p s [] []
| run_cons s m d s' rest trace :
    In (m, s') (transition_with_move p s (Some m)) ->
    (d = leftToRight /\ state_side s = start \/
     d = rightToLeft /\ state_side s = target) ->
    legal_run p s' rest trace ->
    legal_run p s (mkStep m d :: rest) (s' :: trace).

(** Every count vector between zero and the initial counts, and the
    finite set of states in which every search stays. *)
Fixpoint box (Init : list Z) : list (list Z) :=
  match Init with
  | [] => [[]]
  | i :: rest => flat_map (fun x => map (cons x) (box rest)) (upto i)
  end.

Definition state_space (p : program) : list state :=
  initial_state p ::
  map (fun c => State c start) (box (init_counts p)) ++
  map (fun c => State c target) (box (init_counts p)).

(** A trimmed segment accepted by [/^(\d+)\s+(\S+)$/]: digits, then white
    space, then a name free of white space, none of them empty. *)
Definition segment_shape (seg digits ws spName : jsstring) : Prop :=
  seg = digits ++ ws ++ spName /\
  digits <> [] /\ forallb is_digit digits = true /\
  ws <> [] /\ forallb is_space ws = true /\
  spName <> [] /\ forallb (fun c => negb (is_space c)) spName = true.

(** The amount decoded for the species at index [i]: the sum of the
    integers of the segments whose name is first found at [i]. *)
Definition amount_for (names : list jsstring)
    (segs : list (jsstring * jsstring)) (i : nat) : Z :=
  fold_right Z.add 0
    (map (fun seg => if indexOf names (snd seg) =? Z.of_nat i
                     then parseInt (fst seg) else 0) segs).

(** Does [sep] match at a position inside [x], when [x] is followed by
    [rest]? *)
Fixpoint occurs_in (sep x rest : jsstring) : bool :=
  match x with
  | [] => false
  | c :: x' => prefixb sep (x ++ rest) || occurs_in sep x' rest
  end.

(** Species names for which the line format is unambiguous: not empty,
    free of white space and commas, and other than the word [cross]. *)
Definition plain_name (nm : jsstring) : Prop :=
  nm <> [] /\
  forallb (fun c => negb (is_space c)) nm = true /\
  forallb (fun c => negb (N.eqb c 44)) nm = true /\
  nm <> lit "cross".

(** The step that a [move/3] term of a solution stands for. *)
Definition step_of (t : moveTerm) : Step :=
  mkStep (mt_move t)
    (match state_side (mt_old t) with
     | start => leftToRight
     | target => rightToLeft
     end).

(** The (digits, name) pairs of the positive entries of a move. *)
Fixpoint positive_pairs (amounts : list Z) (species : list Species)
  : list (jsstring * jsstring) :=
  match amounts, species with
  | count :: amounts', sp :: species' =>
      if count >? 0
      then (toString count, name sp) :: positive_pairs amounts' species'
      else positive_pairs amounts' species'
  | _, _ => []
  end.

(** The text of a (digits, name) pair, and the pairs a line is made of. *)
Definition pair_text (pr : jsstring * jsstring) : jsstring :=
  fst pr ++ lit " " ++ snd pr.

Definition good_pair (pr : jsstring * jsstring) : Prop :=
  (exists p, fst pr = toString (Zpos p)) /\ plain_name (snd pr).

(** The text of a direction in a step line. *)
Definition direction_text (d : direction) : jsstring :=
  match d with
  | leftToRight => lit "left -> right"
  | rightToLeft => lit "right -> left"
  end.

(** Turns a true conjunction of code unit tests into equations. *)
Ltac split_eqbs :=
  repeat match goal with
         | H : _ && _ = true |- _ => apply andb_true_iff in H; destruct H
         | H : N.eqb _ _ = true |- _ => apply N.eqb_eq in H
         end.

(** ** Notions used to state further properties *)

Definition state_counts (s : state) : list Z := let 'State c _ := s in c.

Definition flip_side (sd : side) : side :=
  match sd with start => target | target => start end.

(** The direction of a step that leaves side [sd]. *)
Definition direction_from (sd : side) : direction :=
  match sd with start => leftToRight | target => rightToLeft end.

(** The directions of [k] successive steps, the first leaving side [sd]. *)
Fixpoint alternating (sd : side) (k : nat) : list direction :=
  match k with
  | O => []
  | S k' => direction_from sd :: alternating (flip_side sd) k'
  end.

(** The capacity the compiler works with: [starshipCapacity || 2]. *)
Definition effective_capacity (config : Config) : Z :=
  if starshipCapacity config =? 0 then 2 else starshipCapacity config.

(** The number of count vectors between zero and the initial counts. *)
Definition box_size (species : list Species) : nat :=
  fold_right (fun sp acc => (Z.to_nat (count sp + 1) * acc)%nat) 1%nat species.

(** A lowercase letter, one of ["abcdefghijklmnopqrstuvwxyz"]. *)
Definition is_lower (c : N) : bool := ((97 <=? c) && (c <=? 122))%N.

(** The relationship the generator records for a pair of species
    indices. *)
Definition relationship_of (species : list Species) (ij : nat * nat)
  : Relationship :=
  mkRel (name (nth (fst ij) species (mkSpecies [] 0)))
        (name (nth (snd ij) species (mkSpecies [] 0))).

(** An element that occurs at two positions of a list at least. *)
Definition twice {A} (x : A) (l : list A) : Prop :=
  exists l1 l2 l3, l = l1 ++ x :: l2 ++ x :: l3.

(** The numbers of steps of a solution that leave the start side and
    that leave the target side. *)
Definition forward_steps (sol : list moveTerm) : Z :=
  Z.of_nat
    (length (filter (fun t => side_eqb (state_side (mt_old t)) start) sol)).

Definition backward_steps (sol : list moveTerm) : Z :=
  Z.of_nat
    (length (filter (fun t => side_eqb (state_side (mt_old t)) target) sol)).

(** ** The range in which numbers are exact *)

(** [Number.MAX_SAFE_INTEGER]: up to this bound the numbers of the source
    (doubles) are the integers themselves, and so are their sums. *)
Definition MAX_SAFE_INTEGER : Z := 2 ^ 53 - 1.

(** The integers written in a line: the leading run of digits of every
    comma separated segment of the piece in front of the first
    [" cross "]. *)
Definition written_amounts (line : jsstring) : list Z :=
  match split (lit " cross ") line with
  | leftPart :: _ =>
      map (fun raw => parseInt (take_while is_digit (trim raw)))
          (split (lit ",") leftPart)
  | [] => []
  end.

(** A line whose written integers add up to a safe integer: decoding it
    rounds no number and no sum. *)
Definition in_exact_range (line : jsstring) : Prop :=
  total (written_amounts line) <= MAX_SAFE_INTEGER.

(** * Properties *)

(** ** Move enumeration *)

Lemma In_upto c i : In i (upto c) <-> 0 <= i <= c.
Proof.
  unfold upto. rewrite in_map_iff. split.
  - intros (k & <- & Hk). apply in_seq in Hk. lia.
  - intros H. exists (Z.to_nat i). split; [lia|]. apply in_seq. lia.
Qed.

Lemma fold_add_shift l a : fold_left Z.add l a = a + fold_left Z.add l 0.
Proof.
  revert a. induction l as [|x l IH]; intros a; simpl; [lia|].
  rewrite (IH (a + x)), (IH x). lia.
Qed.

Lemma total_cons x l : total (x :: l) = x + total l.
Proof. unfold total. simpl. apply fold_add_shift. Qed.

Lemma In_helper c r : forall cur v,
  In v (helper c r cur) <->
  exists suffix, v = cur ++ suffix /\ length suffix = r /\
                 Forall (fun x => 0 <= x <= c) suffix /\
                 1 <= total v <= c.
Proof.
  induction r as [|r IH]; intros cur v; simpl.
  - destruct ((1 <=? total cur) && (total cur <=? c)) eqn:E.
    + split.
      * intros [<-|[]]. exists []. rewrite app_nil_r.
        apply andb_true_iff in E. repeat split; auto; lia.
      * intros (s & -> & Hl & _ & _). destruct s; [|discriminate].
        rewrite app_nil_r. now left.
    + split; [intros []|].
      intros (s & -> & Hl & _ & Ht). destruct s; [|discriminate].
      rewrite app_nil_r in Ht.
      apply andb_false_iff in E. destruct E as [E|E]; lia.
  - rewrite in_flat_map. split.
    + intros (i & Hi & Hv). apply IH in Hv.
      destruct Hv as (s & -> & Hl & Hf & Ht).
      exists (i :: s). rewrite <- app_assoc in *. simpl in *.
      repeat split; auto; try lia.
      constructor; auto. now apply In_upto.
    + intros (s & -> & Hl & Hf & Ht). destruct s as [|i s]; [discriminate|].
      exists i. inversion Hf; subst. split; [now apply In_upto|].
      apply IH. exists s. rewrite <- app_assoc. simpl.
      repeat split; auto; simpl in Hl; lia.
Qed.

Lemma In_generateAllowedMoves n c v :
  In v (generateAllowedMoves n c) <->
  length v = n /\ Forall (fun x => 0 <= x <= c) v /\ 1 <= total v <= c.
Proof.
  unfold generateAllowedMoves. rewrite In_helper. simpl. split.
  - intros (s & -> & H). tauto.
  - intros H. exists v. tauto.
Qed.

Lemma lex_lt_app cur a b : lex_lt a b -> lex_lt (cur ++ a) (cur ++ b).
Proof. induction cur; simpl; auto using lex_tail. Qed.

Lemma lex_lt_irrefl a : ~ lex_lt a a.
Proof.
  induction a as [|x a IH]; intros H; inversion H; subst; [lia|auto].
Qed.

Lemma sorted_flat_map {A B} (R0 : A -> A -> Prop) (R : B -> B -> Prop)
    (f : A -> list B) (l : list A) :
  StronglySorted R0 l ->
  (forall a, In a l -> StronglySorted R (f a)) ->
  (forall a a' x y, R0 a a' -> In x (f a) -> In y (f a') -> R x y) ->
  StronglySorted R (flat_map f l).
Proof.
  intros Hs Hf Hc. induction Hs as [|a l Hs IH Ha]; simpl; [constructor|].
  assert (Hl : StronglySorted R (flat_map f l)).
  { apply IH. intros; apply Hf; now right. }
  assert (Hfa : StronglySorted R (f a)) by (apply Hf; now left).
  assert (Hx : forall x y, In x (f a) -> In y (flat_map f l) -> R x y).
  { intros x y Hx Hy. apply in_flat_map in Hy. destruct Hy as (a' & Ha' & Hy).
    rewrite Forall_forall in Ha. eauto. }
  clear - Hl Hfa Hx. induction Hfa as [|x xs Hxs IHx Hfx]; simpl; auto.
  constructor.
  - apply IHx. intros; apply Hx; simpl; auto.
  - apply Forall_forall. intros y Hy. apply in_app_or in Hy.
    destruct Hy as [Hy|Hy].
    + rewrite Forall_forall in Hfx. auto.
    + apply Hx; simpl; auto.
Qed.

Lemma sorted_upto c : StronglySorted Z.lt (upto c).
Proof.
  unfold upto. generalize (Z.to_nat (c + 1)) as k. generalize 0%nat as s.
  intros s k. revert s. induction k as [|k IH]; intros s; simpl; constructor.
  - apply IH.
  - apply Forall_forall. intros y Hy. apply in_map_iff in Hy.
    destruct Hy as (j & <- & Hj). apply in_seq in Hj. lia.
Qed.

Lemma sorted_helper c r : forall cur, StronglySorted lex_lt (helper c r cur).
Proof.
  induction r as [|r IH]; intros cur; simpl.
  - destruct (_ && _); repeat constructor.
  - apply sorted_flat_map with (R0 := Z.lt).
    + apply sorted_upto.
    + intros; apply IH.
    + intros i j x y Hij Hx Hy.
      apply In_helper in Hx. apply In_helper in Hy.
      destruct Hx as (sx & -> & _). destruct Hy as (sy & -> & _).
      rewrite <- !app_assoc. apply lex_lt_app. simpl. now constructor.
Qed.

Lemma sorted_NoDup {A} (R : A -> A -> Prop) l :
  (forall a, ~ R a a) -> StronglySorted R l -> NoDup l.
Proof.
  intros Hirr Hs. induction Hs as [|a l Hs IH Ha]; constructor; auto.
  intros Hin. rewrite Forall_forall in Ha. exact (Hirr a (Ha a Hin)).
Qed.

(** ** Answers of goals *)

Lemma holds_flat_map {A B} (f : A -> list B) (l : list A) :
  holds (flat_map f l) <-> exists x, In x l /\ holds (f x).
Proof.
  unfold holds. induction l as [|a l IH]; simpl.
  - split; [congruence|intros (x & [] & _)].
  - split.
    + intros H. destruct (f a) eqn:E.
      * simpl in H. apply IH in H. destruct H as (x & Hx & Hf). eauto.
      * exists a. split; auto. rewrite E. discriminate.
    + intros (x & [->|Hx] & Hf) H; apply app_eq_nil in H; destruct H as [H1 H2].
      * auto.
      * apply IH in H2; eauto.
Qed.

Lemma holds_of_option {A B} (o : option A) (f : A -> list B) :
  holds (flat_map f (of_option o)) <-> exists a, o = Some a /\ holds (f a).
Proof.
  rewrite holds_flat_map. destruct o; simpl; split.
  - intros (x & [<-|[]] & H). eauto.
  - intros (x & [= <-] & H). eauto.
  - intros (x & [] & _).
  - intros (x & [=] & _).
Qed.

Lemma holds_disj {B} (a b : bool) (k : list B) :
  holds (flat_map (fun _ => k) (guard a ++ guard b)) <->
  (a = true \/ b = true) /\ holds k.
Proof.
  rewrite holds_flat_map. split.
  - intros (x & Hx & Hk). split; [|exact Hk].
    destruct a; [now left|]. destruct b; [now right|]. destruct Hx.
  - intros (Hab & Hk). exists tt. split; [|exact Hk].
    destruct a; [now left|]. destruct b; [now left|].
    destruct Hab; discriminate.
Qed.

Lemma holds_unit : holds [tt].
Proof. discriminate. Qed.

Lemma safe_goals_holds Init Counts indices :
  holds (safe_goals Init Counts indices) <->
  Forall (rel_ok Init Counts) indices.
Proof.
  induction indices as [|[pi qi] rest IH]; simpl.
  - split; [constructor|intros _; apply holds_unit].
  - rewrite holds_of_option. split.
    + intros (pc & Hpc & H). apply holds_of_option in H.
      destruct H as (qc & Hqc & H). apply holds_disj in H.
      destruct H as (Hd1 & H). apply holds_of_option in H.
      destruct H as (ip & Hip & H). apply holds_of_option in H.
      destruct H as (iq & Hiq & H). apply holds_disj in H.
      destruct H as (Hd2 & H). apply IH in H.
      constructor; auto. exists pc, qc, ip, iq. simpl.
      repeat split; auto; unfold not_outnumbered.
      * destruct Hd1 as [E|E]; [left|right]; lia.
      * destruct Hd2 as [E|E]; [left|right]; lia.
    + intros H. inversion H as [|? ? Hok Hrest]; subst.
      destruct Hok as (pc & qc & ip & iq & Hpc & Hqc & Hip & Hiq & Hd1 & Hd2).
      simpl in *. exists pc. split; auto. apply holds_of_option.
      exists qc. split; auto. apply holds_disj. split.
      { destruct Hd1; [left|right]; lia. }
      apply holds_of_option. exists ip. split; auto.
      apply holds_of_option. exists iq. split; auto.
      apply holds_disj. split.
      { destruct Hd2; [left|right]; lia. }
      now apply IH.
Qed.

Lemma safe_holds p Counts sd :
  holds (safe p (State Counts sd)) <->
  Forall (rel_ok (init_counts p) Counts) (safe_indices p).
Proof.
  unfold safe. destruct (safe_indices p) eqn:E.
  - split; [constructor|intros _; apply holds_unit].
  - apply safe_goals_holds.
Qed.

(** ** Lists, strings and indices *)

Lemma eqb_eq a b : Js.eqb a b = true <-> a = b.
Proof.
  revert b. induction a as [|x a IH]; intros [|y b]; simpl;
    try (split; congruence).
  rewrite andb_true_iff, N.eqb_eq, IH. split.
  - intros [-> ->]. reflexivity.
  - intros [= -> ->]. auto.
Qed.

Lemma list_eqb_eq a b : list_eqb a b = true <-> a = b.
Proof.
  revert b. induction a as [|x a IH]; intros [|y b]; simpl;
    try (split; congruence).
  rewrite andb_true_iff, Z.eqb_eq, IH. split.
  - intros [-> ->]. reflexivity.
  - intros [= -> ->]. auto.
Qed.

Lemma state_eqb_eq a b : state_eqb a b = true <-> a = b.
Proof.
  destruct a as [ca sa], b as [cb sb]. simpl.
  rewrite andb_true_iff, list_eqb_eq. split.
  - intros [-> H]. destruct sa, sb; simpl in H; congruence.
  - intros [= -> ->]. split; auto. destruct sb; reflexivity.
Qed.

Lemma nth0_nth l : forall i,
  0 <= i < Z.of_nat (length l) -> nth0 i l = Some (nth (Z.to_nat i) l 0).
Proof.
  induction l as [|x l IH]; intros i Hi; simpl in *; [lia|].
  destruct (Z.eqb_spec i 0) as [->|Hn]; [reflexivity|].
  destruct (Z.gtb_spec i 0); [|lia].
  rewrite IH by lia.
  replace (Z.to_nat i) with (S (Z.to_nat (i - 1))) by lia. reflexivity.
Qed.

Lemma indexOf_range names x :
  In x names -> 0 <= indexOf names x < Z.of_nat (length names).
Proof.
  induction names as [|y names IH]; simpl; [intros []|].
  intros H. destruct (Js.eqb y x) eqn:E.
  - lia.
  - destruct H as [->|H].
    + assert (Js.eqb x x = true) by now apply eqb_eq. congruence.
    + specialize (IH H). destruct (Z.ltb_spec (indexOf names x) 0); lia.
Qed.

(** ** The safety predicate *)

(** C4. For a state whose count vector has one entry per species, in a
    config whose relationships name species of the config, [safe/1] holds
    exactly when every relationship (predator, prey) satisfies "prey count
    is 0 or at least the predator count" on the counts of the state and on
    the complementary counts, initial minus counts.  With no relationship
    [safe/1] has exactly one proof for every state. *)
Theorem safe_predicate_spec (config : Config) (Counts : list Z) (sd : side) :
  length Counts = length (species config) ->
  (forall r, In r (relationships config) ->
             In (predator r) (speciesNames config) /\
             In (prey r) (speciesNames config)) ->
  let p := generatePrologCode config in
  let Init := map count (species config) in
  (holds (safe p (State Counts sd)) <->
   forall r, In r (relationships config) ->
     not_outnumbered (count_at config Counts (prey r))
                     (count_at config Counts (predator r)) /\
     not_outnumbered
       (count_at config Init (prey r) - count_at config Counts (prey r))
       (count_at config Init (predator r)
        - count_at config Counts (predator r)))
  /\ (forall sp c s, safe (generatePrologCode (mkConfig sp [] c)) s = [tt]).
Proof.
  intros Hlen Hrefs p Init. split; [|reflexivity].
  rewrite safe_holds. subst p. unfold generatePrologCode; simpl.
  rewrite Forall_map, Forall_forall.
  assert (Hn : length (speciesNames config) = length (species config))
    by (unfold speciesNames; apply length_map).
  assert (HI : length Init = length (species config))
    by (unfold Init; apply length_map).
  assert (Hok : forall r, In r (relationships config) ->
     (rel_ok (map count (species config)) Counts
        (indexOf (speciesNames config) (predator r),
         indexOf (speciesNames config) (prey r)) <->
      not_outnumbered (count_at config Counts (prey r))
                     (count_at config Counts (predator r)) /\
      not_outnumbered
       (count_at config Init (prey r) - count_at config Counts (prey r))
       (count_at config Init (predator r)
        - count_at config Counts (predator r)))).
  { intros r Hr. destruct (Hrefs r Hr) as [Hp Hq].
    apply indexOf_range in Hp, Hq. rewrite Hn in Hp, Hq.
    unfold rel_ok, count_at. simpl. fold Init.
    rewrite !(nth0_nth Counts), !(nth0_nth Init) by lia.
    split.
    - intros (a & b & c & d & [= <-] & [= <-] & [= <-] & [= <-] & H). exact H.
    - intros H. do 4 eexists. repeat split; try reflexivity; apply H. }
  split; intros H r Hr; apply (Hok r Hr); auto.
Qed.

Lemma safe_predicate_spec_witness :
  let config := mkConfig [mkSpecies (lit "a") 2; mkSpecies (lit "b") 2]
                  [mkRel (lit "b") (lit "a")] 2 in
  length [1; 1] = length (species config) /\
  holds (safe (generatePrologCode config) (State [1; 1] start)).
Proof.
  intros config.
  assert (Hl : length [1; 1] = length (species config)) by reflexivity.
  assert (Hr : forall r, In r (relationships config) ->
             In (predator r) (speciesNames config) /\
             In (prey r) (speciesNames config)).
  { intros r [<-|[]]. simpl. auto. }
  split; [exact Hl|].
  apply (proj1 (safe_predicate_spec config [1; 1] start Hl Hr)).
  intros r [<-|[]]. vm_compute. split; right; discriminate.
Defined.

(** ** Transitions *)

Lemma apply_move_subtract_spec Xs : forall Ys Zs,
  length Xs = length Ys ->
  (apply_move_subtract Xs Ys = Some Zs <->
   Zs = zip_with Z.sub Xs Ys /\ Forall (fun z => 0 <= z) Zs).
Proof.
  induction Xs as [|X Xs IH]; intros [|Y Ys] Zs Hl; try discriminate; simpl.
  - split; [intros [= <-]; auto|intros [-> _]; reflexivity].
  - injection Hl as Hl. destruct (Z.geb_spec (X - Y) 0) as [Hge|Hlt].
    + destruct (apply_move_subtract Xs Ys) as [r|] eqn:E; simpl.
      * apply (IH Ys r Hl) in E. destruct E as [-> Hf]. split.
        -- intros [= <-]. split; [reflexivity|constructor; auto; lia].
        -- intros [-> _]. reflexivity.
      * split; [discriminate|]. intros [-> Hf]. inversion Hf; subst.
        assert (Some (zip_with Z.sub Xs Ys) = None) as Habs; [|discriminate].
        rewrite <- E. symmetry. apply IH; auto.
    + split; [discriminate|]. intros [-> Hf]. inversion Hf; subst. lia.
Qed.

Lemma apply_move_add_spec Xs : forall Is Ys Zs,
  length Xs = length Is -> length Xs = length Ys ->
  (apply_move_add Xs Is Ys = Some Zs <->
   Zs = zip_with Z.add Xs Ys /\ Forall2 Z.le Zs Is).
Proof.
  induction Xs as [|X Xs IH]; intros [|i Is] [|Y Ys] Zs Hl1 Hl2;
    try discriminate; simpl.
  - split; [intros [= <-]; auto|intros [-> _]; reflexivity].
  - injection Hl1 as Hl1. injection Hl2 as Hl2.
    destruct (Z.leb_spec Y (i - X)) as [Hle|Hgt].
    + destruct (apply_move_add Xs Is Ys) as [r|] eqn:E; simpl.
      * apply (IH Is Ys r Hl1 Hl2) in E. destruct E as [-> Hf]. split.
        -- intros [= <-]. split; [reflexivity|constructor; auto; lia].
        -- intros [-> _]. reflexivity.
      * split; [discriminate|]. intros [-> Hf]. inversion Hf; subst.
        assert (Some (zip_with Z.add Xs Ys) = None) as Habs; [|discriminate].
        rewrite <- E. symmetry. apply IH; auto.
    + split; [discriminate|]. intros [-> Hf]. inversion Hf; subst. lia.
Qed.

Lemma In_move_goal p mv m :
  In m (move_goal p mv) <-> In m (move p) /\ (mv = None \/ mv = Some m).
Proof.
  destruct mv as [m0|]; simpl.
  - rewrite filter_In, list_eqb_eq. split.
    + intros [H ->]. auto.
    + intros [H [H0|[= ->]]]; [discriminate|auto].
  - tauto.
Qed.

Lemma In_guarded {A B} (answers : list A) (x y : B) :
  In y (flat_map (fun _ => [x]) answers) <-> holds answers /\ y = x.
Proof.
  rewrite in_flat_map. unfold holds. split.
  - intros (a & Ha & [<-|[]]). split; auto. intros ->. destruct Ha.
  - intros [Hh ->]. destruct answers as [|a l]; [contradiction|].
    exists a. simpl. auto.
Qed.

Lemma In_of_option {A B} (o : option A) (f : A -> list B) y :
  In y (flat_map f (of_option o)) <-> exists a, o = Some a /\ In y (f a).
Proof.
  rewrite in_flat_map. destruct o; simpl; split.
  - intros (x & [<-|[]] & H). eauto.
  - intros (x & [= <-] & H). eauto.
  - intros (x & [] & _).
  - intros (x & [=] & _).
Qed.

Lemma In_transition_start p Counts mv m s' :
  In (m, s') (transition_with_move p (State Counts start) mv) <->
  In m (move_goal p mv) /\
  exists NewCounts, apply_move_subtract Counts m = Some NewCounts /\
                    holds (safe p (State NewCounts target)) /\
                    s' = State NewCounts target.
Proof.
  simpl. rewrite in_flat_map. split.
  - intros (m0 & Hm & H). apply In_of_option in H.
    destruct H as (New & HN & H). apply In_guarded in H.
    destruct H as [Hs [= -> ->]]. eauto.
  - intros (Hm & New & HN & Hs & ->). exists m. split; auto.
    apply In_of_option. exists New. split; auto. apply In_guarded. auto.
Qed.

Lemma In_transition_target p Counts mv m s' :
  In (m, s') (transition_with_move p (State Counts target) mv) <->
  In m (move_goal p mv) /\
  exists NewCounts, apply_move_add Counts (init_counts p) m = Some NewCounts /\
                    holds (safe p (State NewCounts start)) /\
                    s' = State NewCounts start.
Proof.
  simpl. rewrite in_flat_map. split.
  - intros (m0 & Hm & H). apply In_of_option in H.
    destruct H as (New & HN & H). apply In_guarded in H.
    destruct H as [Hs [= -> ->]]. eauto.
  - intros (Hm & New & HN & Hs & ->). exists m. split; auto.
    apply In_of_option. exists New. split; auto. apply In_guarded. auto.
Qed.

Lemma compiled_move_length config m :
  In m (move (generatePrologCode config)) -> length m = length (species config).
Proof.
  simpl. intros H. apply In_generateAllowedMoves in H. tauto.
Qed.

Lemma compiled_move_nonneg config m :
  In m (move (generatePrologCode config)) -> Forall (fun x => 0 <= x) m.
Proof.
  simpl. intros H. apply In_generateAllowedMoves in H.
  destruct H as (_ & H & _). eapply Forall_impl; [|exact H].
  simpl. intros; lia.
Qed.

(** C5. In a compiled program, from a state with one count per species,
    [transition_with_move] answers (Move, NewState) exactly in two cases,
    Move being a move fact (the given one when Move is bound): from side
    start the new counts are the counts minus the move, componentwise, none
    negative, the new side is target and the new state is safe; from side
    target the new counts are the counts plus the move, componentwise, none
    above the initial count of its species, the new side is start and the
    new state is safe. *)
Theorem transition_with_move_spec (config : Config) (Counts : list Z)
    (sd : side) (mv : option (list Z)) (m : list Z) (s' : state) :
  length Counts = length (species config) ->
  let p := generatePrologCode config in
  In (m, s') (transition_with_move p (State Counts sd) mv) <->
  (mv = None \/ mv = Some m) /\ In m (move p) /\ holds (safe p s') /\
  ((sd = start /\ s' = State (zip_with Z.sub Counts m) target /\
    Forall (fun z => 0 <= z) (zip_with Z.sub Counts m)) \/
   (sd = target /\ s' = State (zip_with Z.add Counts m) start /\
    Forall2 Z.le (zip_with Z.add Counts m) (init_counts p))).
Proof.
  intros Hlen p. destruct sd.
  - rewrite In_transition_start, In_move_goal. split.
    + intros ((Hm & Hmv) & New & HN & Hs & ->).
      pose proof (compiled_move_length _ _ Hm) as Hl.
      apply apply_move_subtract_spec in HN; [|congruence].
      destruct HN as [-> Hf]. repeat split; auto.
    + intros (Hmv & Hm & Hs & [(_ & -> & Hf)|([=] & _)]).
      pose proof (compiled_move_length _ _ Hm) as Hl.
      split; auto. eexists. split; [|split; [exact Hs|reflexivity]].
      apply apply_move_subtract_spec; [congruence|auto].
  - rewrite In_transition_target, In_move_goal.
    assert (HI : length (init_counts p) = length (species config))
      by (simpl; apply length_map).
    split.
    + intros ((Hm & Hmv) & New & HN & Hs & ->).
      pose proof (compiled_move_length _ _ Hm) as Hl.
      apply apply_move_add_spec in HN; [|congruence|congruence].
      destruct HN as [-> Hf]. repeat split; auto.
    + intros (Hmv & Hm & Hs & [([=] & _)|(_ & -> & Hf)]).
      pose proof (compiled_move_length _ _ Hm) as Hl.
      split; auto. eexists. split; [|split; [exact Hs|reflexivity]].
      apply apply_move_add_spec; [congruence|congruence|auto].
Qed.

Lemma transition_with_move_spec_witness :
  let config := mkConfig [mkSpecies (lit "a") 2; mkSpecies (lit "b") 2]
                  [mkRel (lit "b") (lit "a")] 2 in
  length [2; 2] = length (species config) /\
  (In ([0; 2], State [2; 0] target)
      (transition_with_move (generatePrologCode config) (State [2; 2] start)
         None)
   <-> True).
Proof.
  intros config.
  assert (Hl : length [2; 2] = length (species config)) by reflexivity.
  split; [exact Hl|]. split; [auto|intros _].
  apply (proj2 (transition_with_move_spec config [2; 2] start None [0; 2]
                  (State [2; 0] target) Hl)).
  split; [now left|]. split; [vm_compute; tauto|].
  split; [vm_compute; discriminate|].
  left. split; [reflexivity|]. split; [reflexivity|].
  simpl. repeat constructor; lia.
Defined.

(** ** Search: what an answer of [path] is *)

Lemma gather_In {A B} (f : A -> option (list B)) l r y :
  gather f l = Some r -> In y r ->
  exists a x, In a l /\ f a = Some x /\ In y x.
Proof.
  revert r. induction l as [|a l IH]; simpl; intros r.
  - intros [= <-] [].
  - destruct (f a) as [x|] eqn:Ea; [|discriminate].
    destruct (gather f l) as [g|] eqn:Eg; [|discriminate].
    intros [= <-] Hy. apply in_app_or in Hy. destruct Hy as [Hy|Hy].
    + exists a, x. auto.
    + destruct (IH g eq_refl Hy) as (a' & x' & Ha & Hf & Hx).
      exists a', x'. auto.
Qed.

Lemma gather_incl {A B} (f : A -> option (list B)) l r a x :
  gather f l = Some r -> In a l -> f a = Some x -> incl x r.
Proof.
  revert r. induction l as [|b l IH]; simpl; intros r Hg [].
  - subst b. intros Hf. rewrite Hf in Hg.
    destruct (gather f l); [|discriminate]. injection Hg as <-.
    apply incl_appl, incl_refl.
  - intros Hf. destruct (f b); [|discriminate].
    destruct (gather f l) as [g|]; [|discriminate]. injection Hg as <-.
    apply incl_appr. eapply IH; eauto.
Qed.

Lemma gather_total {A B} (f : A -> option (list B)) l :
  (forall a, In a l -> f a <> None) -> gather f l <> None.
Proof.
  induction l as [|a l IH]; simpl; intros H; [discriminate|].
  destruct (f a) eqn:E; [|exfalso; eapply H; eauto].
  destruct (gather f l) eqn:G; [discriminate|].
  exfalso. apply IH; auto.
Qed.

Lemma not_member_spec X l : not_member X l = true <-> ~ In X l.
Proof.
  unfold not_member. rewrite forallb_forall. split.
  - intros H Hin. specialize (H X Hin).
    assert (state_eqb X X = true) by now apply state_eqb_eq.
    rewrite H0 in H. discriminate.
  - intros H y Hy. destruct (state_eqb X y) eqn:E; auto.
    apply state_eqb_eq in E. subst. contradiction.
Qed.

Lemma path_sound fuel p : forall s Visited sols sol,
  path fuel p s Visited = Some sols -> In sol sols ->
  chain p s sol /\ NoDup (map mt_new sol) /\
  (forall x, In x (map mt_new sol) -> ~ In x Visited).
Proof.
  induction fuel as [|fuel IH]; intros s V sols sol; simpl; [discriminate|].
  destruct (gather _ _) as [g|] eqn:G; [|discriminate]. simpl.
  intros [= <-] Hin. apply in_app_or in Hin. destruct Hin as [Hin|Hin].
  - destruct (state_eqb s (final_state p)) eqn:E; [|destruct Hin].
    destruct Hin as [<-|[]]. apply state_eqb_eq in E.
    repeat split; [now constructor|constructor|intros x []].
  - destruct (gather_In _ _ _ _ G Hin) as ([m next] & x & Ha & Hf & Hx).
    destruct (not_member next V) eqn:Enm.
    + destruct (path fuel p next (next :: V)) as [r|] eqn:Ep; [|discriminate].
      injection Hf as <-. apply in_map_iff in Hx.
      destruct Hx as (sol' & <- & Hsol').
      destruct (IH _ _ _ _ Ep Hsol') as (Hc & Hnd & Hv).
      apply not_member_spec in Enm. simpl. repeat split.
      * now constructor.
      * constructor; auto. intros H. apply (Hv _ H). now left.
      * intros y [<-|Hy]; auto. intros HV. apply (Hv _ Hy). now right.
    + injection Hf as <-. destruct Hx.
Qed.

Lemma path_mono fuel p : forall s Visited sols,
  path fuel p s Visited = Some sols -> path (S fuel) p s Visited = Some sols.
Proof.
  induction fuel as [|fuel IH]; intros s V sols; [discriminate|].
  intros H. change (path (S fuel) p s V) with
    (option_map
        (app (if state_eqb s (final_state p) then [[]] else []))
        (gather
           (fun '(Move, NextState) =>
              if not_member NextState V
              then option_map (map (cons (MoveTerm Move s NextState)))
                     (path fuel p NextState (NextState :: V))
              else Some [])
           (transition_with_move p s None))) in H.
  change (path (S (S fuel)) p s V) with
    (option_map
        (app (if state_eqb s (final_state p) then [[]] else []))
        (gather
           (fun '(Move, NextState) =>
              if not_member NextState V
              then option_map (map (cons (MoveTerm Move s NextState)))
                     (path (S fuel) p NextState (NextState :: V))
              else Some [])
           (transition_with_move p s None))).
  destruct (gather _ _) as [g|] eqn:G in H; [|discriminate].
  assert (G' : gather
           (fun '(Move, NextState) =>
              if not_member NextState V
              then option_map (map (cons (MoveTerm Move s NextState)))
                     (path (S fuel) p NextState (NextState :: V))
              else Some [])
           (transition_with_move p s None) = Some g).
  { clear H. revert g G.
    induction (transition_with_move p s None) as [|[m nx] l IHl];
      intros g; [auto|]. cbn [gather].
    destruct (not_member nx V).
    - destruct (path fuel p nx (nx :: V)) as [r|] eqn:Ep; [|discriminate].
      rewrite (IH _ _ _ Ep). cbn [option_map].
      destruct (gather _ l) as [gl|] eqn:Gl; [|discriminate].
      rewrite (IHl gl eq_refl). auto.
    - destruct (gather _ l) as [gl|] eqn:Gl; [|discriminate].
      rewrite (IHl gl eq_refl). auto. }
  rewrite G'. exact H.
Qed.

Lemma path_mono_le fuel fuel' p s Visited sols :
  (fuel <= fuel')%nat ->
  path fuel p s Visited = Some sols -> path fuel' p s Visited = Some sols.
Proof.
  induction 1 as [|k L IH]; auto. intros Hp. apply path_mono. auto.
Qed.

Lemma path_agree fuel fuel' p s Visited sols sols' :
  path fuel p s Visited = Some sols -> path fuel' p s Visited = Some sols' ->
  sols = sols'.
Proof.
  intros H H'. destruct (Nat.le_ge_cases fuel fuel') as [L|L].
  - apply (path_mono_le _ _ _ _ _ _ L) in H. congruence.
  - apply (path_mono_le _ _ _ _ _ _ L) in H'. congruence.
Qed.

(** ** Decode failures at the verify boundary *)

Lemma decode_failure_counterexample :
  let config :=
    mkConfig [mkSpecies (lit "cats") 2; mkSpecies (lit "dogs") 1] [] 3 in
  let line := lit "2 cats cross up -> down" in
  parseSolutionLines config [line] = Throw (InvalidDirection line) /\
  checkUserSolution (generatePrologCode config) config [line]
    = Throw (InvalidDirection line) /\
  checkUserSolution (generatePrologCode config) config [line] <> Ok false.
Proof.
  intros config line. split; [reflexivity|]. split; [reflexivity|].
  vm_compute. discriminate.
Qed.

(** C1 (as the code has it). When decoding the candidate lines fails,
    [checkUserSolution] does not return [false]: it throws the decoding
    error, whatever the program.  It is the caller that catches the
    exception and records the verdict [false]. *)
Theorem decode_failure_is_thrown (prologProgram : program) (config : Config)
    (solutionLines : list jsstring) (e : error) :
  parseSolutionLines config solutionLines = Throw e ->
  checkUserSolution prologProgram config solutionLines = Throw e /\
  solutionIsValid prologProgram config solutionLines = false.
Proof.
  intros H. unfold solutionIsValid, checkUserSolution. rewrite H. simpl. auto.
Qed.

Lemma decode_failure_is_thrown_witness :
  let config :=
    mkConfig [mkSpecies (lit "cats") 2; mkSpecies (lit "dogs") 1] [] 3 in
  let lines := [lit "2 cats, 1 dogs cross left -> right";
                lit "1 birds cross right -> left"] in
  parseSolutionLines config lines
    = Throw (UnknownSpecies (lit "birds")
               (lit "1 birds cross right -> left")) /\
  solutionIsValid (generatePrologCode config) config lines = false.
Proof.
  intros config lines.
  assert (H : parseSolutionLines config lines
    = Throw (UnknownSpecies (lit "birds")
               (lit "1 birds cross right -> left")))
    by reflexivity.
  split; [exact H|].
  exact (proj2 (decode_failure_is_thrown (generatePrologCode config) config
                  lines _ H)).
Defined.

(** ** Termination of the search *)

Lemma In_box Init : forall v,
  In v (box Init) <-> Forall2 (fun x i => 0 <= x <= i) v Init.
Proof.
  induction Init as [|i rest IH]; intros v; simpl.
  - split.
    + intros [<-|[]]. constructor.
    + intros H. inversion H. now left.
  - rewrite in_flat_map. split.
    + intros (x & Hx & Hv). apply in_map_iff in Hv.
      destruct Hv as (w & <- & Hw). constructor.
      * now apply In_upto.
      * now apply IH.
    + intros H. inversion H as [|x ? w ? Hx Hw]; subst.
      exists x. split; [now apply In_upto|].
      apply in_map. now apply IH.
Qed.

Lemma subtract_in_box Xs : forall Ys Init Zs,
  apply_move_subtract Xs Ys = Some Zs ->
  Forall (fun y => 0 <= y) Ys ->
  Forall2 Z.le Xs Init ->
  Forall2 (fun x i => 0 <= x <= i) Zs Init.
Proof.
  induction Xs as [|X Xs IH]; intros [|Y Ys] Init Zs; simpl; try discriminate.
  - intros [= <-] _ H. inversion H. constructor.
  - destruct (Z.geb_spec (X - Y) 0) as [Hge|]; [|discriminate].
    destruct (apply_move_subtract Xs Ys) as [r|] eqn:E; [|discriminate].
    intros [= <-] HY HX. inversion HY; subst. inversion HX; subst.
    constructor; [lia|]. eapply IH; eauto.
Qed.

Lemma add_in_box Xs : forall Init Ys Zs,
  apply_move_add Xs Init Ys = Some Zs ->
  Forall (fun y => 0 <= y) Ys ->
  Forall (fun x => 0 <= x) Xs ->
  Forall2 (fun x i => 0 <= x <= i) Zs Init.
Proof.
  induction Xs as [|X Xs IH]; intros [|i Init] [|Y Ys] Zs; simpl;
    try discriminate.
  - intros [= <-] _ _. constructor.
  - destruct (Z.leb_spec Y (i - X)) as [Hle|]; [|discriminate].
    destruct (apply_move_add Xs Init Ys) as [r|] eqn:E; [|discriminate].
    intros [= <-] HY HX. inversion HY; subst. inversion HX; subst.
    constructor; [lia|]. eapply IH; eauto.
Qed.

Lemma Forall2_le_refl l : Forall2 Z.le l l.
Proof. induction l; constructor; auto; lia. Qed.

Section Termination.

Variable p : program.
Hypothesis moves_nonneg : forall m, In m (move p) -> Forall (fun y => 0 <= y) m.
Hypothesis initial_shape : initial_state p = State (init_counts p) start.

Lemma state_space_closed s m s' :
  In s (state_space p) ->
  In (m, s') (transition_with_move p s None) ->
  In s' (state_space p).
Proof.
  intros Hs Ht. unfold state_space in *. right. apply in_or_app.
  assert (Hstart : forall c, Forall2 Z.le c (init_counts p) ->
            In (m, s') (transition_with_move p (State c start) None) ->
            In s' (map (fun c => State c target) (box (init_counts p)))).
  { intros c Hc H. apply In_transition_start in H.
    destruct H as (Hm & New & HN & _ & ->). apply In_move_goal in Hm.
    apply in_map_iff. exists New. split; [reflexivity|].
    apply In_box. eapply subtract_in_box; eauto.
    apply moves_nonneg. tauto. }
  destruct Hs as [Hs|Hs].
  - right. subst s. rewrite initial_shape in Ht.
    apply (Hstart _ (Forall2_le_refl _) Ht).
  - apply in_app_or in Hs. destruct Hs as [Hs|Hs];
      apply in_map_iff in Hs; destruct Hs as (c & <- & Hc);
      apply In_box in Hc.
    + right. apply (Hstart c); auto.
      eapply Forall2_impl; [|exact Hc]. simpl. intros; lia.
    + left. apply In_transition_target in Ht.
      destruct Ht as (Hm & New & HN & _ & ->). apply In_move_goal in Hm.
      apply in_map_iff. exists New. split; [reflexivity|].
      apply In_box. eapply add_in_box; eauto.
      * apply moves_nonneg. tauto.
      * clear - Hc. induction Hc; constructor; auto; lia.
Qed.

Lemma path_terminates fuel : forall s Visited,
  NoDup Visited -> incl Visited (state_space p) -> In s (state_space p) ->
  (length (state_space p) < fuel + length Visited)%nat ->
  path fuel p s Visited <> None.
Proof.
  induction fuel as [|fuel IH]; intros s V Hnd Hincl Hs Hlen.
  - pose proof (NoDup_incl_length Hnd Hincl). lia.
  - simpl. destruct (gather _ _) eqn:G; [discriminate|].
    exfalso. revert G. apply gather_total. intros [m next] Ha.
    destruct (not_member next V) eqn:E; [|discriminate].
    apply not_member_spec in E.
    assert (Hn : In next (state_space p))
      by (eapply state_space_closed; eauto).
    specialize (IH next (next :: V)).
    destruct (path fuel p next (next :: V)); [discriminate|].
    exfalso. apply IH; auto.
    + now constructor.
    + intros x [<-|Hx]; auto.
    + change (length (next :: V)) with (S (length V)). lia.
Qed.

Lemma solve_solution_terminates :
  exists fuel sols, solve_solution fuel p = Some sols.
Proof.
  exists (length (state_space p)).
  unfold solve_solution.
  destruct (path _ p (initial_state p) [initial_state p]) as [sols|] eqn:E;
    [eauto|].
  exfalso. revert E. apply path_terminates.
  - constructor; [intros []|constructor].
  - intros x [<-|[]]. now left.
  - now left.
  - change (length [initial_state p]) with 1%nat. lia.
Qed.

End Termination.

Lemma compiled_terminates config :
  exists fuel sols, solve_solution fuel (generatePrologCode config) = Some sols.
Proof.
  apply solve_solution_terminates.
  - apply compiled_move_nonneg.
  - reflexivity.
Qed.

(** ** Rendering solutions *)

Lemma segments_of_ok amounts : forall species,
  (length amounts <= length species)%nat ->
  exists segs, segments_of amounts species = Ok segs.
Proof.
  induction amounts as [|c amounts IH]; intros species Hl; simpl.
  - eauto.
  - destruct species as [|sp species]; simpl in Hl; [lia|].
    destruct (IH species) as (segs & E); [lia|].
    destruct (c >? 0); simpl; rewrite E; simpl; eauto.
Qed.

Lemma moveToSentence_ok t species :
  (length (mt_move t) <= length species)%nat ->
  exists line, moveToSentence t species = Ok line.
Proof.
  intros H. unfold moveToSentence.
  destruct (segments_of_ok _ _ H) as (segs & ->). simpl. eauto.
Qed.

Lemma solutionToHumanReadableList_ok sol species :
  Forall (fun t => (length (mt_move t) <= length species)%nat) sol ->
  exists lines, solutionToHumanReadableList sol species = Ok lines.
Proof.
  induction 1 as [|t sol Ht Hsol (lines & IH)]; simpl; [eauto|].
  destruct (moveToSentence_ok _ _ Ht) as (line & ->). simpl.
  rewrite IH. simpl. eauto.
Qed.

Lemma rmap_ok {A B} (f : A -> result B) l :
  (forall a, In a l -> exists b, f a = Ok b) -> exists r, rmap f l = Ok r.
Proof.
  induction l as [|a l IH]; simpl; intros H; [eauto|].
  destruct (H a) as (b & ->); auto. simpl.
  destruct IH as (r & ->); auto. simpl. eauto.
Qed.

Lemma rmap_In {A B} (f : A -> result B) l r a :
  rmap f l = Ok r -> In a l -> exists b, f a = Ok b /\ In b r.
Proof.
  revert r. induction l as [|x l IH]; simpl; intros r H []; subst.
  - destruct (f a) as [b|]; [|discriminate]. simpl in H.
    destruct (rmap f l); [|discriminate]. injection H as <-.
    exists b. simpl. auto.
  - destruct (f x) as [b|]; [|discriminate]. simpl in H.
    destruct (rmap f l) as [r'|]; [|discriminate]. injection H as <-.
    destruct (IH r' eq_refl H0) as (b' & Hb & Hin). exists b'. simpl. auto.
Qed.

Lemma chain_moves p s sol :
  chain p s sol -> Forall (fun t => In (mt_move t) (move p)) sol.
Proof.
  induction 1 as [|s m s' rest Ht Hc IH]; constructor; auto.
  simpl. destruct s as [c [|]].
  - apply In_transition_start in Ht. destruct Ht as [Hm _].
    apply In_move_goal in Hm. tauto.
  - apply In_transition_target in Ht. destruct Ht as [Hm _].
    apply In_move_goal in Hm. tauto.
Qed.

Lemma solveProblem_renders fuel config sols :
  solve_solution fuel (generatePrologCode config) = Some sols ->
  exists texts, solveProblem fuel config = Some (Ok texts).
Proof.
  intros H. unfold solveProblem. rewrite H. simpl.
  destruct (rmap_ok
    (fun solutionTerm =>
       solutionToHumanReadableList solutionTerm (species config))
    sols) as (texts & ->); [|eauto].
  intros sol Hsol. apply solutionToHumanReadableList_ok.
  destruct (path_sound _ _ _ _ _ _ H Hsol) as (Hc & _).
  apply chain_moves in Hc. eapply Forall_impl; [|exact Hc].
  intros t Ht. simpl in Ht. apply compiled_move_length in Ht. lia.
Qed.

(** ** One-step solutions *)

Lemma gather_each {A B} (f : A -> option (list B)) l r a :
  gather f l = Some r -> In a l -> exists x, f a = Some x /\ incl x r.
Proof.
  intros Hg Ha. destruct (f a) as [x|] eqn:E.
  - exists x. split; auto. eapply gather_incl; eauto.
  - exfalso. revert r Hg. induction l as [|b l IH]; [destruct Ha|].
    intros r. simpl. destruct Ha as [->|Ha].
    + rewrite E. discriminate.
    + destruct (f b); [|discriminate].
      destruct (gather f l); [|discriminate]. intros _. eapply IH; eauto.
Qed.

Lemma one_step_found fuel p m sols :
  solve_solution fuel p = Some sols ->
  In (m, final_state p) (transition_with_move p (initial_state p) None) ->
  initial_state p <> final_state p ->
  In [MoveTerm m (initial_state p) (final_state p)] sols.
Proof.
  unfold solve_solution. destruct fuel as [|fuel]; [discriminate|]. simpl.
  destruct (gather _ _) as [g|] eqn:G; [|discriminate]. simpl.
  intros [= <-] Ht Hne. apply in_or_app. right.
  destruct (gather_each _ _ _ _ G Ht) as (x & Hx & Hincl).
  apply Hincl. clear Hincl G. simpl in Hx.
  assert (E : state_eqb (final_state p) (initial_state p) = false).
  { destruct (state_eqb _ _) eqn:E; auto. apply state_eqb_eq in E.
    congruence. }
  rewrite E in Hx. simpl in Hx.
  destruct fuel as [|fuel]; [discriminate|]. simpl in Hx.
  assert (E' : state_eqb (final_state p) (final_state p) = true)
    by now apply state_eqb_eq.
  rewrite E' in Hx.
  destruct (gather _ _) as [g'|]; [|discriminate]. simpl in Hx.
  injection Hx as <-. simpl. now left.
Qed.

Lemma apply_move_subtract_self l :
  apply_move_subtract l l = Some (repeat 0 (length l)).
Proof.
  induction l as [|x l IH]; simpl; auto.
  rewrite Z.sub_diag. simpl. rewrite IH. reflexivity.
Qed.

Lemma entry_le_total l :
  Forall (fun x => 0 <= x) l ->
  0 <= total l /\ Forall (fun x => x <= total l) l.
Proof.
  induction 1 as [|x l Hx Hl [IH0 IH]].
  - split; [unfold total; simpl; lia|constructor].
  - rewrite total_cons. split; [lia|]. constructor; [lia|].
    eapply Forall_impl; [|exact IH]. simpl. intros; lia.
Qed.

Lemma initial_not_final config :
  initial_state (generatePrologCode config)
  <> final_state (generatePrologCode config).
Proof. simpl. discriminate. Qed.

Lemma no_population_counterexample :
  let config := mkConfig [mkSpecies (lit "a") 0] [] 1 in
  relationships config = [] /\
  total (map count (species config)) <= starshipCapacity config /\
  solveProblem 2 config = Some (Ok []) /\
  forall fuel sols,
    solve_solution fuel (generatePrologCode config) = Some sols -> sols = [].
Proof.
  intros config. split; [reflexivity|]. split; [vm_compute; discriminate|].
  split; [reflexivity|]. intros fuel sols H.
  assert (H2 : solve_solution 2 (generatePrologCode config) = Some [])
    by reflexivity.
  exact (path_agree _ _ _ _ _ _ _ H H2).
Qed.

(** C8 (as the code has it). For a config with no relationship, counts
    that are not negative and a total population of at least 1 and at most
    the capacity, the search finishes and one of its answers is the single
    step that moves every individual from start to target; [solveProblem]
    returns it, rendered as one line. *)
Theorem everyone_at_once (config : Config) :
  relationships config = [] ->
  Forall (fun sp => 0 <= count sp) (species config) ->
  1 <= total (map count (species config)) <= starshipCapacity config ->
  let p := generatePrologCode config in
  let everyone :=
    MoveTerm (map count (species config)) (initial_state p) (final_state p) in
  exists fuel sols texts line,
    solve_solution fuel p = Some sols /\ In [everyone] sols /\
    solveProblem fuel config = Some (Ok texts) /\
    moveToSentence everyone (species config) = Ok line /\
    In [line] texts.
Proof.
  intros Hrel Hnn Htot p everyone. subst p.
  set (p := generatePrologCode config) in *.
  destruct (compiled_terminates config) as (fuel & sols & Hs).
  destruct (solveProblem_renders _ _ _ Hs) as (texts & Htexts).
  assert (Hin : In [everyone] sols).
  { apply (one_step_found fuel p _ sols Hs); [|apply initial_not_final].
    change (initial_state p) with (State (map count (species config)) start).
    apply In_transition_start. split.
    - apply In_move_goal. split; [|now left]. simpl.
      destruct (Z.eqb_spec (starshipCapacity config) 0) as [E|_]; [lia|].
      apply In_generateAllowedMoves. rewrite length_map.
      split; [reflexivity|]. split; [|lia].
      assert (Hc : Forall (fun x => 0 <= x) (map count (species config))).
      { rewrite Forall_map. exact Hnn. }
      destruct (entry_le_total _ Hc) as [_ Hle].
      rewrite Forall_forall in *. intros x Hx.
      specialize (Hc x Hx). specialize (Hle x Hx). simpl in *. lia.
    - exists (repeat 0 (length (species config))). split.
      + rewrite apply_move_subtract_self, length_map. reflexivity.
      + split; [|reflexivity]. unfold safe. simpl. rewrite Hrel. simpl.
        apply holds_unit. }
  exists fuel, sols, texts.
  fold p in Hs. unfold solveProblem in Htexts. fold p in Htexts.
  rewrite Hs in Htexts.
  simpl in Htexts. injection Htexts as Htexts.
  destruct (rmap_In _ _ _ _ Htexts Hin) as (lines & Hl & Hlin).
  simpl in Hl. destruct (moveToSentence everyone (species config)) as [line|];
    [|discriminate].
  simpl in Hl. injection Hl as <-. exists line.
  unfold solveProblem. fold p. rewrite Hs. simpl. rewrite Htexts. auto.
Qed.

Lemma everyone_at_once_witness :
  let config :=
    mkConfig [mkSpecies (lit "cats") 2; mkSpecies (lit "dogs") 1] [] 3 in
  (relationships config = [] /\
   Forall (fun sp => 0 <= count sp) (species config) /\
   1 <= total (map count (species config)) <= starshipCapacity config) /\
  exists fuel sols,
    solve_solution fuel (generatePrologCode config) = Some sols /\
    In [MoveTerm [2; 1] (State [2; 1] start) (State [0; 0] target)] sols.
Proof.
  intros config.
  assert (H1 : relationships config = []) by reflexivity.
  assert (H2 : Forall (fun sp => 0 <= count sp) (species config)).
  { repeat constructor; simpl; lia. }
  assert (H3 : 1 <= total (map count (species config))
               <= starshipCapacity config).
  { vm_compute. split; discriminate. }
  split; [auto|].
  destruct (everyone_at_once config H1 H2 H3)
    as (fuel & sols & texts & line & Hs & Hin & _).
  exists fuel, sols. split; [exact Hs|exact Hin].
Defined.

(** ** Verification does not track visited states *)

(** C9. There is a config and a candidate of three lines on which verify
    answers true although the run comes back to the initial state: each
    step is a legal, safe transition in its declared direction and the run
    ends at the final state.  An answer of the search predicate never
    repeats a state. *)
Theorem verification_allows_revisits :
  exists config lines steps trace,
    let p := generatePrologCode config in
    parseSolutionLines config lines = Ok steps /\
    legal_run p (initial_state p) steps trace /\
    last trace (initial_state p) = final_state p /\
    ~ NoDup (initial_state p :: trace) /\
    checkUserSolution p config lines = Ok true /\
    (forall fuel sols sol,
        solve_solution fuel p = Some sols -> In sol sols ->
        NoDup (initial_state p :: map mt_new sol)).
Proof.
  exists (mkConfig [mkSpecies (lit "a") 1] [] 1).
  exists [lit "1 a cross left -> right"; lit "1 a cross right -> left";
          lit "1 a cross left -> right"].
  exists [mkStep [1] leftToRight; mkStep [1] rightToLeft;
          mkStep [1] leftToRight].
  exists [State [0] target; State [1] start; State [0] target].
  intros p. split; [reflexivity|]. split.
  { repeat (econstructor; [vm_compute; tauto | simpl; tauto | ]). constructor. }
  split; [reflexivity|]. split.
  { intros H. inversion H as [|? ? Hn _]; subst. apply Hn.
    vm_compute. tauto. }
  split; [reflexivity|].
  intros fuel sols sol Hs Hin.
  destruct (path_sound _ _ _ _ _ _ Hs Hin) as (_ & Hnd & Hv).
  constructor; auto. intros H. apply (Hv _ H). now left.
Qed.

(** ** Safety of the initial and of the final state *)

Lemma nth0_repeat_zero k : forall i z, nth0 i (repeat 0 k) = Some z -> z = 0.
Proof.
  induction k as [|k IH]; intros i z; simpl; [discriminate|].
  destruct (i =? 0); [congruence|]. destruct (i >? 0); [apply IH|discriminate].
Qed.

Lemma nth0_repeat_defined l : forall i,
  (exists v, nth0 i l = Some v) <-> nth0 i (repeat 0 (length l)) = Some 0.
Proof.
  induction l as [|x l IH]; intros i; simpl.
  - split; [intros (v & [=])|discriminate].
  - destruct (i =? 0); [split; eauto|].
    destruct (i >? 0); [apply IH|]. split; [intros (v & [=])|discriminate].
Qed.

Lemma rel_ok_mirror Init ix :
  rel_ok Init Init ix <-> rel_ok Init (repeat 0 (length Init)) ix.
Proof.
  unfold rel_ok, not_outnumbered. split.
  - intros (pc & qc & ip & iq & Hpc & Hqc & Hip & Hiq & H1 & H2).
    assert (ip = pc) by congruence. assert (iq = qc) by congruence. subst.
    exists 0, 0, pc, qc. repeat split; auto.
    + apply nth0_repeat_defined. eauto.
    + apply nth0_repeat_defined. eauto.
    + rewrite !Z.sub_0_r. exact H1.
  - intros (pc & qc & ip & iq & Hpc & Hqc & Hip & Hiq & H1 & H2).
    apply nth0_repeat_zero in Hpc, Hqc. subst.
    rewrite !Z.sub_0_r in H2.
    exists ip, iq, ip, iq. repeat split; auto. left. lia.
Qed.

Lemma safe_initial_iff_final config :
  let p := generatePrologCode config in
  holds (safe p (initial_state p)) <-> holds (safe p (final_state p)).
Proof.
  intros p. unfold p at 2 4. simpl initial_state. simpl final_state.
  rewrite !safe_holds. simpl init_counts.
  rewrite <- (length_map count (species config)).
  rewrite !Forall_forall. split; intros H ix Hix.
  - apply (proj1 (rel_ok_mirror _ ix)). auto.
  - apply (proj2 (rel_ok_mirror _ ix)). auto.
Qed.

Lemma transition_target_safe p s mv m s' :
  In (m, s') (transition_with_move p s mv) -> holds (safe p s').
Proof.
  destruct s as [c [|]]; intros H.
  - apply In_transition_start in H.
    destruct H as (_ & New & _ & Hs & ->). auto.
  - apply In_transition_target in H.
    destruct H as (_ & New & _ & Hs & ->). auto.
Qed.

Lemma holds_guard b : holds (guard b) <-> b = true.
Proof.
  destruct b; simpl; split; intros H;
    try reflexivity; try discriminate; now elim H.
Qed.

Lemma check_solution_safe_final p steps : forall s,
  holds (check_solution p steps s) ->
  (steps = [] /\ s = final_state p) \/ holds (safe p (final_state p)).
Proof.
  induction steps as [|[m d] rest IH]; intros s H.
  - left. simpl in H. apply holds_guard, state_eqb_eq in H. auto.
  - right. simpl in H.
    assert (Hstep : exists t s0,
      In t (transition_with_move p s0 (Some m)) /\
      holds (check_solution p rest (snd t))).
    { destruct d, s as [c sd]; destruct sd; try (now elim H);
        apply holds_flat_map in H; destruct H as (t & Ht & Hk);
        exists t.
      - exists (State c start). split; [exact Ht|].
        destruct (snd t) as [c' [|]]; auto; now elim Hk.
      - exists (State c target). split; [exact Ht|].
        destruct (snd t) as [c' [|]]; auto; now elim Hk. }
    destruct Hstep as ([m' s'] & s0 & Ht & Hk). simpl in Hk.
    apply transition_target_safe in Ht.
    destruct (IH _ Hk) as [[_ ->]|Hf]; auto.
Qed.

Lemma chain_safe_final p s sol :
  chain p s sol ->
  (sol = [] /\ s = final_state p) \/ holds (safe p (final_state p)).
Proof.
  induction 1 as [s Hs|s m s' rest Ht Hc IH]; [auto|].
  right. apply transition_target_safe in Ht.
  destruct IH as [[_ ->]|Hf]; auto.
Qed.

Lemma unsafe_initial_never_verified config steps :
  let p := generatePrologCode config in
  ~ holds (safe p (initial_state p)) ->
  check_solution p steps (initial_state p) = [].
Proof.
  intros p Hu. destruct (check_solution p steps (initial_state p)) eqn:E; auto.
  exfalso. assert (H : holds (check_solution p steps (initial_state p))).
  { rewrite E. discriminate. }
  apply check_solution_safe_final in H. destruct H as [[_ H]|H].
  - exact (initial_not_final config H).
  - apply Hu. apply (safe_initial_iff_final config). exact H.
Qed.

Lemma unsafe_initial_never_solved config fuel sols :
  let p := generatePrologCode config in
  ~ holds (safe p (initial_state p)) ->
  solve_solution fuel p = Some sols -> sols = [].
Proof.
  intros p Hu Hs. destruct sols as [|sol sols]; auto. exfalso.
  destruct (path_sound _ _ _ _ _ _ Hs (or_introl eq_refl)) as (Hc & _).
  apply chain_safe_final in Hc. destruct Hc as [[_ H]|H].
  - exact (initial_not_final config H).
  - apply Hu. apply (safe_initial_iff_final config). exact H.
Qed.

Lemma unsafe_initial_never_true config lines :
  let p := generatePrologCode config in
  ~ holds (safe p (initial_state p)) ->
  checkUserSolution p config lines <> Ok true.
Proof.
  intros p Hu H. unfold checkUserSolution in H.
  destruct (parseSolutionLines config lines) as [steps|]; [|discriminate].
  cbn [rbind] in H. subst p.
  rewrite (unsafe_initial_never_verified config steps Hu) in H.
  discriminate.
Qed.

Lemma unsafe_initial_counterexample :
  ~ exists config,
      let p := generatePrologCode config in
      ~ holds (safe p (initial_state p)) /\
      ((exists lines, checkUserSolution p config lines = Ok true) \/
       (exists fuel sols sol,
           solve_solution fuel p = Some sols /\ In sol sols)).
Proof.
  intros (config & Hu & [(lines & H)|(fuel & sols & sol & Hs & Hin)]).
  - exact (unsafe_initial_never_true config lines Hu H).
  - rewrite (unsafe_initial_never_solved config fuel sols Hu Hs) in Hin.
    destruct Hin.
Qed.

(** C10 (as the code has it). Safety is asked only of the state a
    transition reaches: from the initial state, every move fact that can be
    subtracted and reaches a safe state is a transition, whether or not the
    initial state is safe.  But the final state is safe exactly when the
    initial state is, and the last step of a solution must reach it: for a
    config whose initial state violates safety, the final state violates it
    too, the search finishes with no solution, and verify never answers
    true. *)
Theorem unsafe_initial_state (config : Config) :
  let p := generatePrologCode config in
  ~ holds (safe p (initial_state p)) ->
  (forall m NewCounts,
      In m (move p) ->
      apply_move_subtract (init_counts p) m = Some NewCounts ->
      holds (safe p (State NewCounts target)) ->
      In (m, State NewCounts target)
         (transition_with_move p (initial_state p) None)) /\
  ~ holds (safe p (final_state p)) /\
  (exists fuel, solve_solution fuel p = Some []) /\
  (forall fuel sols, solve_solution fuel p = Some sols -> sols = []) /\
  (forall lines, checkUserSolution p config lines <> Ok true).
Proof.
  intros p Hu. split; [|split; [|split; [|split]]].
  - intros m New Hm HN Hs.
    change (initial_state p) with (State (init_counts p) start).
    apply In_transition_start. split; [apply In_move_goal; auto|eauto].
  - intros H. apply Hu. apply (safe_initial_iff_final config). exact H.
  - destruct (compiled_terminates config) as (fuel & sols & Hs).
    exists fuel. fold p in Hs.
    rewrite (unsafe_initial_never_solved config fuel sols Hu Hs) in Hs.
    exact Hs.
  - intros fuel sols. apply (unsafe_initial_never_solved config fuel sols Hu).
  - intros lines. apply (unsafe_initial_never_true config lines Hu).
Qed.

Lemma unsafe_initial_state_witness :
  let config := mkConfig [mkSpecies (lit "a") 1; mkSpecies (lit "b") 2]
                  [mkRel (lit "b") (lit "a")] 2 in
  let p := generatePrologCode config in
  ~ holds (safe p (initial_state p)) /\
  In ([0; 1], State [1; 1] target)
     (transition_with_move p (initial_state p) None) /\
  checkUserSolution p config
    [lit "1 b cross left -> right"; lit "1 a, 1 b cross left -> right"]
  <> Ok true.
Proof.
  intros config p.
  assert (Hu : ~ holds (safe p (initial_state p))).
  { intros H. apply H. reflexivity. }
  split; [exact Hu|].
  destruct (unsafe_initial_state config Hu) as (Hstep & _ & _ & _ & Hv).
  split.
  - apply Hstep; [vm_compute; tauto|reflexivity|vm_compute; discriminate].
  - apply Hv.
Defined.

(** ** The configuration generator *)

Lemma random_index_small rnd t n : (n <= 1)%nat -> random_index rnd t n = 0%nat.
Proof.
  intros H. destruct n as [|[|n]]; [reflexivity| |lia].
  unfold random_index. apply Nat.mod_1_r.
Qed.

Lemma resample_small fuel rnd n : forall t,
  (n <= 1)%nat -> resample fuel rnd t n 0 0 = None.
Proof.
  induction fuel as [|fuel IH]; intros t H; simpl; auto.
  rewrite random_index_small by auto. apply IH. auto.
Qed.

(** C7 (where the code departs from it). With at most one species and at
    least one relationship asked for, no amount of fuel lets the generator
    finish, whatever the random source: the two indices are always equal
    and the inner loop draws again for ever; the budget of 1000 attempts
    bounds the outer loop only. *)
Theorem generator_diverges (fuel : nat) (rnd : nat -> nat) (numSpecies : nat)
    (numIndividualsPerSpecies numRelationships starshipCapacity : Z) :
  (numSpecies <= 1)%nat -> 1 <= numRelationships ->
  generateRandomConfig fuel rnd numSpecies numIndividualsPerSpecies
    numRelationships starshipCapacity = None.
Proof.
  intros Hn Hr. unfold generateRandomConfig.
  destruct (species_loop rnd 0 numSpecies numIndividualsPerSpecies [])
    as [sp t].
  destruct fuel as [|fuel]; simpl.
  - destruct (Z.ltb_spec 0 numRelationships); [reflexivity|lia].
  - destruct (Z.ltb_spec 0 numRelationships); [|lia]. simpl.
    rewrite !random_index_small by auto.
    rewrite resample_small by auto. reflexivity.
Qed.

Lemma generator_diverges_witness :
  (1 <= 1)%nat /\ 1 <= 1 /\
  generateRandomConfig 5000 (fun t => t) 1 1 1 2 = None /\
  generateRandomConfig 5000 (fun t => t) 2 1 1 2
    = Some (mkConfig [mkSpecies (lit "abcde") 1; mkSpecies (lit "fghij") 1]
              [mkRel (lit "abcde") (lit "fghij")] 2).
Proof.
  assert (H1 : (1 <= 1)%nat) by lia.
  assert (H2 : 1 <= 1) by lia.
  split; [exact H1|]. split; [exact H2|]. split.
  - exact (generator_diverges 5000 (fun t => t) 1 1 1 2 H1 H2).
  - vm_compute. reflexivity.
Defined.

(** ** Decoding one line *)

Lemma take_drop_while f s : take_while f s ++ drop_while f s = s.
Proof.
  induction s as [|c s IH]; simpl; auto. destruct (f c); simpl; congruence.
Qed.

Lemma take_while_all f s : forallb f (take_while f s) = true.
Proof.
  induction s as [|c s IH]; simpl; auto.
  destruct (f c) eqn:E; simpl; auto. rewrite E. auto.
Qed.

Lemma take_while_app f a b :
  forallb f a = true -> (forall c t, b = c :: t -> f c = false) ->
  take_while f (a ++ b) = a /\ drop_while f (a ++ b) = b.
Proof.
  intros Ha Hb. induction a as [|x a IH]; simpl in *.
  - destruct b as [|c t]; simpl; auto. rewrite (Hb c t eq_refl). auto.
  - apply andb_true_iff in Ha. destruct Ha as [Hx Ha]. rewrite Hx.
    destruct (IH Ha) as [-> ->]. auto.
Qed.

Lemma space_not_digit c : is_space c = true -> is_digit c = false.
Proof.
  intros H. destruct (is_digit c) eqn:D; auto. exfalso.
  unfold is_digit in D. apply andb_true_iff in D. destruct D as [D1 D2].
  apply N.leb_le in D1, D2. unfold is_space in H. simpl in H.
  repeat (apply orb_true_iff in H; destruct H as [H|H]);
    try (apply N.eqb_eq in H; lia); try discriminate.
  apply andb_true_iff in H. destruct H as [H1 H2]. apply N.leb_le in H1. lia.
Qed.

Lemma match_segment_spec seg digits spName :
  match_segment seg = Some (digits, spName) <->
  exists ws, segment_shape seg digits ws spName.
Proof.
  unfold match_segment, segment_shape. split.
  - destruct (take_while is_digit seg) as [|d0 ds] eqn:Ed; [discriminate|].
    destruct (take_while is_space (drop_while is_digit seg)) as [|w0 ws] eqn:Ew;
      [discriminate|].
    destruct (drop_while is_space (drop_while is_digit seg)) as [|n0 nm] eqn:En;
      [discriminate|].
    destruct (forallb _ (n0 :: nm)) eqn:Ef; [|discriminate].
    intros [= <- <-]. exists (w0 :: ws).
    repeat split; try discriminate; auto.
    + rewrite <- Ew, <- En, take_drop_while, <- Ed, take_drop_while.
      reflexivity.
    + rewrite <- Ed. apply take_while_all.
    + rewrite <- Ew. apply take_while_all.
  - intros (ws & -> & Hd & Hfd & Hw & Hfw & Hn & Hfn).
    destruct (take_while_app is_digit digits (ws ++ spName) Hfd) as [E1 E2].
    { intros c t E. destruct ws as [|w ws']; [contradiction|].
      simpl in *. injection E as Ec _. subst c.
      apply andb_true_iff in Hfw. apply space_not_digit. tauto. }
    destruct (take_while_app is_space ws spName Hfw) as [E3 E4].
    { intros c t ->. simpl in Hfn. apply andb_true_iff in Hfn.
      destruct Hfn as [Hc _]. now apply negb_true_iff in Hc. }
    rewrite E1, E2, E3, E4.
    destruct digits; [contradiction|]. destruct ws; [contradiction|].
    destruct spName; [contradiction|]. rewrite Hfn. reflexivity.
Qed.

Lemma indexOf_In names x : 0 <= indexOf names x -> In x names.
Proof.
  induction names as [|y names IH]; simpl; [lia|].
  destruct (Js.eqb y x) eqn:E.
  - apply eqb_eq in E. auto.
  - destruct (Z.ltb_spec (indexOf names x) 0); [lia|]. auto.
Qed.

Lemma add_at_length l : forall idx v, length (add_at l idx v) = length l.
Proof.
  induction l as [|x l IH]; intros [|i] v; simpl; auto.
Qed.

Lemma add_at_nth l : forall idx v i,
  (idx < length l)%nat ->
  nth i (add_at l idx v) 0 = nth i l 0 + (if Nat.eqb i idx then v else 0).
Proof.
  induction l as [|x l IH]; intros idx v i H; simpl in H; [lia|].
  destruct idx as [|idx], i as [|i]; simpl; try lia.
  apply IH. lia.
Qed.

(** The segments accepted by the loop, with what the loop leaves in the
    array. *)
Lemma parseSegments_spec names line : forall raws acc a,
  parseSegments names line raws acc = Ok a <->
  exists segs,
    Forall2 (fun raw seg => match_segment (trim raw) = Some seg /\
                            In (snd seg) names) raws segs /\
    a = fold_left (fun acc seg =>
                     add_at acc (Z.to_nat (indexOf names (snd seg)))
                            (parseInt (fst seg))) segs acc.
Proof.
  induction raws as [|raw raws IH]; intros acc a; simpl.
  - split.
    + intros [= <-]. exists []. split; [constructor|reflexivity].
    + intros (segs & Hf & ->). inversion Hf. reflexivity.
  - destruct (match_segment (trim raw)) as [[d nm]|] eqn:Em.
    + destruct (Z.ltb_spec (indexOf names nm) 0) as [Hneg|Hpos].
      * split; [discriminate|]. intros (segs & Hf & _).
        inversion Hf as [|? seg ? ? [Hm Hin] Hrest]; subst.
        rewrite Em in Hm. injection Hm as <-. simpl in Hin.
        apply indexOf_range in Hin. lia.
      * rewrite IH. split.
        -- intros (segs & Hf & ->). exists ((d, nm) :: segs). split; auto.
           constructor; auto. split; auto. simpl. now apply indexOf_In.
        -- intros (segs & Hf & ->).
           inversion Hf as [|? seg ? segs' [Hm Hin] Hrest]; subst.
           rewrite Em in Hm. injection Hm as <-. exists segs'. auto.
    + split; [discriminate|]. intros (segs & Hf & _).
      inversion Hf as [|? seg ? ? [Hm Hin] Hrest]; subst. congruence.
Qed.

Lemma fold_add_at_length names segs : forall acc,
  length (fold_left (fun acc seg =>
                     add_at acc (Z.to_nat (indexOf names (snd seg)))
                            (parseInt (fst seg))) segs acc) = length acc.
Proof.
  induction segs as [|seg segs IH]; intros acc; simpl; auto.
  rewrite IH. apply add_at_length.
Qed.

Lemma fold_add_at_nth names segs : forall acc i,
  length acc = length names ->
  Forall (fun seg => In (snd seg) names) segs ->
  nth i (fold_left (fun acc seg =>
                     add_at acc (Z.to_nat (indexOf names (snd seg)))
                            (parseInt (fst seg))) segs acc) 0
  = nth i acc 0 + amount_for names segs i.
Proof.
  induction segs as [|seg segs IH]; intros acc i Hl Hin; simpl.
  - unfold amount_for. simpl. lia.
  - inversion Hin as [|? ? Hseg Hrest]; subst.
    apply indexOf_range in Hseg.
    rewrite IH; auto; [|rewrite add_at_length; auto].
    rewrite add_at_nth by lia.
    unfold amount_for. simpl.
    destruct (Nat.eqb_spec i (Z.to_nat (indexOf names (snd seg))));
      destruct (Z.eqb_spec (indexOf names (snd seg)) (Z.of_nat i)); lia.
Qed.

Lemma nth_repeat_zero n i : nth i (repeat 0 n) 0 = 0.
Proof.
  revert i. induction n as [|n IH]; intros [|i]; simpl; auto.
Qed.

Lemma trim_nil : trim [] = [].
Proof. reflexivity. Qed.

Lemma parseInt_nonneg ds : 0 <= parseInt ds.
Proof. unfold parseInt. lia. Qed.

Lemma add_at_nonneg l : forall idx v,
  0 <= v -> Forall (fun x => 0 <= x) l ->
  Forall (fun x => 0 <= x) (add_at l idx v).
Proof.
  induction l as [|x l IH]; intros [|i] v Hv H; inversion H; subst;
    cbn [add_at]; constructor; auto; lia.
Qed.

Lemma parseSegments_inv names line raws : forall acc a,
  parseSegments names line raws acc = Ok a ->
  length a = length acc /\
  (Forall (fun x => 0 <= x) acc -> Forall (fun x => 0 <= x) a).
Proof.
  induction raws as [|raw raws IH]; intros acc a; cbn [parseSegments].
  - intros [= <-]. auto.
  - destruct (match_segment (trim raw)) as [[d nm]|]; [|discriminate].
    destruct (indexOf names nm <? 0); [discriminate|].
    intros H. apply IH in H. destruct H as [Hl Hn].
    rewrite add_at_length in Hl. split; auto.
    intros Hacc. apply Hn. apply add_at_nonneg; auto. apply parseInt_nonneg.
Qed.

Lemma repeat_zero_nonneg n : Forall (fun x => 0 <= x) (repeat 0 n).
Proof. induction n; simpl; constructor; auto; lia. Qed.

Lemma parseLine_amounts names line st :
  parseLine names line = Ok st ->
  length (amounts st) = length names /\ Forall (fun x => 0 <= x) (amounts st).
Proof.
  unfold parseLine.
  destruct (split (lit " cross ") line) as [|l [|r more]]; try discriminate.
  destruct r; [discriminate|].
  destruct (Js.eqb _ _); [|destruct (Js.eqb _ _); [|discriminate]];
    destruct (parseSegments _ _ _ _) as [a|] eqn:E; try discriminate;
    cbn [rbind]; intros [= <-]; cbn [amounts];
    apply parseSegments_inv in E; destruct E as [Hl Hn];
    rewrite repeat_length in Hl; (split; [exact Hl|]);
    apply Hn, repeat_zero_nonneg.
Qed.

Lemma total_zeros n : total (repeat 0 n) = 0.
Proof.
  induction n as [|n IH]; [reflexivity|]. cbn [repeat].
  rewrite total_cons, IH. reflexivity.
Qed.

(** *** Numbers stay exact *)

Lemma match_segment_digits seg digits spName :
  match_segment seg = Some (digits, spName) ->
  digits = take_while is_digit seg.
Proof.
  unfold match_segment.
  destruct (take_while is_digit seg) as [|d0 ds]; [discriminate|].
  destruct (take_while is_space (drop_while is_digit seg)) as [|w0 ws];
    [discriminate|].
  destruct (drop_while is_space (drop_while is_digit seg)) as [|n0 nm];
    [discriminate|].
  destruct (forallb _ (n0 :: nm)); [|discriminate].
  intros [= <- _]. reflexivity.
Qed.

Lemma total_add_at l : forall idx v,
  (idx < length l)%nat -> total (add_at l idx v) = total l + v.
Proof.
  induction l as [|x l IH]; intros [|i] v H; cbn [length] in H; try lia;
    cbn [add_at]; rewrite !total_cons.
  - lia.
  - rewrite IH by lia. lia.
Qed.

(** The loop adds every written integer to one entry of the array. *)
Lemma parseSegments_total names line raws : forall acc a,
  length acc = length names ->
  parseSegments names line raws acc = Ok a ->
  total a
  = total acc
    + total (map (fun raw => parseInt (take_while is_digit (trim raw))) raws).
Proof.
  induction raws as [|raw raws IH]; intros acc a Hl; cbn [parseSegments map].
  - intros [= <-]. change (total []) with 0. lia.
  - destruct (match_segment (trim raw)) as [[d nm]|] eqn:Em; [|discriminate].
    destruct (Z.ltb_spec (indexOf names nm) 0) as [Hneg|Hpos]; [discriminate|].
    intros H. apply match_segment_digits in Em. subst d.
    apply IH in H; [|rewrite add_at_length; exact Hl].
    rewrite H, total_add_at, total_cons; [lia|].
    pose proof (indexOf_range names nm (indexOf_In _ _ Hpos)). lia.
Qed.

Lemma parseLine_total names line st :
  parseLine names line = Ok st ->
  total (amounts st) = total (written_amounts line).
Proof.
  unfold parseLine, written_amounts.
  destruct (split (lit " cross ") line) as [|l [|r more]]; try discriminate.
  destruct r; [discriminate|].
  destruct (Js.eqb _ _); [|destruct (Js.eqb _ _); [|discriminate]];
    destruct (parseSegments _ _ _ _) as [a|] eqn:E; try discriminate;
    cbn [rbind]; intros [= <-]; cbn [amounts];
    apply parseSegments_total in E; try apply repeat_length;
    rewrite E, total_zeros; lia.
Qed.

(** Within the exact range every decoded amount is a safe integer: the
    source has rounded neither a number nor a sum. *)
Lemma parseLine_exact names line st :
  in_exact_range line ->
  parseLine names line = Ok st ->
  Forall (fun x => 0 <= x <= MAX_SAFE_INTEGER) (amounts st).
Proof.
  unfold in_exact_range. intros Hrange H.
  pose proof (parseLine_total _ _ _ H) as Ht.
  destruct (parseLine_amounts _ _ _ H) as [_ Hn].
  destruct (entry_le_total _ Hn) as [_ Hle].
  rewrite Forall_forall in *. intros x Hx.
  specialize (Hn x Hx). specialize (Hle x Hx). cbn beta in Hle. lia.
Qed.

Lemma single_space_counterexample :
  let names := [lit "cats"; lit "dogs"] in
  parseLine names (lit "2  cats cross left -> right")
    = Ok (mkStep [2; 0] leftToRight) /\
  parseLine names [50; 9; 99; 97; 116; 115; 44; 10; 49; 160; 100; 111; 103; 115;
                   32; 99; 114; 111; 115; 115; 32; 114; 105; 103; 104; 116; 32;
                   45; 62; 32; 108; 101; 102; 116]%N
    = Ok (mkStep [2; 1] rightToLeft) /\
  match_segment (lit "2  cats") = Some (lit "2", lit "cats").
Proof.
  intros names. split; [reflexivity|]. split; reflexivity.
Qed.

(** C6 (as the code has it). Take a line whose written integers add up
    to at most 2^53 - 1, so that no number and no sum is rounded.  Decoding
    it splits it on the literal [" cross "] and reads the first two pieces.
    It succeeds exactly when the second piece, trimmed, is
    ["left -> right"] (direction start to target) or ["right -> left"]
    (target to start), and every comma separated segment of the first
    piece, trimmed, is a run of digits, a run of one or more white space
    characters and a name free of white space that is a species name of the
    config.  The amount of each species is then the sum of the integers of
    the segments that name it, and every decoded amount lies between 0 and
    2^53 - 1. *)
Theorem parseLine_spec (names : list jsstring) (line : jsstring) (st : Step) :
  in_exact_range line ->
  (parseLine names line = Ok st <->
   exists leftPart rightPart more segs,
     split (lit " cross ") line = leftPart :: rightPart :: more /\
     ((trim rightPart = lit "left -> right" /\
       step_direction st = leftToRight) \/
      (trim rightPart = lit "right -> left" /\
       step_direction st = rightToLeft)) /\
     Forall2 (fun raw seg =>
                (exists ws, segment_shape (trim raw) (fst seg) ws (snd seg)) /\
                In (snd seg) names)
             (split (lit ",") leftPart) segs /\
     length (amounts st) = length names /\
     forall i, (i < length names)%nat ->
               nth i (amounts st) 0 = amount_for names segs i) /\
  (parseLine names line = Ok st ->
   Forall (fun x => 0 <= x <= MAX_SAFE_INTEGER) (amounts st)).
Proof.
  intros Hrange.
  split; [|exact (parseLine_exact names line st Hrange)]. clear Hrange.
  assert (Hshape : forall raws segs,
    Forall2 (fun raw seg => match_segment (trim raw) = Some seg /\
                            In (snd seg) names) raws segs <->
    Forall2 (fun raw seg =>
               (exists ws, segment_shape (trim raw) (fst seg) ws (snd seg)) /\
               In (snd seg) names) raws segs).
  { intros raws segs.
    split; intros H; induction H as [|raw [d nm] ? ? [Hm Hin] ? IH];
      constructor; auto; split; auto; now apply match_segment_spec. }
  assert (Hparse : forall leftPart a,
    parseSegments names line (split (lit ",") leftPart)
      (repeat 0 (length names)) = Ok a <->
    exists segs,
      Forall2 (fun raw seg =>
               (exists ws, segment_shape (trim raw) (fst seg) ws (snd seg)) /\
               In (snd seg) names) (split (lit ",") leftPart) segs /\
      length a = length names /\
      forall i, (i < length names)%nat -> nth i a 0 = amount_for names segs i).
  { intros leftPart a. rewrite parseSegments_spec. split.
    - intros (segs & Hf & ->). exists segs. split; [now apply Hshape|].
      rewrite fold_add_at_length, repeat_length. split; auto.
      intros i _. rewrite fold_add_at_nth.
      + rewrite nth_repeat_zero. lia.
      + apply repeat_length.
      + clear - Hf. induction Hf as [|? ? ? ? [_ H]]; constructor; auto.
    - intros (segs & Hf & Hl & Hn). exists segs.
      apply Hshape in Hf. split; auto.
      apply nth_ext with (d := 0) (d' := 0).
      + rewrite fold_add_at_length, repeat_length. auto.
      + intros i Hi. rewrite Hl in Hi. rewrite Hn by auto.
        rewrite fold_add_at_nth.
        * rewrite nth_repeat_zero. lia.
        * apply repeat_length.
        * clear - Hf. induction Hf as [|? ? ? ? [_ H]]; constructor; auto. }
  unfold parseLine.
  destruct (split (lit " cross ") line) as [|leftPart [|rightPart more]] eqn:Es.
  - split; [discriminate|]. intros (? & ? & ? & ? & [=] & _).
  - split; [discriminate|]. intros (? & ? & ? & ? & [=] & _).
  - destruct rightPart as [|r0 rightPart].
    { split; [discriminate|].
      intros (l & r & m & segs & [= <- <- <-] & [[H _]|[H _]] & _);
        rewrite trim_nil in H; discriminate. }
    destruct (Js.eqb (trim (r0 :: rightPart)) (lit "left -> right")) eqn:E1.
    { apply eqb_eq in E1. split.
      - destruct (parseSegments _ _ _ _) as [a|] eqn:Ep; [|discriminate].
        simpl. intros [= <-]. apply Hparse in Ep.
        destruct Ep as (segs & Hf & Hl & Hn).
        exists leftPart, (r0 :: rightPart), more, segs. simpl. auto 6.
      - intros (l & r & m & segs & [= <- <- <-] & Hdir & Hf & Hl & Hn).
        destruct Hdir as [[_ Hd]|[Hr _]];
          [|rewrite Hr in E1; discriminate].
        assert (Hp : parseSegments names line (split (lit ",") leftPart)
                       (repeat 0 (length names)) = Ok (amounts st)).
        { apply Hparse. eauto. }
        rewrite Hp. simpl. destruct st as [a d]. simpl in *. congruence. }
    destruct (Js.eqb (trim (r0 :: rightPart)) (lit "right -> left")) eqn:E2.
    { apply eqb_eq in E2. split.
      - destruct (parseSegments _ _ _ _) as [a|] eqn:Ep; [|discriminate].
        simpl. intros [= <-]. apply Hparse in Ep.
        destruct Ep as (segs & Hf & Hl & Hn).
        exists leftPart, (r0 :: rightPart), more, segs. simpl. auto 6.
      - intros (l & r & m & segs & [= <- <- <-] & Hdir & Hf & Hl & Hn).
        destruct Hdir as [[Hr _]|[_ Hd]];
          [rewrite Hr in E2; discriminate|].
        assert (Hp : parseSegments names line (split (lit ",") leftPart)
                       (repeat 0 (length names)) = Ok (amounts st)).
        { apply Hparse. eauto. }
        rewrite Hp. simpl. destruct st as [a d]. simpl in *. congruence. }
    split; [discriminate|].
    intros (l & r & m & segs & [= <- <- <-] & [[H _]|[H _]] & _).
    + rewrite H in E1. discriminate.
    + rewrite H in E2. discriminate.
Qed.

Lemma parseLine_spec_witness :
  let names := [lit "cats"; lit "dogs"] in
  let line := lit "7 dogs,  3 cats , 1 dogs cross right -> left" in
  in_exact_range line /\
  parseLine names line = Ok (mkStep [3; 8] rightToLeft) /\
  Forall (fun x => 0 <= x <= MAX_SAFE_INTEGER) [3; 8].
Proof.
  intros names line.
  assert (Hr : in_exact_range line) by (vm_compute; discriminate).
  assert (Hp : parseLine names line = Ok (mkStep [3; 8] rightToLeft))
    by reflexivity.
  split; [exact Hr|]. split; [exact Hp|].
  exact (proj2 (parseLine_spec names line _ Hr) Hp).
Defined.

(** ** Splitting, trimming and numbers *)

Lemma split_go_skip sep a : forall cur rest,
  split_go sep (length a) cur (a ++ rest) = split_go sep 0 cur rest.
Proof.
  induction a as [|c a IH]; intros cur rest; simpl; auto.
Qed.

Lemma prefixb_app sep rest : prefixb sep (sep ++ rest) = true.
Proof.
  induction sep as [|c sep IH]; simpl; auto. rewrite N.eqb_refl. auto.
Qed.

Lemma split_go_free sep x : forall cur rest,
  occurs_in sep x rest = false ->
  split_go sep 0 cur (x ++ rest) = split_go sep 0 (rev x ++ cur) rest.
Proof.
  induction x as [|c x IH]; intros cur rest H; simpl in *; auto.
  apply orb_false_iff in H. destruct H as [H1 H2]. rewrite H1.
  rewrite IH by auto. rewrite <- app_assoc. reflexivity.
Qed.

Lemma split_go_at sep cur rest :
  sep <> [] ->
  split_go sep 0 cur (sep ++ rest) = rev cur :: split_go sep 0 [] rest.
Proof.
  intros Hne. destruct sep as [|c sep]; [contradiction|].
  change ((c :: sep) ++ rest) with (c :: (sep ++ rest)).
  cbn [split_go]. change (c :: sep ++ rest) with ((c :: sep) ++ rest).
  rewrite prefixb_app. simpl Nat.pred. simpl length.
  rewrite split_go_skip. reflexivity.
Qed.

Lemma split_go_end sep x cur :
  occurs_in sep x [] = false -> split_go sep 0 cur x = [rev cur ++ x].
Proof.
  intros H. rewrite <- (app_nil_r x) at 1. rewrite split_go_free by auto.
  simpl. rewrite rev_app_distr, rev_involutive. reflexivity.
Qed.

Lemma occurs_in_app sep x y rest :
  occurs_in sep (x ++ y) rest
  = occurs_in sep x (y ++ rest) || occurs_in sep y rest.
Proof.
  induction x as [|c x IH]; simpl; auto.
  rewrite IH, <- !app_assoc, orb_assoc. reflexivity.
Qed.

Lemma occurs_in_other_head s0 sep x rest :
  forallb (fun c => negb (N.eqb c s0)) x = true ->
  occurs_in (s0 :: sep) x rest = false.
Proof.
  induction x as [|c x IH]; simpl; auto. intros H.
  apply andb_true_iff in H. destruct H as [Hc Hx].
  rewrite IH by auto. apply negb_true_iff in Hc.
  rewrite N.eqb_sym, Hc. reflexivity.
Qed.

Lemma drop_while_stop f c t : f c = false -> drop_while f (c :: t) = c :: t.
Proof. intros H. simpl. rewrite H. reflexivity. Qed.

Lemma trim_id_gen pre s :
  forallb is_space pre = true ->
  (exists c t, s = c :: t /\ is_space c = false) ->
  (exists c t, rev s = c :: t /\ is_space c = false) ->
  trim (pre ++ s) = s.
Proof.
  intros Hpre (c & t & -> & Hc) (c' & t' & Hr & Hc'). unfold trim.
  assert (E : drop_while is_space (pre ++ c :: t) = c :: t).
  { apply take_while_app; auto. intros ? ? [= <- <-]. auto. }
  rewrite E, Hr, drop_while_stop by auto. rewrite <- Hr.
  apply rev_involutive.
Qed.

Lemma digit_not_space c : is_digit c = true -> is_space c = false.
Proof.
  intros H. destruct (is_space c) eqn:E; auto.
  apply space_not_digit in E. congruence.
Qed.

Lemma uint_units_digits d : forallb is_digit (uint_units d) = true.
Proof. induction d; simpl; auto. Qed.

Lemma parse_acc d : forall acc,
  fold_left (fun acc c => (10 * acc + (c - 48))%N) (uint_units d) (Npos acc)
  = Npos (Pos.of_uint_acc d acc).
Proof.
  induction d; intros acc; cbn [uint_units fold_left Pos.of_uint_acc]; auto;
    rewrite <- IHd; f_equal; lia.
Qed.

Lemma parse_uint d :
  fold_left (fun acc c => (10 * acc + (c - 48))%N) (uint_units d) 0%N
  = Pos.of_uint d.
Proof.
  induction d; cbn [uint_units fold_left Pos.of_uint]; auto;
    try (rewrite <- parse_acc; f_equal; reflexivity).
Qed.

Lemma parseInt_toString p : parseInt (toString (Zpos p)) = Zpos p.
Proof.
  unfold parseInt, toString. rewrite parse_uint.
  rewrite DecimalPos.Unsigned.of_to. reflexivity.
Qed.

Lemma toString_pos_nonempty p : toString (Zpos p) <> [].
Proof.
  simpl. pose proof (DecimalPos.Unsigned.to_uint_nonnil p) as H.
  destruct (Pos.to_uint p); try discriminate. contradiction.
Qed.

(** ** One encoded line decodes to its move *)

Lemma cross_not_prefix nm t0 T :
  forallb (fun c => negb (is_space c)) nm = true ->
  nm <> lit "cross" ->
  t0 = 44%N \/ t0 = 32%N ->
  prefixb (lit "cross ") (nm ++ t0 :: T) = false.
Proof.
  intros Hsp Hne Ht.
  destruct (prefixb (lit "cross ") (nm ++ t0 :: T)) eqn:E; auto. exfalso.
  change (lit "cross ") with [99; 114; 111; 115; 115; 32]%N in E.
  change (lit "cross") with [99; 114; 111; 115; 115]%N in Hne.
  destruct nm as [|c1 [|c2 [|c3 [|c4 [|c5 [|c6 nm]]]]]];
    cbn [prefixb app] in E; split_eqbs; subst; try lia.
  - apply Hne. reflexivity.
  - cbn in Hsp. discriminate.
Qed.

Lemma nonspace_not_32 nm :
  forallb (fun c => negb (is_space c)) nm = true ->
  forallb (fun c => negb (N.eqb c 32)) nm = true.
Proof.
  intros H. apply forallb_forall. intros c Hc.
  rewrite forallb_forall in H. specialize (H c Hc).
  destruct (N.eqb_spec c 32); auto. subst. discriminate.
Qed.

Lemma digits_not_32 ds :
  forallb is_digit ds = true -> forallb (fun c => negb (N.eqb c 32)) ds = true.
Proof.
  intros H. apply forallb_forall. intros c Hc.
  rewrite forallb_forall in H. specialize (H c Hc).
  destruct (N.eqb_spec c 32); auto. subst. discriminate.
Qed.

Lemma digits_not_44 ds :
  forallb is_digit ds = true -> forallb (fun c => negb (N.eqb c 44)) ds = true.
Proof.
  intros H. apply forallb_forall. intros c Hc.
  rewrite forallb_forall in H. specialize (H c Hc).
  destruct (N.eqb_spec c 44); auto. subst. discriminate.
Qed.

Lemma occurs_in_single c sep rest :
  occurs_in (c :: sep) [c] rest = prefixb sep rest.
Proof. simpl. rewrite N.eqb_refl. simpl. apply orb_false_r. Qed.

Section Segment.

Variables (p : positive) (nm : jsstring).
Hypothesis Hplain : plain_name nm.

Lemma seg_head :
  exists d0 ds, toString (Zpos p) = d0 :: ds /\ is_digit d0 = true.
Proof.
  pose proof (toString_pos_nonempty p) as Hne.
  pose proof (uint_units_digits (Pos.to_uint p)) as Hd.
  change (uint_units (Pos.to_uint p)) with (toString (Zpos p)) in Hd.
  destruct (toString (Zpos p)) as [|d0 ds]; [contradiction|].
  simpl in Hd. apply andb_true_iff in Hd. exists d0, ds. tauto.
Qed.

Lemma seg_match :
  match_segment (segment_text (Zpos p) nm) = Some (toString (Zpos p), nm).
Proof.
  destruct Hplain as (Hne & Hsp & _ & _).
  apply match_segment_spec. exists (lit " ").
  repeat split; auto.
  - apply toString_pos_nonempty.
  - apply uint_units_digits.
  - discriminate.
Qed.

Lemma seg_trim pre :
  forallb is_space pre = true ->
  trim (pre ++ segment_text (Zpos p) nm) = segment_text (Zpos p) nm.
Proof.
  destruct Hplain as (Hne & Hsp & _ & _). intros Hpre.
  apply trim_id_gen; auto.
  - destruct seg_head as (d0 & ds & E & Hd). unfold segment_text. rewrite E.
    exists d0, (ds ++ lit " " ++ nm). split; auto. now apply digit_not_space.
  - unfold segment_text. rewrite !rev_app_distr.
    destruct (rev nm) as [|c t] eqn:Er.
    + apply (f_equal (@rev N)) in Er. rewrite rev_involutive in Er.
      simpl in Er. contradiction.
    + exists c. eexists. split; [rewrite <- !app_assoc; reflexivity|].
      rewrite forallb_forall in Hsp. apply negb_true_iff, Hsp.
      apply in_rev. rewrite Er. now left.
Qed.

Lemma seg_no_comma :
  forallb (fun c => negb (N.eqb c 44)) (segment_text (Zpos p) nm) = true.
Proof.
  destruct Hplain as (_ & _ & Hc & _). unfold segment_text.
  rewrite !forallb_app, Hc.
  rewrite digits_not_44 by apply uint_units_digits. reflexivity.
Qed.

Lemma seg_no_cross t0 T :
  t0 = 44%N \/ t0 = 32%N ->
  occurs_in (lit " cross ") (segment_text (Zpos p) nm) (t0 :: T) = false.
Proof.
  destruct Hplain as (_ & Hsp & _ & Hcross). intros Ht. unfold segment_text.
  rewrite !occurs_in_app.
  change (lit " cross ") with (32%N :: lit "cross ").
  rewrite occurs_in_other_head
    by (apply digits_not_32, uint_units_digits).
  rewrite (occurs_in_other_head 32 _ nm) by (now apply nonspace_not_32).
  change (lit " ") with [32%N].
  rewrite occurs_in_single, cross_not_prefix by auto. reflexivity.
Qed.

End Segment.

Lemma pair_text_segment p nm :
  pair_text (toString (Zpos p), nm) = segment_text (Zpos p) nm.
Proof. reflexivity. Qed.

Lemma segments_of_pairs m : forall species,
  (length m <= length species)%nat ->
  segments_of m species = Ok (map pair_text (positive_pairs m species)).
Proof.
  induction m as [|c m IH]; intros species Hl; simpl; auto.
  destruct species as [|sp species]; simpl in Hl; [lia|].
  destruct (c >? 0); cbn [tl]; rewrite IH by lia; reflexivity.
Qed.

Lemma positive_pairs_good m : forall species,
  Forall plain_name (map name species) ->
  Forall good_pair (positive_pairs m species).
Proof.
  induction m as [|c m IH]; intros [|sp species] H; simpl;
    try (now constructor).
  inversion H; subst. destruct (Z.gtb_spec c 0); auto.
  constructor; auto. split; auto.
  destruct c as [|p|p]; try lia. exists p. reflexivity.
Qed.

Lemma positive_pairs_names m : forall species,
  Forall (fun pr => In (snd pr) (map name species)) (positive_pairs m species).
Proof.
  induction m as [|c m IH]; intros [|sp species]; simpl;
    try (now constructor).
  assert (H : Forall (fun pr => In (snd pr) (name sp :: map name species))
                (positive_pairs m species)).
  { eapply Forall_impl; [|apply IH]. simpl. auto. }
  destruct (c >? 0); auto.
Qed.

Lemma positive_pairs_nonempty m : forall species,
  (length m <= length species)%nat ->
  Forall (fun x => 0 <= x) m -> 1 <= total m ->
  positive_pairs m species <> [].
Proof.
  induction m as [|c m IH]; intros species Hl Hnn Ht.
  - unfold total in Ht. simpl in Ht. lia.
  - destruct species as [|sp species]; simpl in Hl; [lia|]. simpl.
    inversion Hnn; subst. rewrite total_cons in Ht.
    destruct (Z.gtb_spec c 0); [discriminate|].
    apply IH; auto; lia.
Qed.

Lemma good_pair_parts pr :
  good_pair pr -> exists p, pair_text pr = segment_text (Zpos p) (snd pr).
Proof.
  destruct pr as [d nm]. intros [(p & Hp) _]. simpl in Hp. subst.
  exists p. reflexivity.
Qed.

Lemma join_cons2 sep x y l :
  join sep (x :: y :: l) = x ++ sep ++ join sep (y :: l).
Proof. reflexivity. Qed.

Lemma split_comma_join rest : forall pr cur,
  Forall good_pair (pr :: rest) ->
  split_go (lit ",") 0 cur (join (lit ", ") (map pair_text (pr :: rest)))
  = (rev cur ++ pair_text pr) :: map (fun x => lit " " ++ pair_text x) rest.
Proof.
  induction rest as [|pr2 rest IH]; intros pr cur Hg;
    inversion Hg as [|? ? Hpr Hrest]; subst;
    destruct (good_pair_parts _ Hpr) as (p & Ep); destruct Hpr as [_ Hplain].
  - simpl. apply split_go_end. rewrite Ep.
    change (lit ",") with [44%N]. apply occurs_in_other_head.
    now apply seg_no_comma.
  - cbn [map]. rewrite join_cons2.
    rewrite split_go_free.
    2:{ rewrite Ep. change (lit ",") with [44%N].
        apply occurs_in_other_head. now apply seg_no_comma. }
    change (lit ", " ++ join (lit ", ") (pair_text pr2 :: map pair_text rest))
      with (lit "," ++ [32%N] ++ join (lit ", ") (map pair_text (pr2 :: rest))).
    rewrite split_go_at by discriminate.
    rewrite split_go_free by reflexivity.
    rewrite IH by auto.
    rewrite rev_app_distr, rev_involutive. reflexivity.
Qed.

Lemma join_head sep x l : exists tail, join sep (x :: l) = x ++ tail.
Proof.
  destruct l as [|y l]; simpl.
  - exists []. now rewrite app_nil_r.
  - eexists. reflexivity.
Qed.

Lemma no_cross_in_join pairs : forall T,
  Forall good_pair pairs ->
  occurs_in (lit " cross ") (join (lit ", ") (map pair_text pairs)) (32%N :: T)
  = false.
Proof.
  induction pairs as [|pr [|pr2 rest] IH]; intros T Hg; [reflexivity| |];
    inversion Hg as [|? ? Hpr Hrest]; subst;
    destruct (good_pair_parts _ Hpr) as (p & Ep); destruct Hpr as [_ Hplain].
  - simpl. rewrite Ep. apply seg_no_cross; auto.
  - cbn [map]. rewrite join_cons2.
    change (lit ", " ++ join (lit ", ") (pair_text pr2 :: map pair_text rest))
      with (44%N :: [32%N] ++ join (lit ", ") (map pair_text (pr2 :: rest))).
    rewrite occurs_in_app, Ep, <- app_comm_cons, seg_no_cross by auto.
    cbn [orb]. cbn [occurs_in].
    rewrite (occurs_in_app _ [32%N]), IH, orb_false_r by auto.
    change (lit " cross ") with (32%N :: lit "cross ").
    rewrite occurs_in_single, <- app_comm_cons. cbn [prefixb].
    change (32 =? 44)%N with false. cbn [andb orb].
    inversion Hrest as [|? ? Hpr2 _]; subst.
    destruct (good_pair_parts _ Hpr2) as (p2 & Ep2).
    destruct (join_head (lit ", ") (pair_text pr2) (map pair_text rest))
      as (tail & Ej).
    cbn [map]. rewrite Ej, Ep2.
    destruct (seg_head p2) as (d0 & ds & Ed & Hd). unfold segment_text.
    rewrite Ed. change (lit "cross ") with (99%N :: lit "ross ").
    rewrite <- !app_comm_cons. cbn [prefixb].
    destruct (N.eqb_spec 99 d0) as [<-|]; [discriminate|reflexivity].
Qed.

Lemma indexOf_app_notin pre x suf :
  ~ In x pre -> indexOf (pre ++ x :: suf) x = Z.of_nat (length pre).
Proof.
  induction pre as [|y pre IH]; intros Hn; simpl.
  - assert (E : Js.eqb x x = true) by now apply eqb_eq. rewrite E. reflexivity.
  - destruct (Js.eqb y x) eqn:E.
    + apply eqb_eq in E. subst. exfalso. apply Hn. now left.
    + rewrite IH by (intros H; apply Hn; now right).
      destruct (Z.ltb_spec (Z.of_nat (length pre)) 0); lia.
Qed.

Lemma amount_for_cons names pr rest i :
  amount_for names (pr :: rest) i
  = (if indexOf names (snd pr) =? Z.of_nat i then parseInt (fst pr) else 0)
    + amount_for names rest i.
Proof. reflexivity. Qed.

Lemma amount_for_pairs m : forall species pre i,
  NoDup (pre ++ map name species) ->
  length m = length species ->
  Forall (fun x => 0 <= x) m ->
  amount_for (pre ++ map name species) (positive_pairs m species) i
  = if (i <? length pre)%nat then 0 else nth (i - length pre) m 0.
Proof.
  induction m as [|c m IH]; intros [|sp species] pre i Hnd Hl Hnn;
    try discriminate.
  - simpl. destruct (i <? length pre)%nat; auto.
    destruct (i - length pre)%nat; reflexivity.
  - injection Hl as Hl. inversion Hnn as [|? ? Hc Hm]; subst.
    assert (Hpre : ~ In (name sp) pre).
    { simpl in Hnd. apply NoDup_remove_2 in Hnd. intros H. apply Hnd.
      apply in_or_app. now left. }
    assert (Hidx : indexOf (pre ++ map name (sp :: species)) (name sp)
                   = Z.of_nat (length pre))
      by (apply indexOf_app_notin; auto).
    assert (Hrest : amount_for (pre ++ map name (sp :: species))
                      (positive_pairs m species) i
                    = if (i <? length (pre ++ [name sp]))%nat then 0
                      else nth (i - length (pre ++ [name sp])) m 0).
    { replace (pre ++ map name (sp :: species))
        with ((pre ++ [name sp]) ++ map name species)
        by (rewrite <- app_assoc; reflexivity).
      apply IH; auto. rewrite <- app_assoc. exact Hnd. }
    rewrite length_app in Hrest. simpl length in Hrest.
    cbn [positive_pairs].
    destruct (Z.gtb_spec c 0) as [Hpos|Hzero].
    + rewrite amount_for_cons, Hrest. cbn [fst snd]. rewrite Hidx.
      destruct c as [|q|q]; try lia. rewrite parseInt_toString.
      destruct (Nat.ltb_spec i (length pre));
        destruct (Nat.ltb_spec i (length pre + 1));
        destruct (Z.eqb_spec (Z.of_nat (length pre)) (Z.of_nat i)); try lia.
      * replace (i - length pre)%nat with 0%nat by lia. simpl. lia.
      * replace (i - length pre)%nat with (S (i - (length pre + 1))) by lia.
        simpl. lia.
    + rewrite Hrest. assert (c = 0) by lia. subst c.
      destruct (Nat.ltb_spec i (length pre));
        destruct (Nat.ltb_spec i (length pre + 1)); try lia.
      * replace (i - length pre)%nat with 0%nat by lia. reflexivity.
      * replace (i - length pre)%nat with (S (i - (length pre + 1))) by lia.
        reflexivity.
Qed.

Lemma decode_amounts m species :
  NoDup (map name species) ->
  length m = length species ->
  Forall (fun x => 0 <= x) m ->
  fold_left (fun acc seg =>
               add_at acc (Z.to_nat (indexOf (map name species) (snd seg)))
                      (parseInt (fst seg)))
    (positive_pairs m species) (repeat 0 (length (map name species)))
  = m.
Proof.
  intros Hnd Hl Hnn. apply nth_ext with (d := 0) (d' := 0).
  - rewrite fold_add_at_length, repeat_length, length_map. auto.
  - intros i _. rewrite fold_add_at_nth.
    + rewrite nth_repeat_zero.
      pose proof (amount_for_pairs m species [] i Hnd Hl Hnn) as Ha.
      change ([] ++ map name species) with (map name species) in Ha.
      change (length (@nil jsstring)) with 0%nat in Ha.
      rewrite Nat.sub_0_r in Ha. rewrite Ha.
      destruct (Nat.ltb_spec i 0); lia.
    + apply repeat_length.
    + apply positive_pairs_names.
Qed.

Lemma parse_encoded_segments names line pr rest acc :
  Forall good_pair (pr :: rest) ->
  Forall (fun pr => In (snd pr) names) (pr :: rest) ->
  parseSegments names line
    (pair_text pr :: map (fun x => lit " " ++ pair_text x) rest) acc
  = Ok (fold_left (fun acc seg =>
                     add_at acc (Z.to_nat (indexOf names (snd seg)))
                            (parseInt (fst seg))) (pr :: rest) acc).
Proof.
  intros Hg Hin. apply parseSegments_spec. exists (pr :: rest).
  split; [|reflexivity].
  assert (Hone : forall pre x, forallb is_space pre = true ->
            good_pair x -> match_segment (trim (pre ++ pair_text x)) = Some x).
  { intros pre [d nm] Hpre [(q & Hq) Hplain]. cbn [fst snd] in Hq, Hplain.
    subst d.
    rewrite pair_text_segment, seg_trim by auto. now apply seg_match. }
  inversion Hg as [|? ? Hpr Hrest]; subst.
  inversion Hin as [|? ? Hipr Hirest]; subst.
  constructor.
  - split; auto. apply (Hone [] pr); auto.
  - clear - Hrest Hirest Hone.
    induction rest as [|x rest IH]; simpl; constructor;
      inversion Hrest; inversion Hirest; subst; auto.
    split; auto. apply (Hone (lit " ") x); auto.
Qed.

Lemma encode_decode_line species m d :
  let names := map name species in
  NoDup names -> Forall plain_name names ->
  length m = length species ->
  Forall (fun x => 0 <= x) m -> 1 <= total m ->
  parseLine names
    (join (lit ", ") (map pair_text (positive_pairs m species))
       ++ lit " cross " ++ direction_text d)
  = Ok (mkStep m d).
Proof.
  intros names Hnd Hplain Hl Hnn Ht.
  pose proof (positive_pairs_good m species Hplain) as Hg.
  pose proof (positive_pairs_names m species) as Hin.
  pose proof (positive_pairs_nonempty m species (Nat.eq_le_incl _ _ Hl) Hnn Ht)
    as Hne.
  pose proof (decode_amounts m species Hnd Hl Hnn) as Hdec.
  fold names in Hin, Hdec.
  destruct (positive_pairs m species) as [|pr rest] eqn:Ep; [contradiction|].
  set (what := join (lit ", ") (map pair_text (pr :: rest))).
  assert (Hsplit :
            split (lit " cross ") (what ++ lit " cross " ++ direction_text d)
            = [what; direction_text d]).
  { unfold split.
    rewrite split_go_free
      by (change (lit " cross " ++ direction_text d)
            with (32%N :: lit "cross " ++ direction_text d);
          now apply no_cross_in_join).
    rewrite split_go_at by discriminate.
    rewrite split_go_end by (destruct d; reflexivity).
    rewrite app_nil_r, rev_involutive. reflexivity. }
  assert (Hcomma :
            split (lit ",") what
            = pair_text pr :: map (fun x => lit " " ++ pair_text x) rest).
  { unfold split, what. rewrite split_comma_join by auto. reflexivity. }
  unfold parseLine. rewrite Hsplit, Hcomma.
  rewrite parse_encoded_segments by auto. rewrite Hdec.
  destruct d; reflexivity.
Qed.

(** ** Solutions of the search are accepted by the verification *)

Lemma moveToSentence_text species m old new :
  length m = length species ->
  moveToSentence (MoveTerm m old new) species
  = Ok (join (lit ", ") (map pair_text (positive_pairs m species))
          ++ lit " cross "
          ++ (sideToText (state_side old) ++ lit " -> "
                ++ sideToText (state_side new))).
Proof.
  intros Hl. unfold moveToSentence. cbn [mt_move mt_old mt_new].
  rewrite segments_of_pairs by lia. reflexivity.
Qed.

Lemma compiled_move_total config m :
  In m (move (generatePrologCode config)) -> 1 <= total m.
Proof.
  simpl. intros H. apply In_generateAllowedMoves in H. tauto.
Qed.

Lemma chain_roundtrip config :
  let p := generatePrologCode config in
  NoDup (speciesNames config) ->
  Forall plain_name (speciesNames config) ->
  forall s sol, chain p s sol ->
  exists lines,
    solutionToHumanReadableList sol (species config) = Ok lines /\
    parseLines (speciesNames config) lines = Ok (map step_of sol) /\
    holds (check_solution p (map step_of sol) s).
Proof.
  intros p Hnd Hplain s sol Hc.
  induction Hc as [s Hs|s m s' rest Ht Hc (lines & Hl & Hp & Hk)].
  - exists []. repeat split. cbn [map check_solution]. subst s.
    assert (E : state_eqb (final_state p) (final_state p) = true)
      by now apply state_eqb_eq.
    rewrite E. apply holds_unit.
  - assert (Hm : In m (move p)).
    { destruct s as [c [|]].
      - apply In_transition_start in Ht. destruct Ht as [Hm _].
        apply In_move_goal in Hm. tauto.
      - apply In_transition_target in Ht. destruct Ht as [Hm _].
        apply In_move_goal in Hm. tauto. }
    pose proof (compiled_move_length _ _ Hm) as Hlen.
    pose proof (compiled_move_nonneg _ _ Hm) as Hnn.
    pose proof (compiled_move_total _ _ Hm) as Htot.
    assert (Hline : forall d,
              parseLine (speciesNames config)
                (join (lit ", ")
                   (map pair_text (positive_pairs m (species config)))
                 ++ lit " cross " ++ direction_text d)
              = Ok (mkStep m d)).
    { intros d. apply encode_decode_line; auto. }
    destruct s as [c [|]].
    + pose proof Ht as Ht'. apply In_transition_start in Ht'.
      destruct Ht' as (_ & New & HN & Hsafe & ->).
      eexists. split; [|split].
      * cbn [solutionToHumanReadableList].
        rewrite moveToSentence_text, Hl by auto. reflexivity.
      * cbn [parseLines state_side sideToText].
        change (lit "left" ++ lit " -> " ++ lit "right")
          with (direction_text leftToRight).
        rewrite Hline, Hp. reflexivity.
      * cbn [map]. unfold step_of at 1. cbn [mt_move mt_old state_side].
        cbn [check_solution]. apply holds_flat_map.
        exists (m, State New target). split; [|exact Hk].
        apply In_transition_start. split.
        -- apply In_move_goal. auto.
        -- exists New. auto.
    + pose proof Ht as Ht'. apply In_transition_target in Ht'.
      destruct Ht' as (_ & New & HN & Hsafe & ->).
      eexists. split; [|split].
      * cbn [solutionToHumanReadableList].
        rewrite moveToSentence_text, Hl by auto. reflexivity.
      * cbn [parseLines state_side sideToText].
        change (lit "right" ++ lit " -> " ++ lit "left")
          with (direction_text rightToLeft).
        rewrite Hline, Hp. reflexivity.
      * cbn [map]. unfold step_of at 1. cbn [mt_move mt_old state_side].
        cbn [check_solution]. apply holds_flat_map.
        exists (m, State New start). split; [|exact Hk].
        apply In_transition_target. split.
        -- apply In_move_goal. auto.
        -- exists New. auto.
Qed.

(** X10. The round trip holds whenever the species names are pairwise
    distinct and plain: every answer of the search is rendered into lines
    that verify accepts. *)
Lemma roundtrip_plain_names config fuel sols sol :
  let p := generatePrologCode config in
  NoDup (speciesNames config) ->
  Forall plain_name (speciesNames config) ->
  solve_solution fuel p = Some sols -> In sol sols ->
  exists lines,
    solutionToHumanReadableList sol (species config) = Ok lines /\
    checkUserSolution p config lines = Ok true.
Proof.
  intros p Hnd Hplain Hs Hin. subst p.
  destruct (path_sound _ _ _ _ _ _ Hs Hin) as (Hc & _).
  destruct (chain_roundtrip config Hnd Hplain _ _ Hc) as (lines & Hl & Hp & Hk).
  exists lines. split; auto.
  unfold checkUserSolution, parseSolutionLines. rewrite Hp. cbn [rbind].
  destruct (check_solution _ (map step_of sol) _) eqn:E; [|reflexivity].
  exfalso. apply Hk. reflexivity.
Qed.

(** C2 (where the code departs from it). A species may be named [cross];
    the generator itself can draw that name.  The config with one such
    individual and capacity 1 has the solution "1 cross cross left ->
    right", and verify, given this line, does not answer true: the line is
    cut at its first [" cross "], the direction read is ["cross left ->
    right"], and the decoding error is thrown. *)
Theorem roundtrip_fails_for_cross :
  let config := mkConfig [mkSpecies (lit "cross") 1] [] 1 in
  let line := lit "1 cross cross left -> right" in
  generateRandomConfig 0 (fun t => nth t [2; 17; 14; 18; 18]%nat 0%nat) 1 1 0 1
    = Some config /\
  solveProblem 3 config = Some (Ok [[line]]) /\
  split (lit " cross ") line = [lit "1"; lit "cross left -> right"] /\
  checkUserSolution (generatePrologCode config) config [line]
    = Throw (InvalidDirection line) /\
  solutionIsValid (generatePrologCode config) config [line] = false.
Proof.
  intros config line. repeat split; reflexivity.
Qed.

(** ** The text of move facts *)

Lemma toString_nonneg_digits z :
  0 <= z -> forallb is_digit (toString z) = true.
Proof.
  destruct z as [|q|q]; intros H; [reflexivity| |lia].
  apply uint_units_digits.
Qed.

Lemma parseInt_toString_nonneg z : 0 <= z -> parseInt (toString z) = z.
Proof.
  destruct z as [|q|q]; intros H; [reflexivity| |lia].
  apply parseInt_toString.
Qed.

Lemma map_toString_inj a : forall b,
  Forall (fun x => 0 <= x) a -> Forall (fun x => 0 <= x) b ->
  map toString a = map toString b -> a = b.
Proof.
  induction a as [|x a IH]; intros [|y b] Ha Hb; simpl; try discriminate; auto.
  intros [= Hxy Hab]. inversion Ha; inversion Hb; subst.
  f_equal; auto.
  rewrite <- (parseInt_toString_nonneg x), <- (parseInt_toString_nonneg y) by auto.
  now rewrite Hxy.
Qed.

Lemma split_comma_plain rest : forall x cur,
  Forall (fun s => forallb (fun c => negb (N.eqb c 44)) s = true) (x :: rest) ->
  split_go (lit ",") 0 cur (join (lit ",") (x :: rest)) = (rev cur ++ x) :: rest.
Proof.
  induction rest as [|y rest IH]; intros x cur H;
    inversion H as [|? ? Hx Hrest]; subst.
  - simpl. apply split_go_end. change (lit ",") with [44%N].
    now apply occurs_in_other_head.
  - rewrite join_cons2, split_go_free
      by (change (lit ",") with [44%N]; now apply occurs_in_other_head).
    rewrite split_go_at by discriminate. rewrite IH by auto.
    rewrite rev_app_distr, rev_involutive. reflexivity.
Qed.

Lemma join_comma_inj a b :
  length a = length b ->
  Forall (fun s => forallb (fun c => negb (N.eqb c 44)) s = true) a ->
  Forall (fun s => forallb (fun c => negb (N.eqb c 44)) s = true) b ->
  join (lit ",") a = join (lit ",") b -> a = b.
Proof.
  intros Hl Ha Hb E.
  destruct a as [|x a], b as [|y b]; try discriminate; auto.
  apply (f_equal (split_go (lit ",") 0 [])) in E.
  rewrite !split_comma_plain in E by auto. exact E.
Qed.

Lemma move_fact_text_inj a b :
  length a = length b ->
  Forall (fun x => 0 <= x) a -> Forall (fun x => 0 <= x) b ->
  move_fact_text a = move_fact_text b -> a = b.
Proof.
  intros Hl Ha Hb E. unfold move_fact_text in E.
  apply app_inv_head, app_inv_tail in E.
  apply map_toString_inj; auto. apply join_comma_inj; auto.
  - rewrite !length_map. exact Hl.
  - rewrite Forall_map. eapply Forall_impl; [|exact Ha].
    intros z Hz. apply digits_not_44. now apply toString_nonneg_digits.
  - rewrite Forall_map. eapply Forall_impl; [|exact Hb].
    intros z Hz. apply digits_not_44. now apply toString_nonneg_digits.
Qed.

(** C3. For a config with n species and a capacity c other than 0 (a
    capacity is a positive integer; the compiler reads 0 as "absent" and
    takes 2), the move facts of the compiled program are exactly the
    vectors of length n with entries in [0,c] and sum in [1,c]; no fact
    occurs twice, as a vector and as emitted text; and the facts are
    listed in ascending lexicographic
    order, the first species position being the most significant, that is,
    varying slowest. *)
Theorem move_facts_enumeration (config : Config) :
  starshipCapacity config <> 0 ->
  let n := length (species config) in
  let c := starshipCapacity config in
  let facts := move (generatePrologCode config) in
  (forall v, In v facts <->
             length v = n /\ Forall (fun x => 0 <= x <= c) v /\
             1 <= total v <= c) /\
  NoDup facts /\
  NoDup (map move_fact_text facts) /\
  StronglySorted lex_lt facts.
Proof.
  intros Hc n c facts. subst facts. unfold generatePrologCode. simpl.
  destruct (Z.eqb_spec (starshipCapacity config) 0) as [E|_]; [contradiction|].
  fold n c.
  assert (Hnd : NoDup (generateAllowedMoves n c)).
  { apply sorted_NoDup with (R := lex_lt); [apply lex_lt_irrefl|].
    apply sorted_helper. }
  split; [|split; [|split]].
  - intros v. apply In_generateAllowedMoves.
  - exact Hnd.
  - apply NoDup_map_NoDup_ForallPairs; [|exact Hnd].
    intros a b Ha Hb. apply In_generateAllowedMoves in Ha, Hb.
    destruct Ha as (Hla & Hfa & _). destruct Hb as (Hlb & Hfb & _).
    apply move_fact_text_inj; [congruence| |];
      eapply Forall_impl; try eassumption; simpl; intros; lia.
  - apply sorted_helper.
Qed.

Lemma move_facts_enumeration_witness :
  let config := mkConfig [mkSpecies (lit "a") 2; mkSpecies (lit "b") 2]
                  [mkRel (lit "b") (lit "a")] 2 in
  starshipCapacity config <> 0 /\
  move (generatePrologCode config) = [[0; 1]; [0; 2]; [1; 0]; [1; 1]; [2; 0]] /\
  NoDup (move (generatePrologCode config)).
Proof.
  intros config.
  assert (H : starshipCapacity config <> 0) by (simpl; lia).
  split; [exact H|]. split; [reflexivity|].
  exact (proj1 (proj2 (move_facts_enumeration config H))).
Defined.

(** * Further properties *)

(** ** What verification accepts *)

Lemma last_default {A} (l : list A) a d d' : last (a :: l) d = last (a :: l) d'.
Proof.
  revert a. induction l as [|b l IH]; intros a; [reflexivity|].
  change (last (b :: l) d = last (b :: l) d'). apply IH.
Qed.

Lemma last_cons_default {A} (l : list A) a d : last (a :: l) d = last l a.
Proof.
  destruct l as [|b l]; [reflexivity|].
  change (last (b :: l) d = last (b :: l) a). apply last_default.
Qed.

Lemma transition_bound_move p s m t :
  In t (transition_with_move p s (Some m)) -> fst t = m.
Proof.
  destruct t as [m' s']. destruct s as [c [|]]; intros H.
  - apply In_transition_start in H. destruct H as [H _].
    apply In_move_goal in H. destruct H as [_ [H|H]]; [discriminate|].
    simpl. congruence.
  - apply In_transition_target in H. destruct H as [H _].
    apply In_move_goal in H. destruct H as [_ [H|H]]; [discriminate|].
    simpl. congruence.
Qed.

Lemma transition_flips_side p s mv m s' :
  In (m, s') (transition_with_move p s mv) ->
  state_side s' = flip_side (state_side s).
Proof.
  destruct s as [c [|]]; intros H.
  - apply In_transition_start in H. destruct H as (_ & New & _ & _ & ->).
    reflexivity.
  - apply In_transition_target in H. destruct H as (_ & New & _ & _ & ->).
    reflexivity.
Qed.

Lemma transition_unbound p s m s' :
  In (m, s') (transition_with_move p s (Some m)) <->
  In (m, s') (transition_with_move p s None).
Proof.
  destruct s as [c [|]].
  - rewrite !In_transition_start, !In_move_goal. intuition.
  - rewrite !In_transition_target, !In_move_goal. intuition.
Qed.

Lemma check_solution_run p steps : forall s,
  holds (check_solution p steps s) <->
  exists trace, legal_run p s steps trace /\ last trace s = final_state p.
Proof.
  induction steps as [|[m d] rest IH]; intros s.
  - cbn [check_solution]. rewrite holds_guard, state_eqb_eq. split.
    + intros ->. exists []. split; [constructor|reflexivity].
    + intros (trace & Hr & Hl). inversion Hr; subst. exact Hl.
  - split.
    + intros H.
      assert (Hstep : exists s',
                In (m, s') (transition_with_move p s (Some m)) /\
                d = direction_from (state_side s) /\
                holds (check_solution p rest s')).
      { destruct d, s as [c sd]; destruct sd; cbn [check_solution] in H;
          try (now elim H);
          apply holds_flat_map in H; destruct H as ([m' s'] & Ht & Hk);
          pose proof (transition_bound_move _ _ _ _ Ht) as Hm;
          cbn [fst] in Hm; subst m';
          pose proof (transition_flips_side _ _ _ _ _ Ht) as Hs;
          exists s'; (split; [exact Ht|]); (split; [reflexivity|]);
          destruct s' as [c' sd']; cbn [state_side flip_side] in Hs;
          subst sd'; exact Hk. }
      destruct Hstep as (s' & Ht & Hd & Hk).
      apply IH in Hk. destruct Hk as (trace & Hr & Hl).
      exists (s' :: trace). split.
      * constructor; auto. destruct s as [c [|]]; cbn in Hd; subst d; auto.
      * rewrite last_cons_default. exact Hl.
    + intros (trace & Hr & Hl).
      inversion Hr as [|? ? ? s' ? trace' Ht Hd Hrest]; subst.
      rewrite last_cons_default in Hl.
      assert (Hk : holds (check_solution p rest s')) by (apply IH; eauto).
      pose proof (transition_flips_side _ _ _ _ _ Ht) as Hs.
      destruct s as [c sd], s' as [c' sd'].
      cbn [state_side flip_side] in Hs, Hd.
      destruct Hd as [[-> ->]|[-> ->]]; cbn [flip_side] in Hs; subst sd';
        cbn [check_solution]; apply holds_flat_map;
        eexists; (split; [exact Ht|exact Hk]).
Qed.

Lemma parseLines_exact names lines : forall steps,
  Forall in_exact_range lines ->
  parseLines names lines = Ok steps ->
  Forall (fun st => Forall (fun x => 0 <= x <= MAX_SAFE_INTEGER) (amounts st))
         steps.
Proof.
  induction lines as [|line lines IH]; intros steps Hr; cbn [parseLines].
  - intros [= <-]. constructor.
  - inversion Hr as [|? ? Hline Hrest]; subst.
    destruct (parseLine names line) as [st|] eqn:E; [|discriminate].
    cbn [rbind].
    destruct (parseLines names lines) as [sts|]; [|discriminate].
    cbn [rbind]. intros [= <-]. constructor; [|now apply IH].
    exact (parseLine_exact _ _ _ Hline E).
Qed.

(** X1. Take a program with at least one move fact (so that the goal
    [move/1] is defined) and candidate lines whose written integers add up,
    line by line, to at most 2^53 - 1.  Then [checkUserSolution] answers
    [true] exactly when the lines decode and the decoded steps, applied in
    order from the initial state, are each a legal safe transition in the
    declared direction and the last one reaches the final state: no step is
    skipped, added or reordered.  The amounts of the decoded steps are
    integers between 0 and 2^53 - 1, so they reach the query as the
    integers that were written. *)
Theorem checkUserSolution_iff_run (prologProgram : program) (config : Config)
    (solutionLines : list jsstring) :
  move prologProgram <> [] ->
  Forall in_exact_range solutionLines ->
  (checkUserSolution prologProgram config solutionLines = Ok true <->
   exists steps trace,
     parseSolutionLines config solutionLines = Ok steps /\
     legal_run prologProgram (initial_state prologProgram) steps trace /\
     last trace (initial_state prologProgram) = final_state prologProgram) /\
  (forall steps,
     parseSolutionLines config solutionLines = Ok steps ->
     Forall (fun st =>
               Forall (fun x => 0 <= x <= MAX_SAFE_INTEGER) (amounts st))
            steps).
Proof.
  intros _ Hrange.
  split; [|intros steps; exact (parseLines_exact _ _ steps Hrange)].
  unfold checkUserSolution.
  destruct (parseSolutionLines config solutionLines) as [steps|e];
    cbn [rbind].
  - split.
    + intros H.
      assert (Hk : holds (check_solution prologProgram steps
                            (initial_state prologProgram))).
      { intros E. rewrite E in H. discriminate. }
      apply check_solution_run in Hk. destruct Hk as (trace & Hr & Hl).
      exists steps, trace. auto.
    + intros (steps' & trace & [= <-] & Hr & Hl).
      assert (Hk : holds (check_solution prologProgram steps
                            (initial_state prologProgram)))
        by (apply check_solution_run; eauto).
      destruct (check_solution _ _ _); [now elim Hk|reflexivity].
  - split; [discriminate|]. intros (steps & trace & [=] & _).
Qed.

Lemma checkUserSolution_iff_run_witness :
  let config :=
    mkConfig [mkSpecies (lit "cats") 2; mkSpecies (lit "dogs") 1] [] 3 in
  let p := generatePrologCode config in
  let lines := [lit "2 cats, 1 dogs cross left -> right"] in
  move p <> [] /\ Forall in_exact_range lines /\
  exists steps trace,
    parseSolutionLines config lines = Ok steps /\
    legal_run p (initial_state p) steps trace.
Proof.
  intros config p lines.
  assert (Hm : move p <> []) by (vm_compute; discriminate).
  assert (Hr : Forall in_exact_range lines)
    by (constructor; [vm_compute; discriminate|constructor]).
  assert (H : checkUserSolution p config lines = Ok true) by reflexivity.
  split; [exact Hm|]. split; [exact Hr|].
  destruct (proj1 (proj1 (checkUserSolution_iff_run p config lines Hm Hr)) H)
    as (steps & trace & Hp & Hrun & _).
  exists steps, trace. auto.
Defined.

Lemma parseLines_length names lines : forall steps,
  parseLines names lines = Ok steps -> length steps = length lines.
Proof.
  induction lines as [|line lines IH]; intros steps; cbn [parseLines].
  - intros [= <-]. reflexivity.
  - destruct (parseLine names line) as [st|]; [|discriminate]. cbn [rbind].
    destruct (parseLines names lines) as [sts|]; [|discriminate].
    cbn [rbind]. intros [= <-]. simpl. f_equal. now apply IH.
Qed.

Lemma legal_run_shape p steps : forall s trace,
  legal_run p s steps trace ->
  length trace = length steps /\
  map step_direction steps = alternating (state_side s) (length steps) /\
  Forall (fun st => In (amounts st) (move p)) steps /\
  state_side (last trace s)
  = (if Nat.even (length steps) then state_side s
     else flip_side (state_side s)).
Proof.
  induction steps as [|st rest IH]; intros s trace Hr;
    inversion Hr as [|? m d s' ? trace' Ht Hd Hrest]; subst.
  - repeat split. constructor.
  - destruct (IH _ _ Hrest) as (Hlen & Hdir & Hmv & Hside).
    pose proof (transition_flips_side _ _ _ _ _ Ht) as Hs.
    rewrite last_cons_default.
    split; [simpl; congruence|]. split; [|split].
    + cbn [map length alternating step_direction]. rewrite Hs in Hdir.
      rewrite Hdir. f_equal.
      destruct (state_side s); destruct Hd as [[-> E]|[-> E]];
        try reflexivity; discriminate.
    + constructor; auto. cbn [amounts].
      apply transition_unbound in Ht.
      destruct s as [c [|]].
      * apply In_transition_start in Ht. destruct Ht as [Hm _].
        apply In_move_goal in Hm. tauto.
      * apply In_transition_target in Ht. destruct Ht as [Hm _].
        apply In_move_goal in Hm. tauto.
    + rewrite Hside, Hs.
      change (length (mkStep m d :: rest)) with (S (length rest)).
      rewrite Nat.even_succ, <- Nat.negb_even.
      destruct (Nat.even (length rest)), (state_side s); reflexivity.
Qed.

(** X2. What every accepted candidate looks like, in a compiled program,
    when the written integers of each of its lines add up to at most
    2^53 - 1: it has an odd number of lines; the directions alternate, the
    first being left to right; and the amounts of every line form a move
    fact, so they carry at least one and at most capacity individuals, and
    are integers between 0 and 2^53 - 1. *)
Theorem accepted_candidate_shape (config : Config)
    (solutionLines : list jsstring) :
  let p := generatePrologCode config in
  Forall in_exact_range solutionLines ->
  checkUserSolution p config solutionLines = Ok true ->
  exists steps,
    parseSolutionLines config solutionLines = Ok steps /\
    length steps = length solutionLines /\
    Nat.Odd (length solutionLines) /\
    map step_direction steps = alternating start (length steps) /\
    Forall (fun st => In (amounts st) (move p) /\
                      1 <= total (amounts st) <= effective_capacity config /\
                      Forall (fun x => 0 <= x <= MAX_SAFE_INTEGER) (amounts st))
           steps.
Proof.
  intros p Hrange H. unfold checkUserSolution in H.
  destruct (parseSolutionLines config solutionLines) as [steps|] eqn:Ep;
    [|discriminate].
  cbn [rbind] in H.
  assert (Hk : holds (check_solution p steps (initial_state p))).
  { intros E. rewrite E in H. discriminate. }
  apply check_solution_run in Hk. destruct Hk as (trace & Hr & Hl).
  destruct (legal_run_shape _ _ _ _ Hr) as (_ & Hdir & Hmv & Hside).
  pose proof (parseLines_length _ _ _ Ep) as Hlen.
  exists steps. split; [reflexivity|]. split; [exact Hlen|].
  split; [|split].
  - rewrite Hl in Hside. rewrite <- Hlen.
    destruct (Nat.even (length steps)) eqn:Ee; [discriminate Hside|].
    apply Nat.odd_spec. rewrite <- Nat.negb_even, Ee. reflexivity.
  - exact Hdir.
  - pose proof (parseLines_exact _ _ _ Hrange Ep) as Hex.
    rewrite Forall_forall in *. intros st Hin.
    specialize (Hmv st Hin). split; [exact Hmv|]. split; [|exact (Hex st Hin)].
    apply In_generateAllowedMoves in Hmv. apply Hmv.
Qed.

Lemma accepted_candidate_shape_witness :
  let config :=
    mkConfig [mkSpecies (lit "a") 2; mkSpecies (lit "b") 2]
      [mkRel (lit "b") (lit "a")] 2 in
  let lines := [lit "2 b cross left -> right"; lit "1 b cross right -> left";
                lit "2 a cross left -> right"; lit "1 a cross right -> left";
                lit "1 a, 1 b cross left -> right"] in
  Forall in_exact_range lines /\
  checkUserSolution (generatePrologCode config) config lines = Ok true /\
  Nat.Odd (length lines).
Proof.
  intros config lines.
  assert (Hr : Forall in_exact_range lines)
    by (repeat (constructor; [vm_compute; discriminate|]); constructor).
  assert (H : checkUserSolution (generatePrologCode config) config lines
              = Ok true) by reflexivity.
  split; [exact Hr|]. split; [exact H|].
  destruct (accepted_candidate_shape config lines Hr H)
    as (steps & _ & _ & Ho & _).
  exact Ho.
Defined.

(** ** What the search returns *)

Lemma path_first_fuel fuel p s Visited sols :
  path fuel p s Visited = Some sols -> exists fuel', fuel = S fuel'.
Proof. destruct fuel; [discriminate|eauto]. Qed.

Lemma path_complete p sol : forall fuel s Visited sols,
  path fuel p s Visited = Some sols ->
  chain p s sol ->
  NoDup (map mt_new sol) ->
  (forall x, In x (map mt_new sol) -> ~ In x Visited) ->
  In sol sols.
Proof.
  induction sol as [|t rest IH]; intros fuel s V sols Hp Hc Hnd Hv;
    destruct fuel as [|fuel]; try discriminate; cbn [path] in Hp;
    destruct (gather _ _) as [g|] eqn:G; try discriminate;
    cbn [option_map] in Hp; injection Hp as <-.
  - inversion Hc; subst.
    assert (E : state_eqb (final_state p) (final_state p) = true)
      by now apply state_eqb_eq.
    rewrite E. now left.
  - inversion Hc as [|? m s' ? Ht Hrest]; subst. apply in_or_app. right.
    destruct (gather_each _ _ _ _ G Ht) as (x & Hx & Hincl). apply Hincl.
    cbn [map mt_new] in Hnd, Hv. inversion Hnd as [|? ? Hnin Hnd']; subst.
    assert (Enm : not_member s' V = true).
    { apply not_member_spec. apply Hv. now left. }
    cbn beta iota in Hx. rewrite Enm in Hx.
    destruct (path fuel p s' (s' :: V)) as [r|] eqn:Ep; [|discriminate].
    injection Hx as <-. apply in_map. eapply IH; eauto.
    intros y Hy [<-|HV]; [contradiction|]. apply (Hv y); [now right|auto].
Qed.

(** X3. The answers of [solve_solution] are exactly the cycle-free
    solutions: the lists of [move/3] terms that lead from the initial state
    to the final state through transitions and never come back to a state
    already occupied. *)
Theorem solve_solution_answers (p : program) (fuel : nat)
    (sols : list (list moveTerm)) :
  solve_solution fuel p = Some sols ->
  forall sol,
    In sol sols <->
    chain p (initial_state p) sol /\
    NoDup (initial_state p :: map mt_new sol).
Proof.
  intros Hs sol. split.
  - intros Hin. destruct (path_sound _ _ _ _ _ _ Hs Hin) as (Hc & Hnd & Hv).
    split; auto. constructor; auto. intros H. apply (Hv _ H). now left.
  - intros [Hc Hnd]. inversion Hnd as [|? ? Hnin Hnd']; subst.
    apply (path_complete p sol _ _ _ _ Hs Hc Hnd').
    intros x Hx [<-|[]]. contradiction.
Qed.

Lemma solve_solution_answers_witness :
  let p := generatePrologCode
             (mkConfig [mkSpecies (lit "cats") 2; mkSpecies (lit "dogs") 1]
                [] 3) in
  let sol := [MoveTerm [2; 1] (State [2; 1] start) (State [0; 0] target)] in
  (exists sols, solve_solution 13 p = Some sols /\ In sol sols) /\
  chain p (initial_state p) sol.
Proof.
  intros p sol.
  destruct (solve_solution 13 p) as [sols|] eqn:E;
    [|vm_compute in E; discriminate E].
  assert (Hin : In sol sols).
  { vm_compute in E. injection E as <-. simpl. tauto. }
  split; [eauto|].
  exact (proj1 (proj1 (solve_solution_answers p 13 sols E sol) Hin)).
Defined.

Lemma run_chain p steps : forall s trace,
  legal_run p s steps trace -> last trace s = final_state p ->
  exists sol,
    chain p s sol /\ map step_of sol = steps /\ map mt_new sol = trace.
Proof.
  induction steps as [|st rest IH]; intros s trace Hr Hl;
    inversion Hr as [|? m d s' ? trace' Ht Hd Hrest]; subst.
  - exists []. repeat split. constructor. exact Hl.
  - rewrite last_cons_default in Hl.
    destruct (IH _ _ Hrest Hl) as (sol & Hc & Hst & Htr).
    exists (MoveTerm m s s' :: sol). split; [|split].
    + constructor; auto. now apply transition_unbound.
    + cbn [map]. rewrite Hst. f_equal. unfold step_of. cbn [mt_move mt_old].
      f_equal. destruct (state_side s); destruct Hd as [[-> E]|[-> E]];
        try reflexivity; discriminate.
    + cbn [map mt_new]. rewrite Htr. reflexivity.
Qed.

(** X4. Whatever verification accepts without a repeated state, the search
    returns: if the steps are legal from the initial state, end at the
    final state and never come back to a state already occupied, one of
    the answers of [solve_solution] consists of exactly these steps and
    states. *)
Theorem verified_cycle_free_is_found (p : program) (steps : list Step)
    (trace : list state) (fuel : nat) (sols : list (list moveTerm)) :
  legal_run p (initial_state p) steps trace ->
  last trace (initial_state p) = final_state p ->
  NoDup (initial_state p :: trace) ->
  solve_solution fuel p = Some sols ->
  exists sol, In sol sols /\ map step_of sol = steps /\ map mt_new sol = trace.
Proof.
  intros Hr Hl Hnd Hs.
  destruct (run_chain _ _ _ _ Hr Hl) as (sol & Hc & Hst & Htr).
  exists sol. split; [|auto].
  inversion Hnd as [|? ? Hnin Hnd']; subst.
  apply (path_complete p sol _ _ _ _ Hs Hc Hnd').
  intros x Hx [<-|[]]. contradiction.
Qed.

Lemma verified_cycle_free_is_found_witness :
  let p := generatePrologCode
             (mkConfig [mkSpecies (lit "cats") 2; mkSpecies (lit "dogs") 1]
                [] 3) in
  let steps := [mkStep [2; 1] leftToRight] in
  let trace := [State [0; 0] target] in
  legal_run p (initial_state p) steps trace /\
  exists sols sol,
    solve_solution 13 p = Some sols /\ In sol sols /\ map step_of sol = steps.
Proof.
  intros p steps trace.
  assert (Hr : legal_run p (initial_state p) steps trace).
  { repeat (econstructor; [vm_compute; tauto | simpl; tauto | ]). constructor. }
  assert (Hl : last trace (initial_state p) = final_state p) by reflexivity.
  assert (Hnd : NoDup (initial_state p :: trace)).
  { repeat constructor; simpl; intuition discriminate. }
  destruct (solve_solution 13 p) as [sols|] eqn:E;
    [|vm_compute in E; discriminate E].
  split; [exact Hr|].
  destruct (verified_cycle_free_is_found p steps trace 13 sols Hr Hl Hnd E)
    as (sol & Hin & Hst & _).
  exists sols, sol. auto.
Defined.

(** X5. On a config with at least one species and a capacity
    ([starshipCapacity || 2]) of at least 1, the compiled program has a
    move fact, and [solveProblem] finishes and returns a list of rendered
    solutions, never an exception; running the search longer changes
    nothing. *)
Theorem solveProblem_total (config : Config) :
  species config <> [] ->
  1 <= effective_capacity config ->
  move (generatePrologCode config) <> [] /\
  exists fuel texts,
    solveProblem fuel config = Some (Ok texts) /\
    (forall fuel', (fuel <= fuel')%nat ->
                   solveProblem fuel' config = Some (Ok texts)) /\
    (forall fuel' r, solveProblem fuel' config = Some r -> r = Ok texts).
Proof.
  intros Hsp Hcap. split.
  { destruct (species config) as [|sp rest] eqn:Es; [contradiction|].
    assert (Hin : In (1 :: repeat 0 (length rest))
                     (move (generatePrologCode config))).
    { cbn [generatePrologCode move]. fold (effective_capacity config).
      rewrite Es. apply In_generateAllowedMoves.
      cbn [length]. rewrite repeat_length, total_cons, total_zeros.
      split; [reflexivity|]. split; [|lia].
      constructor; [lia|]. apply Forall_forall. intros x Hx.
      apply repeat_spec in Hx. lia. }
    intros E. rewrite E in Hin. exact Hin. }
  destruct (compiled_terminates config) as (fuel & sols & Hs).
  destruct (solveProblem_renders _ _ _ Hs) as (texts & Ht).
  exists fuel, texts. split; [exact Ht|].
  assert (Hmono : forall fuel', (fuel <= fuel')%nat ->
                    solveProblem fuel' config = Some (Ok texts)).
  { intros fuel' Hle. unfold solveProblem in *.
    assert (Hs' : solve_solution fuel' (generatePrologCode config) = Some sols)
      by exact (path_mono_le _ _ _ _ _ _ Hle Hs).
    rewrite Hs'. rewrite Hs in Ht. exact Ht. }
  split; [exact Hmono|].
  intros fuel' r Hr. unfold solveProblem in Hr.
  destruct (solve_solution fuel' (generatePrologCode config)) as [sols'|] eqn:E;
    [|discriminate].
  assert (Esols : sols' = sols) by exact (path_agree _ _ _ _ _ _ _ E Hs).
  subst sols'. unfold solveProblem in Ht. rewrite Hs in Ht. congruence.
Qed.

Lemma solveProblem_total_witness :
  let config :=
    mkConfig [mkSpecies (lit "cats") 2; mkSpecies (lit "dogs") 1] [] 3 in
  species config <> [] /\ 1 <= effective_capacity config /\
  exists fuel texts, solveProblem fuel config = Some (Ok texts).
Proof.
  intros config.
  assert (Hsp : species config <> []) by discriminate.
  assert (Hcap : 1 <= effective_capacity config) by (vm_compute; discriminate).
  split; [exact Hsp|]. split; [exact Hcap|].
  destruct (solveProblem_total config Hsp Hcap) as (_ & fuel & texts & H & _).
  exists fuel, texts. exact H.
Defined.

(** ** Invariants of solutions *)

Lemma transition_into_box config s m s' :
  let p := generatePrologCode config in
  In s (state_space p) ->
  In (m, s') (transition_with_move p s None) ->
  Forall2 (fun x i => 0 <= x <= i) (state_counts s') (init_counts p).
Proof.
  intros p Hs Ht.
  assert (Hnn : Forall (fun y => 0 <= y) m).
  { apply (compiled_move_nonneg config).
    destruct s as [c [|]].
    - apply In_transition_start in Ht. destruct Ht as [Hm _].
      apply In_move_goal in Hm. tauto.
    - apply In_transition_target in Ht. destruct Ht as [Hm _].
      apply In_move_goal in Hm. tauto. }
  assert (Hstart : forall c, Forall2 Z.le c (init_counts p) ->
            In (m, s') (transition_with_move p (State c start) None) ->
            Forall2 (fun x i => 0 <= x <= i) (state_counts s') (init_counts p)).
  { intros c Hc H. apply In_transition_start in H.
    destruct H as (_ & New & HN & _ & ->). cbn [state_counts].
    eapply subtract_in_box; eauto. }
  destruct Hs as [Hs|Hs].
  - subst s. apply (Hstart (init_counts p)); [apply Forall2_le_refl|exact Ht].
  - apply in_app_or in Hs. destruct Hs as [Hs|Hs];
      apply in_map_iff in Hs; destruct Hs as (c & <- & Hc); apply In_box in Hc.
    + apply (Hstart c); auto.
      eapply Forall2_impl; [|exact Hc]. simpl. intros; lia.
    + apply In_transition_target in Ht.
      destruct Ht as (_ & New & HN & _ & ->). cbn [state_counts].
      eapply add_in_box; eauto.
      clear - Hc. induction Hc; constructor; auto; lia.
Qed.

Lemma chain_invariants config sol : forall s,
  let p := generatePrologCode config in
  In s (state_space p) ->
  chain p s sol ->
  Forall (fun t =>
            In (mt_move t) (move p) /\
            holds (safe p (mt_new t)) /\
            Forall2 (fun x i => 0 <= x <= i)
                    (state_counts (mt_new t)) (init_counts p) /\
            state_side (mt_new t) = flip_side (state_side (mt_old t))) sol.
Proof.
  induction sol as [|t rest IH]; intros s p Hs Hc; [constructor|].
  inversion Hc as [|? m s' ? Ht Hrest]; subst.
  assert (Hs' : In s' (state_space p)).
  { exact (state_space_closed p (compiled_move_nonneg config) eq_refl
             s m s' Hs Ht). }
  constructor; [|apply (IH s'); auto]. cbn [mt_move mt_new mt_old].
  split; [|split; [|split]].
  - pose proof (chain_moves _ _ _ Hc) as Hm.
    inversion Hm as [|? ? Hhd _]. exact Hhd.
  - exact (transition_target_safe _ _ _ _ _ Ht).
  - exact (transition_into_box config s m s' Hs Ht).
  - exact (transition_flips_side _ _ _ _ _ Ht).
Qed.

Lemma chain_parity p s sol :
  chain p s sol ->
  state_side (final_state p)
  = (if Nat.even (length sol) then state_side s else flip_side (state_side s)).
Proof.
  induction 1 as [s Hs|s m s' rest Ht Hc IH]; [subst; reflexivity|].
  rewrite IH, (transition_flips_side _ _ _ _ _ Ht).
  change (length (MoveTerm m s s' :: rest)) with (S (length rest)).
  rewrite Nat.even_succ, <- Nat.negb_even.
  destruct (Nat.even (length rest)), (state_side s); reflexivity.
Qed.

(** X6. Every solution returned by the search has an odd number of steps,
    and each of its steps uses a move fact, flips the side, reaches a safe
    state and keeps every count between zero and the initial count of its
    species. *)
Theorem solution_invariants (config : Config) (fuel : nat)
    (sols : list (list moveTerm)) (sol : list moveTerm) :
  let p := generatePrologCode config in
  solve_solution fuel p = Some sols -> In sol sols ->
  Nat.Odd (length sol) /\
  Forall (fun t =>
            In (mt_move t) (move p) /\
            holds (safe p (mt_new t)) /\
            Forall2 (fun x i => 0 <= x <= i)
                    (state_counts (mt_new t)) (init_counts p) /\
            state_side (mt_new t) = flip_side (state_side (mt_old t))) sol.
Proof.
  intros p Hs Hin. destruct (path_sound _ _ _ _ _ _ Hs Hin) as (Hc & _).
  split.
  - pose proof (chain_parity _ _ _ Hc) as Hp.
    change (state_side (final_state p)) with target in Hp.
    change (state_side (initial_state p)) with start in Hp.
    destruct (Nat.even (length sol)) eqn:Ee; [discriminate Hp|].
    apply Nat.odd_spec. rewrite <- Nat.negb_even, Ee. reflexivity.
  - apply (chain_invariants config sol (initial_state p)); auto. now left.
Qed.

Lemma solution_invariants_witness :
  let config :=
    mkConfig [mkSpecies (lit "a") 2; mkSpecies (lit "b") 2]
      [mkRel (lit "b") (lit "a")] 2 in
  let p := generatePrologCode config in
  exists sols sol,
    solve_solution 20 p = Some sols /\ In sol sols /\ length sol = 5%nat /\
    Nat.Odd (length sol).
Proof.
  intros config p.
  destruct (solve_solution 20 p) as [sols|] eqn:E;
    [|vm_compute in E; discriminate E].
  destruct sols as [|sol sols]; [vm_compute in E; discriminate E|].
  assert (Hin : In sol (sol :: sols)) by now left.
  exists (sol :: sols), sol. split; [reflexivity|]. split; [exact Hin|].
  split; [vm_compute in E; injection E as <- _; reflexivity|].
  exact (proj1 (solution_invariants config 20 (sol :: sols) sol E Hin)).
Defined.

Lemma length_flat_map_const {A B} (f : A -> list B) l k :
  (forall x, length (f x) = k) ->
  length (flat_map f l) = (length l * k)%nat.
Proof.
  intros H. induction l as [|a l IH]; simpl; auto.
  rewrite length_app, IH, H. reflexivity.
Qed.

Lemma length_upto c : length (upto c) = Z.to_nat (c + 1).
Proof. unfold upto. now rewrite length_map, length_seq. Qed.

Lemma length_box species :
  length (box (map count species)) = box_size species.
Proof.
  induction species as [|sp species IH]; [reflexivity|].
  cbn [map box box_size fold_right].
  rewrite (length_flat_map_const _ _ (length (box (map count species))))
    by (intros; apply length_map).
  rewrite length_upto, IH. reflexivity.
Qed.

(** X7. A solution never has more steps than there are states: at most
    twice the product of (count + 1) over the species. *)
Theorem solution_length_bound (config : Config) (fuel : nat)
    (sols : list (list moveTerm)) (sol : list moveTerm) :
  solve_solution fuel (generatePrologCode config) = Some sols ->
  In sol sols ->
  (length sol <= 2 * box_size (species config))%nat.
Proof.
  intros Hs Hin. set (p := generatePrologCode config) in *.
  destruct (path_sound _ _ _ _ _ _ Hs Hin) as (Hc & Hnd & _).
  pose proof (chain_invariants config sol (initial_state p)
                (or_introl eq_refl) Hc) as Hinv.
  fold p in Hinv.
  assert (Hincl : incl (map mt_new sol)
            (map (fun c => State c start) (box (init_counts p)) ++
             map (fun c => State c target) (box (init_counts p)))).
  { intros x Hx. apply in_map_iff in Hx. destruct Hx as (t & <- & Ht).
    rewrite Forall_forall in Hinv. destruct (Hinv t Ht) as (_ & _ & Hb & _).
    apply In_box in Hb. apply in_or_app.
    destruct (mt_new t) as [c [|]]; [left|right];
      apply in_map_iff; exists c; auto. }
  pose proof (NoDup_incl_length Hnd Hincl) as Hle.
  rewrite length_map, length_app, !length_map in Hle.
  change (init_counts p) with (map count (species config)) in Hle.
  rewrite length_box in Hle. lia.
Qed.

Lemma solution_length_bound_witness :
  let config :=
    mkConfig [mkSpecies (lit "cats") 2; mkSpecies (lit "dogs") 1] [] 3 in
  exists sols sol,
    solve_solution 13 (generatePrologCode config) = Some sols /\
    In sol sols /\ (length sol <= 12)%nat.
Proof.
  intros config.
  destruct (solve_solution 13 (generatePrologCode config)) as [sols|] eqn:E;
    [|vm_compute in E; discriminate E].
  destruct sols as [|sol sols]; [vm_compute in E; discriminate E|].
  assert (Hin : In sol (sol :: sols)) by now left.
  exists (sol :: sols), sol. split; [reflexivity|]. split; [exact Hin|].
  exact (solution_length_bound config 13 (sol :: sols) sol E Hin).
Defined.

(** ** Undoing a step; the mirror of a state *)

Lemma add_after_subtract C : forall m Init C',
  apply_move_subtract C m = Some C' ->
  Forall2 Z.le C Init ->
  apply_move_add C' Init m = Some C.
Proof.
  induction C as [|X C IH]; intros [|Y m] Init C'; simpl; try discriminate.
  - intros [= <-] H. inversion H. reflexivity.
  - destruct (X - Y >=? 0); [|discriminate].
    destruct (apply_move_subtract C m) as [r|] eqn:E; [|discriminate].
    intros [= <-] H. inversion H as [|? i ? Is Hle Hrest]; subst. simpl.
    destruct (Z.leb_spec Y (i - (X - Y))); [|lia].
    rewrite (IH _ _ _ E Hrest). simpl. f_equal. f_equal. lia.
Qed.

Lemma subtract_after_add C : forall Init m C',
  apply_move_add C Init m = Some C' ->
  Forall (fun x => 0 <= x) C ->
  apply_move_subtract C' m = Some C.
Proof.
  induction C as [|X C IH]; intros [|i Init] [|Y m] C'; simpl;
    try discriminate.
  - intros [= <-] _. reflexivity.
  - destruct (Y <=? i - X); [|discriminate].
    destruct (apply_move_add C Init m) as [r|] eqn:E; [|discriminate].
    intros [= <-] H. inversion H; subst. simpl.
    destruct (Z.geb_spec (X + Y - Y) 0); [|lia].
    rewrite (IH _ _ _ E) by auto. simpl. f_equal. f_equal. lia.
Qed.

(** X8. A step can be undone: when a transition leads from a safe state
    whose counts lie between zero and the initial counts to another state,
    the same move is a transition from that state back to the first one.
    (This is why the search has to remember the states it visited.) *)
Theorem transition_can_be_undone (p : program) (Counts : list Z) (sd : side)
    (m : list Z) (s' : state) :
  In (m, s') (transition_with_move p (State Counts sd) None) ->
  holds (safe p (State Counts sd)) ->
  Forall2 (fun x i => 0 <= x <= i) Counts (init_counts p) ->
  In (m, State Counts sd) (transition_with_move p s' None).
Proof.
  intros Ht Hsafe Hbox. destruct sd.
  - apply In_transition_start in Ht. destruct Ht as (Hm & New & HN & _ & ->).
    apply In_transition_target. split; auto. exists Counts.
    split; [|auto]. eapply add_after_subtract; eauto.
    eapply Forall2_impl; [|exact Hbox]. simpl. intros; lia.
  - apply In_transition_target in Ht. destruct Ht as (Hm & New & HN & _ & ->).
    apply In_transition_start. split; auto. exists Counts.
    split; [|auto]. eapply subtract_after_add; eauto.
    clear - Hbox. induction Hbox; constructor; auto; lia.
Qed.

Lemma transition_can_be_undone_witness :
  let p := generatePrologCode
             (mkConfig [mkSpecies (lit "a") 2; mkSpecies (lit "b") 2]
                [mkRel (lit "b") (lit "a")] 2) in
  In ([0; 2], State [2; 0] target)
     (transition_with_move p (State [2; 2] start) None) /\
  In ([0; 2], State [2; 2] start)
     (transition_with_move p (State [2; 0] target) None).
Proof.
  intros p.
  assert (Ht : In ([0; 2], State [2; 0] target)
                 (transition_with_move p (State [2; 2] start) None))
    by (vm_compute; tauto).
  split; [exact Ht|].
  apply (transition_can_be_undone p [2; 2] start [0; 2] _ Ht).
  - vm_compute. discriminate.
  - repeat constructor; simpl; lia.
Defined.

Lemma nth0_zip_sub Init : forall C i,
  length C = length Init ->
  nth0 i (zip_with Z.sub Init C)
  = match nth0 i Init, nth0 i C with
    | Some a, Some b => Some (a - b)
    | _, _ => None
    end.
Proof.
  induction Init as [|a Init IH]; intros [|b C] i Hl; try discriminate;
    [reflexivity|].
  injection Hl as Hl. cbn [zip_with nth0].
  destruct (i =? 0); [reflexivity|]. destruct (i >? 0); [|reflexivity].
  now apply IH.
Qed.

Lemma rel_ok_complement Init C ix :
  length C = length Init ->
  rel_ok Init C ix <-> rel_ok Init (zip_with Z.sub Init C) ix.
Proof.
  intros Hl. unfold rel_ok, not_outnumbered.
  rewrite !(nth0_zip_sub Init C) by auto. split.
  - intros (pc & qc & ip & iq & Hpc & Hqc & Hip & Hiq & H1 & H2).
    exists (ip - pc), (iq - qc), ip, iq. rewrite Hpc, Hqc, Hip, Hiq.
    repeat split; auto. lia.
  - intros (pc & qc & ip & iq & Hpc & Hqc & Hip & Hiq & H1 & H2).
    rewrite Hip in Hpc. rewrite Hiq in Hqc.
    destruct (nth0 (fst ix) C) as [a|]; [|discriminate].
    destruct (nth0 (snd ix) C) as [b|]; [|discriminate].
    injection Hpc as <-. injection Hqc as <-.
    exists a, b, ip, iq. repeat split; auto; lia.
Qed.

(** X9. The safety predicate does not tell the two locations apart: a
    state is safe exactly when the state with the complementary counts,
    initial minus counts, is safe, whatever the sides. *)
Theorem safe_mirror (p : program) (Counts : list Z) (sd sd' : side) :
  length Counts = length (init_counts p) ->
  holds (safe p (State Counts sd)) <->
  holds (safe p (State (zip_with Z.sub (init_counts p) Counts) sd')).
Proof.
  intros Hl. rewrite !safe_holds, !Forall_forall.
  split; intros H ix Hix.
  - apply (proj1 (rel_ok_complement _ _ ix Hl)). auto.
  - apply (proj2 (rel_ok_complement _ _ ix Hl)). auto.
Qed.

Lemma safe_mirror_witness :
  let p := generatePrologCode
             (mkConfig [mkSpecies (lit "a") 2; mkSpecies (lit "b") 2]
                [mkRel (lit "b") (lit "a")] 2) in
  length [2; 1] = length (init_counts p) /\
  holds (safe p (State [2; 1] start)) /\
  holds (safe p (State [0; 1] target)).
Proof.
  intros p.
  assert (Hl : length [2; 1] = length (init_counts p)) by reflexivity.
  assert (Hs : holds (safe p (State [2; 1] start)))
    by (vm_compute; discriminate).
  split; [exact Hl|]. split; [exact Hs|].
  exact (proj1 (safe_mirror p [2; 1] start target Hl) Hs).
Defined.

(** ** More on the codec *)

Lemma roundtrip_plain_names_witness :
  let config :=
    mkConfig [mkSpecies (lit "a") 2; mkSpecies (lit "b") 2]
      [mkRel (lit "b") (lit "a")] 2 in
  let p := generatePrologCode config in
  exists sols sol lines,
    solve_solution 20 p = Some sols /\ In sol sols /\
    solutionToHumanReadableList sol (species config) = Ok lines /\
    checkUserSolution p config lines = Ok true.
Proof.
  intros config p.
  assert (Hnd : NoDup (speciesNames config)).
  { repeat constructor; simpl; intuition discriminate. }
  assert (Hplain : Forall plain_name (speciesNames config)).
  { repeat constructor; try discriminate; reflexivity. }
  destruct (solve_solution 20 p) as [sols|] eqn:E;
    [|vm_compute in E; discriminate E].
  destruct sols as [|sol sols]; [vm_compute in E; discriminate E|].
  assert (Hin : In sol (sol :: sols)) by now left.
  destruct (roundtrip_plain_names config 20 (sol :: sols) sol Hnd Hplain E Hin)
    as (lines & Hl & Hv).
  exists (sol :: sols), sol, lines. auto.
Defined.

(** X11. Decoding undoes encoding, line by line: for pairwise distinct
    plain species names, a move with one amount per species, none negative
    and at least one positive, between two states on opposite sides, is
    rendered by [moveToSentence] into a line that [parseLine] decodes to
    the same amounts and the direction of the move. *)
Theorem moveToSentence_parseLine (species : list Species) (m : list Z)
    (old new : state) :
  NoDup (map name species) -> Forall plain_name (map name species) ->
  length m = length species ->
  Forall (fun x => 0 <= x) m -> 1 <= total m ->
  state_side new = flip_side (state_side old) ->
  exists line,
    moveToSentence (MoveTerm m old new) species = Ok line /\
    parseLine (map name species) line
    = Ok (mkStep m (direction_from (state_side old))).
Proof.
  intros Hnd Hplain Hl Hnn Ht Hside. eexists. split.
  - apply moveToSentence_text. exact Hl.
  - rewrite Hside.
    replace (sideToText (state_side old) ++ lit " -> "
               ++ sideToText (flip_side (state_side old)))
      with (direction_text (direction_from (state_side old)))
      by (destruct (state_side old); reflexivity).
    apply encode_decode_line; auto.
Qed.

Lemma moveToSentence_parseLine_witness :
  let species := [mkSpecies (lit "cats") 2; mkSpecies (lit "dogs") 1] in
  moveToSentence (MoveTerm [2; 1] (State [2; 1] start) (State [0; 0] target))
    species = Ok (lit "2 cats, 1 dogs cross left -> right") /\
  exists line,
    parseLine (map name species) line = Ok (mkStep [2; 1] leftToRight).
Proof.
  intros species. split; [reflexivity|].
  assert (Hnd : NoDup (map name species)).
  { repeat constructor; simpl; intuition discriminate. }
  assert (Hplain : Forall plain_name (map name species)).
  { repeat constructor; try discriminate; reflexivity. }
  assert (Hnn : Forall (fun x => 0 <= x) [2; 1]).
  { repeat constructor; lia. }
  assert (Ht : 1 <= total [2; 1]) by (vm_compute; discriminate).
  destruct (moveToSentence_parseLine species [2; 1] (State [2; 1] start)
              (State [0; 0] target) Hnd Hplain eq_refl Hnn Ht eq_refl)
    as (line & _ & Hp).
  exists line. exact Hp.
Defined.

Lemma segments_of_none m : forall species,
  Forall (fun x => x <= 0) m -> segments_of m species = Ok [].
Proof.
  induction m as [|c m IH]; intros species H; [reflexivity|].
  inversion H; subst. cbn [segments_of].
  destruct (Z.gtb_spec c 0); [lia|]. now apply IH.
Qed.

(** X12. A move that carries nothing has no line: when no amount is
    positive, [moveToSentence] renders a line with an empty list of
    segments, and decoding that line throws "cannot parse segment",
    whatever the species names. *)
Theorem empty_move_not_decodable (species : list Species)
    (names : list jsstring) (m : list Z) (old new : state) :
  Forall (fun x => x <= 0) m ->
  state_side new = flip_side (state_side old) ->
  exists line,
    moveToSentence (MoveTerm m old new) species = Ok line /\
    parseLine names line = Throw (CannotParseSegment [] line).
Proof.
  intros Hm Hside. unfold moveToSentence. cbn [mt_move mt_old mt_new].
  rewrite segments_of_none by auto. cbn [rbind]. eexists.
  split; [reflexivity|]. rewrite Hside.
  destruct (state_side old); reflexivity.
Qed.

Lemma empty_move_not_decodable_witness :
  let line := lit " cross left -> right" in
  moveToSentence (MoveTerm [0; 0] (State [2; 1] start) (State [2; 1] target))
    [mkSpecies (lit "cats") 2; mkSpecies (lit "dogs") 1] = Ok line /\
  exists line', parseLine [lit "cats"; lit "dogs"] line'
                = Throw (CannotParseSegment [] line').
Proof.
  intros line. split; [reflexivity|].
  assert (Hm : Forall (fun x => x <= 0) [0; 0]) by (repeat constructor; lia).
  destruct (empty_move_not_decodable
              [mkSpecies (lit "cats") 2; mkSpecies (lit "dogs") 1]
              [lit "cats"; lit "dogs"] [0; 0]
              (State [2; 1] start) (State [2; 1] target) Hm eq_refl)
    as (line' & _ & Hp).
  exists line'. exact Hp.
Defined.

(** X13. What decoding returns when it succeeds: one step per line, in
    order, each with one amount per species of the config and no negative
    amount. *)
Theorem parseSolutionLines_shape (config : Config)
    (solutionLines : list jsstring) (steps : list Step) :
  parseSolutionLines config solutionLines = Ok steps ->
  length steps = length solutionLines /\
  Forall (fun st => length (amounts st) = length (species config) /\
                    Forall (fun x => 0 <= x) (amounts st)) steps.
Proof.
  unfold parseSolutionLines. intros H.
  split; [exact (parseLines_length _ _ _ H)|].
  revert steps H.
  induction solutionLines as [|line lines IH]; intros steps;
    cbn [parseLines].
  - intros [= <-]. constructor.
  - destruct (parseLine (speciesNames config) line) as [st|] eqn:E;
      [|discriminate].
    cbn [rbind].
    destruct (parseLines (speciesNames config) lines) as [sts|];
      [|discriminate].
    cbn [rbind]. intros [= <-]. constructor; [|now apply IH].
    apply parseLine_amounts in E. unfold speciesNames in E.
    rewrite length_map in E. exact E.
Qed.

Lemma parseSolutionLines_shape_witness :
  let config :=
    mkConfig [mkSpecies (lit "cats") 2; mkSpecies (lit "dogs") 1] [] 3 in
  let lines := [lit "7 dogs,  3 cats , 1 dogs cross right -> left"] in
  parseSolutionLines config lines = Ok [mkStep [3; 8] rightToLeft] /\
  length [mkStep [3; 8] rightToLeft] = length lines.
Proof.
  intros config lines.
  assert (H : parseSolutionLines config lines = Ok [mkStep [3; 8] rightToLeft])
    by reflexivity.
  split; [exact H|].
  exact (proj1 (parseSolutionLines_shape config lines _ H)).
Defined.

(** X14. The first line that fails decides: when the lines before it
    decode and it throws, [parseSolutionLines] throws its error whatever
    follows, and so does [checkUserSolution], which never asks the query. *)
Theorem first_bad_line_decides (prologProgram : program) (config : Config)
    (before after : list jsstring) (bad : jsstring) (steps : list Step)
    (e : error) :
  parseSolutionLines config before = Ok steps ->
  parseLine (speciesNames config) bad = Throw e ->
  parseSolutionLines config (before ++ bad :: after) = Throw e /\
  checkUserSolution prologProgram config (before ++ bad :: after) = Throw e.
Proof.
  intros Hb He.
  assert (H : parseSolutionLines config (before ++ bad :: after) = Throw e).
  { unfold parseSolutionLines in *. revert steps Hb.
    induction before as [|line before IH]; intros steps Hb;
      cbn [app parseLines].
    - rewrite He. reflexivity.
    - cbn [parseLines] in Hb.
      destruct (parseLine (speciesNames config) line); [|discriminate].
      cbn [rbind] in *.
      destruct (parseLines (speciesNames config) before) as [sts|];
        [|discriminate].
      rewrite (IH sts eq_refl). reflexivity. }
  split; [exact H|]. unfold checkUserSolution. rewrite H. reflexivity.
Qed.

Lemma first_bad_line_decides_witness :
  let config :=
    mkConfig [mkSpecies (lit "cats") 2; mkSpecies (lit "dogs") 1] [] 3 in
  let bad := lit "1 cats crosses right -> left" in
  parseLine (speciesNames config) bad = Throw (MissingCross bad) /\
  checkUserSolution (generatePrologCode config) config
    [lit "2 cats cross left -> right"; bad; lit "no line at all"]
  = Throw (MissingCross bad).
Proof.
  intros config bad.
  assert (Hb : parseSolutionLines config [lit "2 cats cross left -> right"]
               = Ok [mkStep [2; 0] leftToRight]) by reflexivity.
  assert (He : parseLine (speciesNames config) bad = Throw (MissingCross bad))
    by reflexivity.
  split; [exact He|].
  exact (proj2 (first_bad_line_decides (generatePrologCode config) config
                  [lit "2 cats cross left -> right"] [lit "no line at all"]
                  bad _ _ Hb He)).
Defined.

(** ** What the generator returns *)

Lemma random_index_bound rnd t k :
  (0 < k)%nat -> (random_index rnd t k < k)%nat.
Proof.
  intros H. destruct k as [|k]; [lia|]. unfold random_index.
  apply Nat.mod_upper_bound. lia.
Qed.

Lemma randomName_loop_spec rnd i : forall t acc,
  exists more,
    randomName_loop rnd t i acc = (acc ++ more, (t + i)%nat) /\
    length more = i /\ forallb is_lower more = true.
Proof.
  induction i as [|i IH]; intros t acc; cbn [randomName_loop].
  - exists []. rewrite app_nil_r, Nat.add_0_r. auto.
  - destruct (IH (S t) (acc ++ [N.of_nat (97 + random_index rnd t 26)]))
      as (more & E & Hl & Hf).
    exists (N.of_nat (97 + random_index rnd t 26) :: more).
    rewrite E, <- app_assoc. split; [f_equal; lia|].
    split; [simpl; lia|]. cbn [forallb]. rewrite Hf, andb_true_r.
    pose proof (random_index_bound rnd t 26). unfold is_lower.
    apply andb_true_iff. split; apply N.leb_le; lia.
Qed.

Lemma species_loop_spec rnd cnt remaining : forall t acc,
  exists more t',
    species_loop rnd t remaining cnt acc = (acc ++ more, t') /\
    length more = remaining /\
    Forall (fun sp => count sp = cnt /\ length (name sp) = 5%nat /\
                      forallb is_lower (name sp) = true) more.
Proof.
  induction remaining as [|r IH]; intros t acc; cbn [species_loop].
  - exists [], t. rewrite app_nil_r. auto.
  - unfold randomName.
    destruct (randomName_loop_spec rnd 5 t []) as (nm & E & Hl & Hf).
    rewrite E. cbn [app].
    destruct (IH (t + 5)%nat (acc ++ [mkSpecies nm cnt]))
      as (more & t' & E' & Hl' & Hf').
    exists (mkSpecies nm cnt :: more), t'. rewrite E', <- app_assoc.
    split; [reflexivity|]. split; [simpl; lia|]. constructor; auto.
Qed.

Lemma generated_species fuel rnd n cnt r cap config :
  generateRandomConfig fuel rnd n cnt r cap = Some config ->
  length (species config) = n /\
  Forall (fun sp => count sp = cnt /\ length (name sp) = 5%nat /\
                    forallb is_lower (name sp) = true) (species config) /\
  starshipCapacity config = cap.
Proof.
  unfold generateRandomConfig.
  destruct (species_loop_spec rnd cnt n 0%nat []) as (sp & t & E & Hl & Hf).
  rewrite E. cbn [app].
  destruct (relationships_loop _ _ _ _ _ _ _ _ _) as [rels|]; [|discriminate].
  cbn [option_map]. intros [= <-]. cbn. auto.
Qed.

Lemma lower_not_space c : is_lower c = true -> is_space c = false.
Proof.
  intros H. destruct (is_space c) eqn:D; auto. exfalso.
  unfold is_lower in H. apply andb_true_iff in H. destruct H as [H1 H2].
  apply N.leb_le in H1, H2. unfold is_space in D. simpl in D.
  repeat (apply orb_true_iff in D; destruct D as [D|D]);
    try (apply N.eqb_eq in D; lia); try discriminate.
  apply andb_true_iff in D. destruct D as [D1 D2]. apply N.leb_le in D1. lia.
Qed.

Lemma lower_plain nm :
  length nm = 5%nat -> forallb is_lower nm = true -> nm <> lit "cross" ->
  plain_name nm.
Proof.
  intros Hl Hf Hc. unfold plain_name. split; [|split; [|split]]; auto.
  - intros ->. discriminate.
  - apply forallb_forall. intros c Hin. rewrite forallb_forall in Hf.
    apply negb_true_iff, lower_not_space. auto.
  - apply forallb_forall. intros c Hin. rewrite forallb_forall in Hf.
    specialize (Hf c Hin). destruct (N.eqb_spec c 44); auto. subst.
    discriminate.
Qed.

(** X15. When the generator returns, the config has the requested number
    of species, each with the requested count and a name of five lowercase
    letters, and the requested capacity, unchanged.  Such a name is plain
    for the line format unless it is the word [cross]; nothing keeps two
    species from drawing the same name. *)
Theorem generated_config_shape (fuel : nat) (rnd : nat -> nat)
    (numSpecies : nat)
    (numIndividualsPerSpecies numRelationships starshipCapacity0 : Z)
    (config : Config) :
  generateRandomConfig fuel rnd numSpecies numIndividualsPerSpecies
    numRelationships starshipCapacity0 = Some config ->
  length (species config) = numSpecies /\
  starshipCapacity config = starshipCapacity0 /\
  Forall (fun sp => count sp = numIndividualsPerSpecies /\
                    length (name sp) = 5%nat /\
                    forallb is_lower (name sp) = true /\
                    (name sp = lit "cross" \/ plain_name (name sp)))
         (species config).
Proof.
  intros H. destruct (generated_species _ _ _ _ _ _ _ H) as (Hl & Hf & Hc).
  split; [exact Hl|]. split; [exact Hc|].
  eapply Forall_impl; [|exact Hf]. intros sp (H1 & H2 & H3).
  repeat split; auto.
  destruct (Js.eqb (name sp) (lit "cross")) eqn:E.
  - left. now apply eqb_eq.
  - right. apply lower_plain; auto. intros Heq. apply eqb_eq in Heq.
    congruence.
Qed.

Lemma generated_config_shape_witness :
  generateRandomConfig 5 (fun t => (7 * t)%nat) 2 3 1 4
  = Some (mkConfig [mkSpecies (lit "ahovc") 3; mkSpecies (lit "jqxel") 3]
            [mkRel (lit "ahovc") (lit "jqxel")] 4) /\
  exists config,
    length (species config) = 2%nat /\ starshipCapacity config = 4.
Proof.
  assert (H : generateRandomConfig 5 (fun t => (7 * t)%nat) 2 3 1 4
    = Some (mkConfig [mkSpecies (lit "ahovc") 3; mkSpecies (lit "jqxel") 3]
              [mkRel (lit "ahovc") (lit "jqxel")] 4))
    by (vm_compute; reflexivity).
  split; [exact H|]. eexists.
  destruct (generated_config_shape _ _ _ _ _ _ _ H) as (H1 & H2 & _).
  split; [exact H1|exact H2].
Defined.

Lemma resample_spec fuel rnd n predIdx : forall t preyIdx preyIdx' t',
  resample fuel rnd t n predIdx preyIdx = Some (preyIdx', t') ->
  preyIdx' <> predIdx /\
  (preyIdx' = preyIdx \/ exists u, preyIdx' = random_index rnd u n).
Proof.
  induction fuel as [|fuel IH]; intros t prey prey' t'; cbn [resample];
    destruct (Nat.eqb_spec prey predIdx) as [E|E]; try discriminate.
  - intros [= <- <-]. auto.
  - intros H. apply IH in H. destruct H as [H1 [H2|H2]]; eauto.
  - intros [= <- <-]. auto.
Qed.

Lemma pair_eqb_eq a b : pair_eqb a b = true <-> a = b.
Proof.
  destruct a as [a1 a2], b as [b1 b2]. unfold pair_eqb. cbn [fst snd].
  rewrite andb_true_iff, !Nat.eqb_eq. split.
  - intros [-> ->]. reflexivity.
  - intros [= -> ->]. auto.
Qed.

Lemma used_pair_spec ij usedPairs :
  existsb (pair_eqb ij) usedPairs = true <-> In ij usedPairs.
Proof.
  rewrite existsb_exists. split.
  - intros (x & Hx & E). apply pair_eqb_eq in E. now subst.
  - intros H. exists ij. split; auto. now apply pair_eqb_eq.
Qed.

Lemma relationships_loop_spec fuel rnd n r species :
  forall t relationships usedPairs attempts out,
  relationships_loop fuel rnd t n r species relationships usedPairs attempts
    = Some out ->
  relationships = map (relationship_of species) (rev usedPairs) ->
  NoDup usedPairs ->
  Forall (fun ij => fst ij <> snd ij /\ (fst ij < n)%nat /\ (snd ij < n)%nat)
         usedPairs ->
  Z.of_nat (length relationships) <= Z.max 0 r ->
  Z.of_nat (length relationships) <= attempts <= 1000 ->
  exists pairs,
    out = map (relationship_of species) pairs /\
    NoDup pairs /\
    Forall (fun ij => fst ij <> snd ij /\ (fst ij < n)%nat /\ (snd ij < n)%nat)
           pairs /\
    Z.of_nat (length out) <= Z.max 0 r /\
    Z.of_nat (length out) <= 1000.
Proof.
  induction fuel as [|fuel IH];
    intros t rels used attempts out; cbn [relationships_loop];
    destruct ((Z.of_nat (length rels) <? r) && (attempts <? 1000)) eqn:Ec;
    try discriminate.
  - intros [= <-] Hr Hnd Hok Hmax Hatt. exists (rev used).
    repeat split; auto; [now apply NoDup_rev| |lia].
    apply Forall_forall. intros x Hx. rewrite Forall_forall in Hok.
    apply Hok. now apply in_rev.
  - apply andb_true_iff in Ec. destruct Ec as [Ec1 Ec2].
    apply Z.ltb_lt in Ec1, Ec2.
    destruct (resample fuel rnd (S (S t)) n (random_index rnd t n)
                (random_index rnd (S t) n)) as [[prey t']|] eqn:Er;
      [|discriminate].
    apply resample_spec in Er. destruct Er as [Hne Hprey].
    set (pred := random_index rnd t n) in *.
    assert (Hn : (0 < n)%nat).
    { destruct n as [|n']; [|lia]. exfalso. apply Hne.
      destruct Hprey as [->|(u & ->)]; reflexivity. }
    assert (Hpred : (pred < n)%nat) by now apply random_index_bound.
    assert (Hpreyb : (prey < n)%nat).
    { destruct Hprey as [->|(u & ->)]; now apply random_index_bound. }
    destruct (existsb (pair_eqb (pred, prey)) used) eqn:Eu.
    + intros H Hr Hnd Hok Hmax Hatt.
      apply (IH _ _ _ _ _ H); auto. lia.
    + intros H Hr Hnd Hok Hmax Hatt.
      apply (IH _ _ _ _ _ H).
      * cbn [rev]. rewrite map_app, <- Hr. reflexivity.
      * constructor; auto. intros Hin. apply used_pair_spec in Hin.
        congruence.
      * constructor; [cbn [fst snd]; auto|exact Hok].
      * rewrite length_app. simpl length. lia.
      * rewrite length_app. simpl length. lia.
  - intros [= <-] Hr Hnd Hok Hmax Hatt. exists (rev used).
    repeat split; auto; [now apply NoDup_rev| |lia].
    apply Forall_forall. intros x Hx. rewrite Forall_forall in Hok.
    apply Hok. now apply in_rev.
Qed.

Lemma generated_relationships fuel rnd n cnt r cap config :
  generateRandomConfig fuel rnd n cnt r cap = Some config ->
  exists pairs,
    relationships config = map (relationship_of (species config)) pairs /\
    NoDup pairs /\
    Forall (fun ij => fst ij <> snd ij /\ (fst ij < n)%nat /\ (snd ij < n)%nat)
           pairs /\
    Z.of_nat (length (relationships config)) <= Z.max 0 r /\
    Z.of_nat (length (relationships config)) <= 1000.
Proof.
  unfold generateRandomConfig.
  destruct (species_loop rnd 0 n cnt []) as [sp t].
  destruct (relationships_loop _ _ _ _ _ _ _ _ _) as [rels|] eqn:E;
    [|discriminate].
  cbn [option_map]. intros [= <-]. cbn [relationships species].
  apply (relationships_loop_spec _ _ _ _ _ _ _ _ _ _ E); auto.
  - constructor.
  - simpl. lia.
  - simpl. lia.
Qed.

(** X16. When the generator returns, its relationships come from pairwise
    distinct pairs of two different species positions of the config, in the
    order drawn; there are at most as many as requested and at most 1000;
    and every relationship names species of the config. *)
Theorem generated_relationships_shape (fuel : nat) (rnd : nat -> nat)
    (numSpecies : nat)
    (numIndividualsPerSpecies numRelationships starshipCapacity0 : Z)
    (config : Config) :
  generateRandomConfig fuel rnd numSpecies numIndividualsPerSpecies
    numRelationships starshipCapacity0 = Some config ->
  (exists pairs,
     relationships config = map (relationship_of (species config)) pairs /\
     NoDup pairs /\
     Forall (fun ij => fst ij <> snd ij /\ (fst ij < numSpecies)%nat /\
                       (snd ij < numSpecies)%nat) pairs) /\
  Z.of_nat (length (relationships config)) <= Z.max 0 numRelationships /\
  Z.of_nat (length (relationships config)) <= 1000 /\
  (forall rel, In rel (relationships config) ->
               In (predator rel) (speciesNames config) /\
               In (prey rel) (speciesNames config)).
Proof.
  intros H. destruct (generated_species _ _ _ _ _ _ _ H) as (Hlen & _ & _).
  destruct (generated_relationships _ _ _ _ _ _ _ H)
    as (pairs & Hrel & Hnd & Hok & Hmax & Hk).
  split; [eauto|]. split; [exact Hmax|]. split; [exact Hk|].
  intros rel Hin. rewrite Hrel in Hin. apply in_map_iff in Hin.
  destruct Hin as ([i j] & <- & Hij). rewrite Forall_forall in Hok.
  destruct (Hok _ Hij) as (_ & Hi & Hj). cbn [fst snd] in Hi, Hj.
  unfold relationship_of, speciesNames. cbn [predator prey fst snd].
  split; apply in_map, nth_In; lia.
Qed.

Lemma generated_relationships_shape_witness :
  let config := mkConfig [mkSpecies (lit "ahovc") 3; mkSpecies (lit "jqxel") 3]
                  [mkRel (lit "ahovc") (lit "jqxel")] 4 in
  generateRandomConfig 5 (fun t => (7 * t)%nat) 2 3 1 4 = Some config /\
  Z.of_nat (length (relationships config)) <= Z.max 0 1.
Proof.
  intros config.
  assert (H : generateRandomConfig 5 (fun t => (7 * t)%nat) 2 3 1 4
              = Some config) by (vm_compute; reflexivity).
  split; [exact H|].
  exact (proj1 (proj2 (generated_relationships_shape _ _ _ _ _ _ _ H))).
Defined.





(** X18. For a config the generator returned, with pairwise distinct
    species names none of which is [cross], the round trip holds: every
    solution the search returns is rendered into lines that
    [checkUserSolution] accepts. *)
Theorem generated_roundtrip (fuel : nat) (rnd : nat -> nat) (numSpecies : nat)
    (numIndividualsPerSpecies numRelationships starshipCapacity0 : Z)
    (config : Config) (fuel' : nat) (sols : list (list moveTerm))
    (sol : list moveTerm) :
  generateRandomConfig fuel rnd numSpecies numIndividualsPerSpecies
    numRelationships starshipCapacity0 = Some config ->
  NoDup (speciesNames config) ->
  ~ In (lit "cross") (speciesNames config) ->
  solve_solution fuel' (generatePrologCode config) = Some sols ->
  In sol sols ->
  exists lines,
    solutionToHumanReadableList sol (species config) = Ok lines /\
    checkUserSolution (generatePrologCode config) config lines = Ok true.
Proof.
  intros Hg Hnd Hcross Hs Hin.
  destruct (generated_species _ _ _ _ _ _ _ Hg) as (_ & Hf & _).
  assert (Hplain : Forall plain_name (speciesNames config)).
  { unfold speciesNames in *. rewrite Forall_map.
    rewrite Forall_forall in *. intros sp Hsp.
    destruct (Hf sp Hsp) as (_ & Hl & Hlow). apply lower_plain; auto.
    intros E. apply Hcross. rewrite <- E. now apply in_map. }
  destruct (path_sound _ _ _ _ _ _ Hs Hin) as (Hc & _).
  destruct (chain_roundtrip config Hnd Hplain _ _ Hc) as (lines & Hl & Hp & Hk).
  exists lines. split; [exact Hl|].
  unfold checkUserSolution, parseSolutionLines. rewrite Hp. cbn [rbind].
  destruct (check_solution _ (map step_of sol) _) eqn:E; [|reflexivity].
  exfalso. apply Hk. reflexivity.
Qed.

Lemma generated_roundtrip_witness :
  let config := mkConfig [mkSpecies (lit "ahovc") 1; mkSpecies (lit "jqxel") 1]
                  [] 2 in
  generateRandomConfig 0 (fun t => (7 * t)%nat) 2 1 0 2 = Some config /\
  checkUserSolution (generatePrologCode config) config
    [lit "1 ahovc, 1 jqxel cross left -> right"] = Ok true /\
  exists sol lines,
    solutionToHumanReadableList sol (species config) = Ok lines /\
    checkUserSolution (generatePrologCode config) config lines = Ok true.
Proof.
  intros config.
  assert (Hg : generateRandomConfig 0 (fun t => (7 * t)%nat) 2 1 0 2
               = Some config) by (vm_compute; reflexivity).
  assert (Hnd : NoDup (speciesNames config)).
  { repeat constructor; simpl; intuition discriminate. }
  assert (Hc : ~ In (lit "cross") (speciesNames config)).
  { simpl. intuition discriminate. }
  split; [exact Hg|]. split; [reflexivity|].
  destruct (solve_solution 9 (generatePrologCode config)) as [sols|] eqn:E;
    [|vm_compute in E; discriminate E].
  destruct sols as [|sol sols]; [vm_compute in E; discriminate E|].
  destruct (generated_roundtrip _ _ _ _ _ _ config 9 (sol :: sols) sol
              Hg Hnd Hc E (or_introl eq_refl)) as (lines & Hl & Hv).
  exists sol, lines. auto.
Defined.

(** ** Repeated answers *)

Lemma twice_app_l {A} (x : A) a l : twice x l -> twice x (a ++ l).
Proof.
  intros (l1 & l2 & l3 & ->). exists (a ++ l1), l2, l3.
  now rewrite <- app_assoc.
Qed.

Lemma twice_app_r {A} (x : A) l b : twice x l -> twice x (l ++ b).
Proof.
  intros (l1 & l2 & l3 & ->). exists l1, l2, (l3 ++ b).
  repeat (rewrite <- app_assoc; cbn [app]). reflexivity.
Qed.

Lemma twice_map_cons {A} (t : A) x l :
  twice x l -> twice (t :: x) (map (cons t) l).
Proof.
  intros (l1 & l2 & l3 & ->).
  exists (map (cons t) l1), (map (cons t) l2), (map (cons t) l3).
  rewrite !map_app. cbn [map]. rewrite map_app. reflexivity.
Qed.

Lemma twice_double {A} (x : A) l : In x l -> twice x (l ++ l).
Proof.
  intros H. apply in_split in H. destruct H as (a & b & ->).
  exists a, (b ++ a), b.
  repeat (rewrite <- app_assoc; cbn [app]). reflexivity.
Qed.

Lemma gather_app {A B} (f : A -> option (list B)) a : forall b g,
  gather f (a ++ b) = Some g ->
  exists ga gb, gather f a = Some ga /\ gather f b = Some gb /\ g = ga ++ gb.
Proof.
  induction a as [|x a IH]; intros b g; cbn [app gather].
  - intros H. exists [], g. auto.
  - destruct (f x) as [fx|]; [|discriminate].
    destruct (gather f (a ++ b)) as [r|] eqn:E; [|discriminate].
    intros [= <-]. destruct (IH _ _ E) as (ga & gb & -> & Hb & ->).
    exists (fx ++ ga), gb. rewrite <- app_assoc. auto.
Qed.

Lemma gather_cons {A B} (f : A -> option (list B)) x l g :
  gather f (x :: l) = Some g ->
  exists fx gl, f x = Some fx /\ gather f l = Some gl /\ g = fx ++ gl.
Proof.
  cbn [gather]. destruct (f x) as [fx|]; [|discriminate].
  destruct (gather f l) as [gl|]; [|discriminate].
  intros [= <-]. eauto.
Qed.

Lemma safe_goals_zero_twice Init n ix rest :
  holds (safe_goals Init (repeat 0 n) (ix :: rest)) ->
  (2 <= length (safe_goals Init (repeat 0%Z n) (ix :: rest)))%nat.
Proof.
  destruct ix as [pi qi]. cbn [safe_goals].
  destruct (nth0 pi (repeat 0 n)) as [pc|] eqn:Ep; [|intros H; now elim H].
  destruct (nth0 qi (repeat 0 n)) as [qc|] eqn:Eq; [|intros H; now elim H].
  apply nth0_repeat_zero in Ep, Eq. subst pc qc.
  cbn [of_option flat_map guard app Z.eqb Z.geb Z.compare].
  rewrite !app_nil_r. intros H. rewrite length_app.
  destruct (flat_map _ (of_option (nth0 pi Init))) as [|u k];
    [now elim H|]. simpl. lia.
Qed.

Lemma safe_final_twice config :
  let p := generatePrologCode config in
  relationships config <> [] ->
  holds (safe p (final_state p)) ->
  exists k, safe p (final_state p) = tt :: tt :: k.
Proof.
  intros p Hrel Hs.
  assert (Hlen : (2 <= length (safe p (final_state p)))%nat).
  { unfold safe in *. cbn [final_state safe_indices generatePrologCode p] in *.
    destruct (relationships config) as [|rel rels]; [contradiction|].
    cbn [map] in *. now apply safe_goals_zero_twice. }
  destruct (safe p (final_state p)) as [|[] [|[] k]]; simpl in Hlen; try lia.
  eauto.
Qed.

Lemma transitions_into_final_twice config c m :
  let p := generatePrologCode config in
  relationships config <> [] ->
  In (m, final_state p) (transition_with_move p (State c start) None) ->
  exists T1 T2,
    transition_with_move p (State c start) None
    = T1 ++ (m, final_state p) :: (m, final_state p) :: T2.
Proof.
  intros p Hrel Ht. pose proof Ht as Ht'.
  apply In_transition_start in Ht'.
  destruct Ht' as (Hm & New & HN & Hs & Hf).
  apply In_move_goal in Hm. destruct Hm as [Hm _].
  rewrite <- Hf in Hs.
  destruct (safe_final_twice config Hrel Hs) as (k & Ek).
  apply in_split in Hm. destruct Hm as (M1 & M2 & EM).
  unfold transition_with_move. cbn [move_goal]. rewrite EM.
  rewrite flat_map_app. cbn [flat_map]. rewrite HN. cbn [of_option flat_map].
  rewrite <- Hf. fold p in Ek. rewrite Ek. cbn [flat_map app].
  eexists. eexists. reflexivity.
Qed.

Lemma path_twice config fuel :
  let p := generatePrologCode config in
  relationships config <> [] ->
  forall s Visited sols sol,
    path fuel p s Visited = Some sols -> In sol sols -> sol <> [] ->
    twice sol sols.
Proof.
  intros p Hrel. induction fuel as [|fuel IH];
    intros s V sols sol Hp Hin Hne; [discriminate|].
  cbn [path] in Hp. destruct (gather _ _) as [g|] eqn:G; [|discriminate].
  cbn [option_map] in Hp. injection Hp as <-.
  apply twice_app_l. apply in_app_or in Hin. destruct Hin as [Hin|Hin].
  { revert Hin. destruct (state_eqb s _); simpl; intros Hin;
      [|contradiction].
    destruct Hin as [<-|[]]. contradiction. }
  destruct (gather_In _ _ _ _ G Hin) as ([m next] & x & Ha & Hf & Hx).
  cbn beta iota in Hf.
  destruct (not_member next V) eqn:Enm;
    [|injection Hf as <-; destruct Hx].
  destruct (path fuel p next (next :: V)) as [r|] eqn:Ep; [|discriminate].
  cbn [option_map] in Hf. injection Hf as <-.
  apply in_map_iff in Hx. destruct Hx as (sol' & <- & Hsol').
  destruct sol' as [|t' sol'].
  - (* the last step: the transition into the final state answers twice *)
    destruct (path_sound _ _ _ _ _ _ Ep Hsol') as (Hc & _).
    inversion Hc as [? Hnext|]; subst next.
    assert (Hside : state_side (final_state p) = flip_side (state_side s))
      by exact (transition_flips_side _ _ _ _ _ Ha).
    destruct s as [c sd]. destruct sd; [|discriminate Hside].
    destruct (transitions_into_final_twice config c m Hrel Ha)
      as (T1 & T2 & ET).
    fold p in ET. rewrite ET in G.
    apply gather_app in G. destruct G as (g1 & g2 & _ & G2 & ->).
    apply gather_cons in G2. destruct G2 as (x1 & g3 & Hx1 & G3 & ->).
    apply gather_cons in G3. destruct G3 as (x2 & g4 & Hx2 & _ & ->).
    cbn beta iota in Hx1, Hx2. rewrite Enm, Ep in Hx1, Hx2.
    cbn [option_map] in Hx1, Hx2. injection Hx1 as <-. injection Hx2 as <-.
    apply twice_app_l. rewrite app_assoc. apply twice_app_r.
    apply twice_double. apply in_map_iff. exists []. auto.
  - assert (Ht : twice (t' :: sol') r).
    { apply (IH _ _ _ _ Ep Hsol'). discriminate. }
    apply in_split in Ha. destruct Ha as (T1 & T2 & ET). rewrite ET in G.
    apply gather_app in G. destruct G as (g1 & g2 & _ & G2 & ->).
    apply gather_cons in G2. destruct G2 as (x1 & g3 & Hx1 & _ & ->).
    cbn beta iota in Hx1. rewrite Enm, Ep in Hx1.
    cbn [option_map] in Hx1. injection Hx1 as <-.
    apply twice_app_l, twice_app_r. now apply twice_map_cons.
Qed.

(** X19. The search does not return each solution once: as soon as the
    config has a relationship, every solution it returns is listed at two
    positions at least, because the safety test of the final state succeeds
    through both branches of its disjunction. *)
Theorem solutions_listed_twice (config : Config) (fuel : nat)
    (sols : list (list moveTerm)) (sol : list moveTerm) :
  relationships config <> [] ->
  solve_solution fuel (generatePrologCode config) = Some sols ->
  In sol sols ->
  twice sol sols.
Proof.
  intros Hrel Hs Hin.
  apply (path_twice config fuel Hrel _ _ _ _ Hs Hin).
  intros ->. destruct (path_sound _ _ _ _ _ _ Hs Hin) as (Hc & _).
  inversion Hc as [? H|]. exact (initial_not_final config H).
Qed.

Lemma solutions_listed_twice_witness :
  let config :=
    mkConfig [mkSpecies (lit "a") 2; mkSpecies (lit "b") 2]
      [mkRel (lit "b") (lit "a")] 2 in
  exists sols sol,
    solve_solution 20 (generatePrologCode config) = Some sols /\
    length sols = 8%nat /\ In sol sols /\ twice sol sols.
Proof.
  intros config.
  assert (Hrel : relationships config <> []) by discriminate.
  destruct (solve_solution 20 (generatePrologCode config)) as [sols|] eqn:E;
    [|vm_compute in E; discriminate E].
  destruct sols as [|sol sols]; [vm_compute in E; discriminate E|].
  assert (Hin : In sol (sol :: sols)) by now left.
  exists (sol :: sols), sol. split; [reflexivity|].
  split; [vm_compute in E; injection E as _ <-; reflexivity|].
  split; [exact Hin|].
  exact (solutions_listed_twice config 20 (sol :: sols) sol Hrel E Hin).
Defined.

(** ** How many individuals a step moves, and how many steps it takes *)

Lemma subtract_total C : forall m C',
  apply_move_subtract C m = Some C' -> total C' = total C - total m.
Proof.
  induction C as [|X C IH]; intros [|Y m] C'; simpl; try discriminate.
  - intros [= <-]. reflexivity.
  - destruct (X - Y >=? 0); [|discriminate].
    destruct (apply_move_subtract C m) as [r|] eqn:E; [|discriminate].
    intros [= <-]. rewrite !total_cons, (IH _ _ E). lia.
Qed.

Lemma add_total C : forall Init m C',
  apply_move_add C Init m = Some C' -> total C' = total C + total m.
Proof.
  induction C as [|X C IH]; intros [|i Init] [|Y m] C'; simpl;
    try discriminate.
  - intros [= <-]. reflexivity.
  - destruct (Y <=? i - X); [|discriminate].
    destruct (apply_move_add C Init m) as [r|] eqn:E; [|discriminate].
    intros [= <-]. rewrite !total_cons, (IH _ _ _ E). lia.
Qed.

Lemma chain_balance config sol : forall s,
  let p := generatePrologCode config in
  chain p s sol ->
  total (state_counts s)
  <= effective_capacity config * forward_steps sol - backward_steps sol /\
  forward_steps sol + backward_steps sol = Z.of_nat (length sol).
Proof.
  induction sol as [|t rest IH]; intros s p Hc;
    inversion Hc as [? Hs|? m s' ? Ht Hrest]; subst.
  - change (state_counts (final_state p))
      with (repeat 0 (length (species config))).
    rewrite total_zeros. unfold forward_steps, backward_steps.
    cbn [filter length]. lia.
  - destruct (IH s' Hrest) as [Hb Hlen]. fold p in Hb.
    assert (Hm : In m (move p)).
    { pose proof (chain_moves _ _ _ Hc) as H. inversion H; auto. }
    apply In_generateAllowedMoves in Hm. destruct Hm as (_ & _ & Hm1 & Hm2).
    fold (effective_capacity config) in Hm2.
    unfold forward_steps, backward_steps in *. cbn [filter mt_old length].
    destruct s as [c [|]]; cbn [state_side side_eqb state_counts].
    + apply In_transition_start in Ht. destruct Ht as (_ & New & HN & _ & ->).
      apply subtract_total in HN. cbn [state_counts] in Hb.
      cbn [length]. lia.
    + apply In_transition_target in Ht. destruct Ht as (_ & New & HN & _ & ->).
      apply add_total in HN. cbn [state_counts] in Hb.
      cbn [length]. lia.
Qed.

Lemma chain_alternates p sol : forall s,
  chain p s sol ->
  forward_steps sol - backward_steps sol
  = (if Nat.even (length sol) then 0
     else match state_side s with start => 1 | target => -1 end).
Proof.
  induction sol as [|t rest IH]; intros s Hc;
    inversion Hc as [? Hs|? m s' ? Ht Hrest]; subst; [reflexivity|].
  specialize (IH s' Hrest).
  pose proof (transition_flips_side _ _ _ _ _ Ht) as Hs.
  unfold forward_steps, backward_steps in *. cbn [filter mt_old].
  change (length (MoveTerm m s s' :: rest)) with (S (length rest)).
  rewrite Nat.even_succ, <- Nat.negb_even. rewrite Hs in IH.
  destruct (Nat.even (length rest)), (state_side s);
    cbn [side_eqb flip_side negb length] in *; lia.
Qed.

(** X20. A lower bound on the number of crossings: in a solution with L
    steps, twice the total population is at most (capacity - 1) * L +
    capacity + 1, because a step to the target side moves at most capacity
    individuals and every step back returns one at least. *)
Theorem solution_steps_lower_bound (config : Config) (fuel : nat)
    (sols : list (list moveTerm)) (sol : list moveTerm) :
  solve_solution fuel (generatePrologCode config) = Some sols ->
  In sol sols ->
  2 * total (map count (species config))
  <= (effective_capacity config - 1) * Z.of_nat (length sol)
     + effective_capacity config + 1.
Proof.
  intros Hs Hin. destruct (path_sound _ _ _ _ _ _ Hs Hin) as (Hc & _).
  destruct (chain_balance config sol _ Hc) as [Hb Hlen].
  pose proof (chain_alternates _ _ _ Hc) as Ha.
  pose proof (chain_parity _ _ _ Hc) as Hp.
  cbn [initial_state final_state generatePrologCode state_side state_counts]
    in Hb, Ha, Hp.
  destruct (Nat.even (length sol)); [discriminate Hp|]. nia.
Qed.

Lemma solution_steps_lower_bound_witness :
  let config :=
    mkConfig [mkSpecies (lit "a") 2; mkSpecies (lit "b") 2]
      [mkRel (lit "b") (lit "a")] 2 in
  exists sols sol,
    solve_solution 20 (generatePrologCode config) = Some sols /\
    In sol sols /\ 5 <= Z.of_nat (length sol).
Proof.
  intros config.
  destruct (solve_solution 20 (generatePrologCode config)) as [sols|] eqn:E;
    [|vm_compute in E; discriminate E].
  destruct sols as [|sol sols]; [vm_compute in E; discriminate E|].
  assert (Hin : In sol (sol :: sols)) by now left.
  exists (sol :: sols), sol. split; [reflexivity|]. split; [exact Hin|].
  pose proof (solution_steps_lower_bound config 20 (sol :: sols) sol E Hin)
    as H.
  change (total (map count (species config))) with 4 in H.
  change (effective_capacity config) with 2 in H. lia.
Defined.

(** X21. With capacity 1 nothing but a single individual can be carried
    over: when the total population is 2 or more, the search finishes and
    returns no solution. *)
Theorem capacity_one_unsolvable (config : Config) :
  starshipCapacity config = 1 ->
  2 <= total (map count (species config)) ->
  (exists fuel, solve_solution fuel (generatePrologCode config) = Some []) /\
  (forall fuel sols,
      solve_solution fuel (generatePrologCode config) = Some sols -> sols = []).
Proof.
  intros Hcap Htot.
  assert (Hnone : forall fuel sols,
            solve_solution fuel (generatePrologCode config) = Some sols ->
            sols = []).
  { intros fuel sols Hs. destruct sols as [|sol sols]; [reflexivity|].
    exfalso.
    destruct (path_sound _ _ _ _ _ _ Hs (or_introl eq_refl)) as (Hc & _).
    destruct (chain_balance config sol _ Hc) as [Hb Hlen].
    pose proof (chain_alternates _ _ _ Hc) as Ha.
    pose proof (chain_parity _ _ _ Hc) as Hp.
    cbn [initial_state final_state generatePrologCode state_side state_counts]
      in Hb, Ha, Hp.
    unfold effective_capacity in Hb. rewrite Hcap in Hb.
    change (1 =? 0) with false in Hb. cbn iota in Hb.
    destruct (Nat.even (length sol)); [discriminate Hp|]. lia. }
  split; [|exact Hnone].
  destruct (compiled_terminates config) as (fuel & sols & Hs).
  exists fuel. rewrite (Hnone _ _ Hs) in Hs. exact Hs.
Qed.

Lemma capacity_one_unsolvable_witness :
  let config := mkConfig [mkSpecies (lit "a") 1; mkSpecies (lit "b") 1] [] 1 in
  starshipCapacity config = 1 /\
  solve_solution 9 (generatePrologCode config) = Some [].
Proof.
  intros config.
  assert (Hc : starshipCapacity config = 1) by reflexivity.
  assert (Ht : 2 <= total (map count (species config)))
    by (vm_compute; discriminate).
  split; [exact Hc|].
  destruct (solve_solution 9 (generatePrologCode config)) as [sols|] eqn:E;
    [|vm_compute in E; discriminate E].
  rewrite (proj2 (capacity_one_unsolvable config Hc Ht) 9%nat sols E).
  reflexivity.
Defined.

(** ** Whatever verifies can be found *)

Lemma chain_suffix p s sol : forall s0,
  chain p s0 sol -> In s (map mt_new sol) ->
  exists suffix, chain p s suffix /\
                 incl (map mt_new suffix) (map mt_new sol) /\
                 (NoDup (map mt_new sol) ->
                  NoDup (s :: map mt_new suffix)).
Proof.
  induction sol as [|t rest IH]; intros s0 Hc Hin; [destruct Hin|].
  inversion Hc as [|? m s' ? Ht Hrest]; subst. cbn [map mt_new] in *.
  destruct (state_eqb s' s) eqn:E.
  - apply state_eqb_eq in E. subst s'. exists rest. split; [exact Hrest|].
    split; [apply incl_tl, incl_refl|auto].
  - destruct Hin as [Hin|Hin].
    + apply state_eqb_eq in Hin. congruence.
    + destruct (IH _ Hrest Hin) as (suffix & Hc' & Hincl & Hnd).
      exists suffix. split; [exact Hc'|]. split; [now apply incl_tl|].
      intros H. inversion H; subst. auto.
Qed.

Lemma not_member_false X l : not_member X l = false -> In X l.
Proof.
  unfold not_member. induction l as [|a l IH]; cbn [forallb];
    [discriminate|].
  destruct (state_eqb X a) eqn:E; cbn [negb andb].
  - intros _. left. symmetry. now apply state_eqb_eq.
  - intros H. right. auto.
Qed.

Lemma chain_cycle_free p sol : forall s,
  chain p s sol ->
  exists sol', chain p s sol' /\ NoDup (s :: map mt_new sol').
Proof.
  induction sol as [|t rest IH]; intros s Hc;
    inversion Hc as [? Hs|? m s' ? Ht Hrest]; subst.
  - exists []. split; [now constructor|]. repeat constructor. intros [].
  - destruct (IH s' Hrest) as (rest' & Hc' & Hnd).
    destruct (not_member s (s' :: map mt_new rest')) eqn:E.
    + apply not_member_spec in E.
      exists (MoveTerm m s s' :: rest'). split; [now constructor|].
      cbn [map mt_new]. constructor; auto.
    + assert (Hin : In s (s' :: map mt_new rest'))
        by now apply not_member_false.
      destruct (chain_suffix p s (MoveTerm m s s' :: rest') s
                  (chain_cons p s m s' rest' Ht Hc') Hin)
        as (suffix & Hcs & _ & Hnds).
      exists suffix. split; [exact Hcs|]. apply Hnds. exact Hnd.
Qed.

(** X22. The search misses no solvable puzzle: if some candidate is
    accepted by [checkUserSolution], then the search, once finished,
    returns at least one solution. *)
Theorem verified_implies_solved (p : program) (config : Config)
    (solutionLines : list jsstring) (fuel : nat)
    (sols : list (list moveTerm)) :
  checkUserSolution p config solutionLines = Ok true ->
  solve_solution fuel p = Some sols ->
  sols <> [].
Proof.
  intros Hv Hs. unfold checkUserSolution in Hv.
  destruct (parseSolutionLines config solutionLines) as [steps|];
    [|discriminate].
  cbn [rbind] in Hv.
  assert (Hk : holds (check_solution p steps (initial_state p))).
  { intros E. rewrite E in Hv. discriminate. }
  apply check_solution_run in Hk. destruct Hk as (trace & Hr & Hl).
  destruct (run_chain _ _ _ _ Hr Hl) as (sol & Hc & _).
  destruct (chain_cycle_free _ _ _ Hc) as (sol' & Hc' & Hnd).
  inversion Hnd as [|? ? Hnin Hnd']; subst.
  assert (Hin : In sol' sols).
  { apply (path_complete p sol' _ _ _ _ Hs Hc' Hnd').
    intros x Hx [<-|[]]. contradiction. }
  intros ->. destruct Hin.
Qed.

Lemma verified_implies_solved_witness :
  let config := mkConfig [mkSpecies (lit "a") 1] [] 1 in
  let lines := [lit "1 a cross left -> right"; lit "1 a cross right -> left";
                lit "1 a cross left -> right"] in
  checkUserSolution (generatePrologCode config) config lines = Ok true /\
  exists sols,
    solve_solution 5 (generatePrologCode config) = Some sols /\ sols <> [].
Proof.
  intros config lines.
  assert (Hv : checkUserSolution (generatePrologCode config) config lines
               = Ok true) by reflexivity.
  split; [exact Hv|].
  destruct (solve_solution 5 (generatePrologCode config)) as [sols|] eqn:E;
    [|vm_compute in E; discriminate E].
  exists sols. split; [reflexivity|].
  exact (verified_implies_solved _ config lines 5 sols Hv E).
Defined.
